(** * Rainbow agent (agent.py): categorical projection, double-Q selection,
      loss, target synchronisation and model loading.

    The tensors of the program hold 32-bit floats; this development replaces
    them by exact rationals ([Q], compared with [==]), so every statement is
    about the arithmetic the code writes down, before rounding.  A tensor of
    shape [[B, N]] is a [list (list Q)], an [int64] tensor a list of [Z]. *)

From Stdlib Require Import ZArith QArith Qround Qminmax Qabs Lia Lqa List.
From stdpp Require Import gmap strings list.

Local Open Scope Q_scope.

(** ** Exceptions the modelled code can raise *)

Inductive Exn : Type :=
  | ZeroDivisionError
  | FileNotFoundError (path : string)
  | KeyError (key : string)
  | IndexError
  | RuntimeError (what : string).

(** A small error monad: [inl e] is a raised exception. *)
Definition Res (A : Type) : Type := Exn + A.
Definition ret {A} (a : A) : Res A := inr a.
Definition raise {A} (e : Exn) : Res A := inl e.
Definition bind {A B} (m : Res A) (k : A -> Res B) : Res B :=
  match m with
  | inl e => inl e
  | inr a => k a
  end.

Notation "x <- m ;; k" := (bind m (fun x => k))
  (at level 100, m at next level, right associativity).

(** ** Tensor primitives *)

Module Torch.

(** [tensor.sum()] over a vector. *)
Definition Qsum (v : list Q) : Q := foldr Qplus 0 v.

(** [tensor.mean()]. *)
Definition mean (v : list Q) : Q := Qsum v / inject_Z (Z.of_nat (length v)).

(** [torch.linspace(start, end, steps)] for [steps >= 0]. *)
Definition linspace (start stop : Q) (steps : nat) : list Q :=
  match steps with
  | 0%nat => []
  | 1%nat => [start]
  | _ => map (fun i : nat =>
                start + inject_Z (Z.of_nat i)
                        * ((stop - start) / inject_Z (Z.of_nat steps - 1)))
             (seq 0 steps)
  end.

(** [x.clamp(min=lo, max=hi)]. *)
Definition clamp (lo hi x : Q) : Q := Qmin (Qmax x lo) hi.

(** Conversion of a float to [int64]: truncation towards zero. *)
Definition to_int64 (x : Q) : Z := Z.quot (Qnum x) (Zpos (Qden x)).

(** [dst.index_add_(0, index, source)] on a flat vector: for every position
    [k], [dst[index[k]] += source[k]].  An index outside [0, len(dst)) and an
    [index] whose length differs from [source]'s raise. *)
Fixpoint index_add_ (dst : list Q) (index : list Z) (source : list Q)
  : Res (list Q) :=
  match index, source with
  | [], [] => ret dst
  | i :: index', s :: source' =>
      if ((0 <=? i)%Z && (i <? Z.of_nat (length dst))%Z)%bool
      then index_add_ (alter (fun x => x + s) (Z.to_nat i) dst) index' source'
      else raise IndexError
  | _, _ => raise (RuntimeError "index_add_: shape mismatch")
  end.

(** First position of a maximal element, [tensor.argmax()]; an empty
    tensor raises. *)
Fixpoint argmax_from (best : Q) (ibest : nat) (i : nat) (v : list Q) : nat :=
  match v with
  | [] => ibest
  | x :: v' =>
      if Qlt_le_dec best x
      then argmax_from x i (S i) v'
      else argmax_from best ibest (S i) v'
  end.

Definition argmax (v : list Q) : Res nat :=
  match v with
  | [] => raise IndexError
  | x :: v' => ret (argmax_from x 0%nat 1%nat v')
  end.

(** [tensor.max()], the value; an empty tensor raises. *)
Definition max (v : list Q) : Res Q :=
  match v with
  | [] => raise IndexError
  | x :: v' => ret (foldl Qmax x v')
  end.

(** Integer indexing of one dimension: negative indices count from the end,
    anything outside [-len, len) raises. *)
Definition index {A} (v : list A) (i : Z) : Res A :=
  let len := Z.of_nat (length v) in
  let j := if (i <? 0)%Z then (i + len)%Z else i in
  if ((0 <=? j)%Z && (j <? len)%Z)%bool
  then match v !! Z.to_nat j with
       | Some x => ret x
       | None => raise IndexError
       end
  else raise IndexError.

(** [t[range(B), cols]]: row [b] of [t] indexed at [cols[b]]. *)
Fixpoint gather {A} (t : list (list A)) (rows : list nat) (cols : list Z)
  : Res (list A) :=
  match rows, cols with
  | [], [] => ret []
  | r :: rows', c :: cols' =>
      match t !! r with
      | None => raise IndexError
      | Some row =>
          x <- index row c ;;
          xs <- gather t rows' cols' ;;
          ret (x :: xs)
      end
  | _, _ => raise IndexError
  end.

(** [flat.view(B, cols)[b]]. *)
Definition view_row (cols : nat) (flat : list Q) (b : nat) : list Q :=
  take cols (drop (b * cols) flat).

Definition view (B cols : nat) (flat : list Q) : list (list Q) :=
  map (view_row cols flat) (seq 0 B).

End Torch.

(** ** Estimators and the agent's state *)

(** A tensor's storage; its shape is abstracted to its length. *)
Definition Tensor : Type := list Q.

(** An estimator ([torch.nn.Module]): named trainable parameters, named
    buffers (the noise of the noisy layers), the train/eval flag and the
    [requires_grad] flag of its parameters. *)
Record Net : Type := mkNet {
  parameters : gmap string Tensor;
  buffers : gmap string Tensor;
  training : bool;
  requires_grad : bool
}.

Inductive OptimKind : Type := Adam | AdamW.

(** The optimiser: its kind, hyper-parameters and per-parameter moments. *)
Record Optimiser : Type := mkOptimiser {
  opt_kind : OptimKind;
  opt_lr : Q;
  opt_eps : Q;
  opt_moments : gmap string Tensor
}.

(** The fields [Agent.__init__] sets. *)
Record Agent : Type := mkAgent {
  model_file : option string;
  atoms : Z;
  V_min : Q;
  V_max : Q;
  support : list Q;
  delta_z : Q;
  batch_size : nat;
  n : Z;
  discount : Q;
  norm_clip : Q;
  action_space : nat;
  online_net : Net;
  target_net : Net;
  optimiser : Optimiser
}.

(** ** The projection step of [learn] (lines 90-108) *)

Module Projection.
Import Torch.

(** [l[(u > 0) * (l == u)] -= 1], elementwise. *)
Definition fix_l (l u : Z) : Z :=
  if ((0 <? u)%Z && (l =? u)%Z)%bool then (l - 1)%Z else l.

(** [u[(l < (atoms - 1)) * (l == u)] += 1], elementwise, on the updated [l]. *)
Definition fix_u (atoms l u : Z) : Z :=
  if ((l <? atoms - 1)%Z && (l =? u)%Z)%bool then (u + 1)%Z else u.

(** [Tz = returns.unsqueeze(1) + nonterminals * (discount ** n) * support.unsqueeze(0)] *)
Definition bellman (ag : Agent) (returns nonterminals : list Q) : list (list Q) :=
  zip_with (fun r nt => map (fun z => r + nt * (discount ag ^ n ag) * z) (support ag))
           returns nonterminals.

(** [offset = linspace(0, (B - 1) * atoms, B).unsqueeze(1).expand(B, atoms).to(actions)] *)
Definition offset (ag : Agent) : list (list Z) :=
  map (fun o => replicate (Z.to_nat (atoms ag)) (to_int64 o))
      (linspace 0 (inject_Z ((Z.of_nat (batch_size ag) - 1) * atoms ag))
                (batch_size ag)).

(** The locals of the projection, in the order the code computes them. *)
Definition Tz (ag : Agent) (returns nonterminals : list Q) : list (list Q) :=
  map (map (clamp (V_min ag) (V_max ag))) (bellman ag returns nonterminals).

Definition b (ag : Agent) (returns nonterminals : list Q) : list (list Q) :=
  map (map (fun t => (t - V_min ag) / delta_z ag)) (Tz ag returns nonterminals).

Definition l (ag : Agent) (returns nonterminals : list Q) : list (list Z) :=
  let bb := b ag returns nonterminals in
  zip_with (zip_with fix_l) (map (map Qfloor) bb) (map (map Qceiling) bb).

Definition u (ag : Agent) (returns nonterminals : list Q) : list (list Z) :=
  let bb := b ag returns nonterminals in
  zip_with (zip_with (fix_u (atoms ag)))
           (l ag returns nonterminals) (map (map Qceiling) bb).

(** Elementwise operations on [[B, atoms]] tensors. *)
Definition add2 : list (list Z) -> list (list Z) -> list (list Z) :=
  zip_with (zip_with Z.add).
Definition mul2 : list (list Q) -> list (list Q) -> list (list Q) :=
  zip_with (zip_with Qmult).
Definition sub2 : list (list Q) -> list (list Q) -> list (list Q) :=
  zip_with (zip_with Qminus).
Definition float2 : list (list Z) -> list (list Q) := map (map inject_Z).

(** The projected target [m], returned as the [[B, atoms]] view of the flat
    storage the two [index_add_] calls accumulate into. *)
Definition distribute (ag : Agent) (returns nonterminals : list Q)
    (pns_a : list (list Q)) : Res (list (list Q)) :=
  let bb := b ag returns nonterminals in
  let ll := l ag returns nonterminals in
  let uu := u ag returns nonterminals in
  let m := replicate (batch_size ag * Z.to_nat (atoms ag)) 0 in
  m <- index_add_ m (concat (add2 ll (offset ag)))
                    (concat (mul2 pns_a (sub2 (float2 uu) bb))) ;;
  m <- index_add_ m (concat (add2 uu (offset ag)))
                    (concat (mul2 pns_a (sub2 bb (float2 ll)))) ;;
  ret (view (batch_size ag) (Z.to_nat (atoms ag)) m).

End Projection.

(** A grid as [Agent.__init__] builds it from [atoms >= 2] and
    [V_min < V_max]. *)
Definition grid_ok (ag : Agent) : Prop :=
  (2 <= atoms ag)%Z /\ V_min ag < V_max ag /\
  support ag = Torch.linspace (V_min ag) (V_max ag) (Z.to_nat (atoms ag)) /\
  delta_z ag = (V_max ag - V_min ag) / inject_Z (atoms ag - 1).

(** ** State dictionaries ([torch.nn.Module.state_dict], [load_state_dict]) *)

(** Every parameter and buffer under its name. *)
Definition state_dict (net : Net) : gmap string Tensor :=
  parameters net ∪ buffers net.

(** Strict loading: a key of the module missing from [sd], a key of [sd] the
    module does not have, or a tensor of another size raises; otherwise each
    parameter and buffer is overwritten with a copy of the entry of its name. *)
Definition load_state_dict (net : Net) (sd : gmap string Tensor) : Res Net :=
  if bool_decide (dom sd ⊆ dom (state_dict net))
     && bool_decide (map_Forall
          (fun k t => length <$> sd !! k = Some (length t)) (state_dict net))
  then ret (mkNet (map_imap (fun k _ => sd !! k) (parameters net))
                  (map_imap (fun k _ => sd !! k) (buffers net))
                  (training net) (requires_grad net))
  else raise (RuntimeError "Error(s) in loading state_dict").

(** The legacy names of the convolution weights and their new names. *)
Definition legacy_keys : list (string * string) :=
  [("conv1.weight", "convs.0.weight"); ("conv1.bias", "convs.0.bias");
   ("conv2.weight", "convs.2.weight"); ("conv2.bias", "convs.2.bias");
   ("conv3.weight", "convs.4.weight"); ("conv3.bias", "convs.4.bias")]%string.

(** One turn of the remapping loop:
    [state_dict[new_key] = state_dict[old_key]; del state_dict[old_key]]. *)
Definition remap_key (sd : gmap string Tensor) (keys : string * string)
  : Res (gmap string Tensor) :=
  match sd !! keys.1 with
  | None => raise (KeyError keys.1)
  | Some t => ret (delete keys.1 (<[keys.2 := t]> sd))
  end.

Fixpoint remap_keys (sd : gmap string Tensor) (keys : list (string * string))
  : Res (gmap string Tensor) :=
  match keys with
  | [] => ret sd
  | k :: keys' => sd' <- remap_key sd k ;; remap_keys sd' keys'
  end.

(** Lines 34-39: the loop runs only when ['conv1.weight'] is a key. *)
Definition remap_legacy (sd : gmap string Tensor) : Res (gmap string Tensor) :=
  if bool_decide (is_Some (sd !! "conv1.weight"%string))
  then remap_keys sd legacy_keys
  else ret sd.

(** ** Collaborators *)

(** A state (observation) tensor, the state of the random generator. *)
Definition Obs : Type := list Q.
Definition Rng : Type := N.

(** The command-line arguments [Agent.__init__] reads. *)
Record Args : Type := mkArgs {
  args_atoms : Z;
  args_V_min : Q;
  args_V_max : Q;
  args_batch_size : nat;
  args_multi_step : Z;
  args_discount : Q;
  args_norm_clip : Q;
  args_model : option string;
  args_architecture : string;
  args_learning_rate : Q;
  args_adam_eps : Q
}.

(** [components.DQN]: its constructor, its forward pass on one state (a
    distribution over atoms per action, as probabilities or as
    log-probabilities) and its noise resampling. *)
Record Estimator : Type := mkEstimator {
  DQN : Args -> nat -> Rng -> Res (Net * Rng);
  forward : Net -> Obs -> list (list Q);
  forward_log : Net -> Obs -> list (list Q);
  net_reset_noise : Net -> Rng -> Net * Rng
}.

(** Automatic differentiation and the optimiser: the gradient of a scalar
    function of the estimator at the current estimator, gradient clipping, and
    one optimiser step on the parameters it was built over. *)
Record Autograd : Type := mkAutograd {
  backward : (Net -> Q) -> Net -> gmap string Tensor;
  clip_grad_norm_ : gmap string Tensor -> Q -> gmap string Tensor;
  optim_step : Optimiser -> gmap string Tensor -> gmap string Tensor
               -> Optimiser * gmap string Tensor
}.

(** The file system behind [pathlib] and [torch.load]. *)
Record FileSystem : Type := mkFileSystem {
  joinpath : string -> string -> string;
  is_file : string -> bool;
  torch_load : string -> Res (gmap string Tensor)
}.

(** What [mem.sample] returns. *)
Record Batch : Type := mkBatch {
  idxs : list Z;
  states : list Obs;
  actions : list Z;
  returns : list Q;
  next_states : list Obs;
  nonterminals : list Q;
  weights : list Q
}.

(** The calls made on the replay memory. *)
Inductive MemCall : Type :=
  | Sample (batch_size : nat)
  | UpdatePriorities (idxs : list Z) (priorities : list Q).

(** ** The agent *)

Definition set_nets (ag : Agent) (online target : Net) (opt : Optimiser) : Agent :=
  mkAgent (model_file ag) (atoms ag) (V_min ag) (V_max ag) (support ag)
          (delta_z ag) (batch_size ag) (n ag) (discount ag) (norm_clip ag)
          (action_space ag) online target opt.

Definition set_training (flag : bool) (net : Net) : Net :=
  mkNet (parameters net) (buffers net) flag (requires_grad net).

Definition set_requires_grad (flag : bool) (net : Net) : Net :=
  mkNet (parameters net) (buffers net) (training net) flag.

Definition set_parameters (ps : gmap string Tensor) (net : Net) : Net :=
  mkNet ps (buffers net) (training net) (requires_grad net).

(** [update_target_net] (lines 118-119). *)
Definition update_target_net (ag : Agent) : Res Agent :=
  target <- load_state_dict (target_net ag) (state_dict (online_net ag)) ;;
  ret (set_nets ag (online_net ag) target (optimiser ag)).

(** Lines 28-43: loading a pretrained model into the online estimator. *)
Definition load_pretrained (fs : FileSystem) (model : option string)
    (results_dir : string) (online : Net) : Res (option string * Net) :=
  match model with
  | None => ret (None, online)
  | Some ""%string => ret (None, online)
  | Some name =>
      let file := joinpath fs results_dir name in
      if is_file fs file
      then sd <- torch_load fs file ;;
           sd <- remap_legacy sd ;;
           online <- load_state_dict online sd ;;
           ret (Some file, online)
      else raise (FileNotFoundError file)
  end.

(** [Agent.__init__]. *)
Definition init (E : Estimator) (fs : FileSystem) (args : Args)
    (results_dir : string) (env_action_space : nat) (rng : Rng)
  : Res (Agent * Rng) :=
  support <- (if (args_atoms args <? 0)%Z
              then raise (RuntimeError "number of steps must be non-negative")
              else ret (Torch.linspace (args_V_min args) (args_V_max args)
                                       (Z.to_nat (args_atoms args)))) ;;
  delta_z <- (if (args_atoms args - 1 =? 0)%Z
              then raise ZeroDivisionError
              else ret ((args_V_max args - args_V_min args)
                        / inject_Z (args_atoms args - 1))) ;;
  online_rng <- DQN E args env_action_space rng ;;
  loaded <- load_pretrained fs (args_model args) results_dir online_rng.1 ;;
  let online := set_training true loaded.2 in
  target_rng <- DQN E args env_action_space online_rng.2 ;;
  target <- load_state_dict target_rng.1 (state_dict online) ;;
  let target := set_requires_grad false (set_training true target) in
  let kind := if bool_decide (args_architecture args = "canonical"%string
                              \/ args_architecture args = "data-efficient"%string)
              then Adam else AdamW in
  ret (mkAgent loaded.1 (args_atoms args) (args_V_min args) (args_V_max args)
               support delta_z (args_batch_size args) (args_multi_step args)
               (args_discount args) (args_norm_clip args) env_action_space
               online target
               (mkOptimiser kind (args_learning_rate args) (args_adam_eps args) ∅),
       target_rng.2).

(** ** [learn] (lines 71-116) *)

Module Learn.
Import Torch.

(** [(support.expand_as(p) * p).sum(2)] for one state: the expected value of
    every action. *)
Definition expected_values (support : list Q) (p : list (list Q)) : list Q :=
  map (fun pa => Qsum (zip_with Qmult support pa)) p.

(** Line 77: [log_ps_a = log_ps[range(batch_size), actions]]. *)
Definition log_ps_a (E : Estimator) (ag : Agent) (online : Net) (batch : Batch)
  : Res (list (list Q)) :=
  gather (map (forward_log E online) (states batch))
         (seq 0 (batch_size ag)) (actions batch).

(** Lines 81-84: [argmax_indices_ns = dns.sum(2).argmax(1)] on the online
    estimator's distribution of the next states. *)
Fixpoint argmax_rows (q : list (list Q)) : Res (list nat) :=
  match q with
  | [] => ret []
  | row :: q' =>
      a <- argmax row ;;
      rest <- argmax_rows q' ;;
      ret (a :: rest)
  end.

Definition argmax_indices_ns (E : Estimator) (ag : Agent) (batch : Batch)
  : Res (list nat) :=
  let pns := map (forward E (online_net ag)) (next_states batch) in
  argmax_rows (map (expected_values (support ag)) pns).

(** Lines 86-88: the target estimator's distribution at the chosen actions;
    [target] is the target estimator after line 85 resampled its noise. *)
Definition pns_a (E : Estimator) (ag : Agent) (target : Net) (batch : Batch)
    (argmax_indices : list nat) : Res (list (list Q)) :=
  let pns := map (forward E target) (next_states batch) in
  gather pns (seq 0 (batch_size ag)) (map Z.of_nat argmax_indices).

(** Line 110: [loss = -torch.sum(m * log_ps_a, 1)]. *)
Definition loss (m log_ps_a : list (list Q)) : list Q :=
  zip_with (fun mb lb => - Qsum (zip_with Qmult mb lb)) m log_ps_a.

(** Line 112: the scalar [(weights * loss).mean()] as a function of the online
    estimator; [m] was computed under [no_grad] and is a constant of it. *)
Definition objective (E : Estimator) (ag : Agent) (batch : Batch)
    (m : list (list Q)) (online : Net) : Q :=
  match log_ps_a E ag online batch with
  | inr lp => mean (zip_with Qmult (weights batch) (loss m lp))
  | inl _ => 0
  end.

(** The values of the locals when [learn] returns. *)
Record Locals : Type := mkLocals {
  loc_log_ps_a : list (list Q);
  loc_argmax_indices_ns : list nat;
  loc_target_net : Net;
  loc_pns_a : list (list Q);
  loc_m : list (list Q);
  loc_loss : list Q;
  loc_objective : Net -> Q;
  loc_grads : gmap string Tensor
}.

(** What a call of [learn] leaves behind: the agent, the random generator,
    the calls it made on [mem] in order, and its locals. *)
Record Outcome : Type := mkOutcome {
  out_agent : Agent;
  out_rng : Rng;
  out_mem_calls : list MemCall;
  out_locals : Locals
}.

(** [learn(mem)], where [batch] is what [mem.sample(batch_size)] returned. *)
Definition learn (E : Estimator) (G : Autograd) (ag : Agent) (rng : Rng)
    (batch : Batch) : Res Outcome :=
  lp <- log_ps_a E ag (online_net ag) batch ;;
  am <- argmax_indices_ns E ag batch ;;
  let target_rng := net_reset_noise E (target_net ag) rng in
  pa <- pns_a E ag target_rng.1 batch am ;;
  m <- Projection.distribute ag (returns batch) (nonterminals batch) pa ;;
  let ls := loss m lp in
  let J := objective E ag batch m in
  let grads := backward G J (online_net ag) in
  let grads := clip_grad_norm_ G grads (norm_clip ag) in
  let stepped := optim_step G (optimiser ag) (parameters (online_net ag)) grads in
  ret (mkOutcome
         (set_nets ag (set_parameters stepped.2 (online_net ag)) target_rng.1 stepped.1)
         target_rng.2
         [Sample (batch_size ag); UpdatePriorities (idxs batch) ls]
         (mkLocals lp am target_rng.1 pa m ls J grads)).

End Learn.

(** ** The other methods of the agent *)

(** [reset_noise] (lines 59-60): of the online estimator only. *)
Definition reset_noise (E : Estimator) (ag : Agent) (rng : Rng) : Agent * Rng :=
  let online_rng := net_reset_noise E (online_net ag) rng in
  (set_nets ag online_rng.1 (target_net ag) (optimiser ag), online_rng.2).

(** [act] (lines 63-65). *)
Definition act (E : Estimator) (ag : Agent) (state : Obs) : Res nat :=
  Torch.argmax (Learn.expected_values (support ag) (forward E (online_net ag) state)).

(** [act_e_greedy] (lines 68-69); [u] is what [np.random.random()] draws and
    [choice] what [np.random.choice(action_space)] would return. *)
Definition act_e_greedy (E : Estimator) (ag : Agent) (state : Obs) (epsilon u : Q)
    (choice : nat) : Res nat :=
  if Qlt_le_dec u epsilon then ret choice else act E ag state.

(** [save] (lines 122-124): the mapping handed to [torch.save]. *)
Definition save (ag : Agent) : gmap string Tensor := state_dict (online_net ag).

(** [evaluate_q] (lines 127-129). *)
Definition evaluate_q (E : Estimator) (ag : Agent) (state : Obs) : Res Q :=
  Torch.max (Learn.expected_values (support ag) (forward E (online_net ag) state)).

(** [train] and [eval] (lines 131-135). *)
Definition train (ag : Agent) : Agent :=
  set_nets ag (set_training true (online_net ag)) (target_net ag) (optimiser ag).
Definition eval (ag : Agent) : Agent :=
  set_nets ag (set_training false (online_net ag)) (target_net ag) (optimiser ag).

(** The methods a caller can run on an agent. *)
Inductive Op : Type :=
  | OpResetNoise
  | OpAct (state : Obs)
  | OpActEGreedy (state : Obs) (epsilon u : Q) (choice : nat)
  | OpLearn (batch : Batch)
  | OpUpdateTargetNet
  | OpSave
  | OpEvaluateQ (state : Obs)
  | OpTrain
  | OpEval.

Definition run_op (E : Estimator) (G : Autograd) (op : Op) (w : Agent * Rng)
  : Res (Agent * Rng) :=
  match op with
  | OpResetNoise => ret (reset_noise E w.1 w.2)
  | OpAct state => _ <- act E w.1 state ;; ret w
  | OpActEGreedy state epsilon u choice =>
      _ <- act_e_greedy E w.1 state epsilon u choice ;; ret w
  | OpLearn batch =>
      out <- Learn.learn E G w.1 w.2 batch ;;
      ret (Learn.out_agent out, Learn.out_rng out)
  | OpUpdateTargetNet => ag <- update_target_net w.1 ;; ret (ag, w.2)
  | OpSave => let _ := save w.1 in ret w
  | OpEvaluateQ state => _ <- evaluate_q E w.1 state ;; ret w
  | OpTrain => ret (train w.1, w.2)
  | OpEval => ret (eval w.1, w.2)
  end.

(** * Verification *)

(** ** Row-wise reading of the flat accumulation *)

Module Rows.
Import Torch.

(** [index_add_] on one row, for indices known to be in range. *)
Fixpoint row_add (row : list Q) (index : list Z) (source : list Q) : list Q :=
  match index, source with
  | i :: index', s :: source' =>
      row_add (alter (fun x => x + s) (Z.to_nat i) row) index' source'
  | _, _ => row
  end.

(** The total mass [source] sends to position [j]. *)
Fixpoint contrib (j : Z) (index : list Z) (source : list Q) : Q :=
  match index, source with
  | i :: index', s :: source' =>
      (if (i =? j)%Z then s else 0) + contrib j index' source'
  | _, _ => 0
  end.

(** Row [k] of a [[B, N]] index tensor moved to its place in the flat view. *)
Fixpoint shift_rows (o N : Z) (index : list (list Z)) : list (list Z) :=
  match index with
  | [] => []
  | r :: index' => map (fun i => (i + o)%Z) r :: shift_rows (o + N) N index'
  end.

Fixpoint rows_add (rows : list (list Q)) (index : list (list Z))
    (source : list (list Q)) : list (list Q) :=
  match rows, index, source with
  | row :: rows', i :: index', s :: source' =>
      row_add row i s :: rows_add rows' index' source'
  | _, _, _ => rows
  end.

Definition in_row (N : nat) (i : Z) : Prop := (0 <= i < Z.of_nat N)%Z.

End Rows.

Section TorchFacts.
Import Torch Rows.

Lemma Qsum_nil : Qsum [] = 0.
Proof. reflexivity. Qed.

Lemma Qsum_cons x v : Qsum (x :: v) = x + Qsum v.
Proof. reflexivity. Qed.

Lemma Qsum_app v w : Qsum (v ++ w) == Qsum v + Qsum w.
Proof.
  induction v as [|x v IH].
  - rewrite app_nil_l, Qsum_nil. ring.
  - rewrite <- app_comm_cons, !Qsum_cons, IH. ring.
Qed.

Lemma Qsum_replicate_0 k : Qsum (replicate k 0) == 0.
Proof.
  induction k as [|k IH]; [reflexivity|].
  change (replicate (S k) 0) with (0 :: replicate k 0).
  rewrite Qsum_cons, IH. ring.
Qed.

Lemma Qsum_nonneg v : Forall (Qle 0) v -> 0 <= Qsum v.
Proof.
  induction 1 as [|x v Hx _ IH]; [rewrite Qsum_nil; lra|].
  rewrite Qsum_cons. lra.
Qed.

Lemma Qsum_alter v i s :
  (i < length v)%nat -> Qsum (alter (fun x => x + s) i v) == Qsum v + s.
Proof.
  revert i; induction v as [|x v IH]; intros i Hi; simpl in Hi; [lia|].
  destruct i as [|i].
  - change (alter (fun x => x + s) 0%nat (x :: v)) with ((x + s) :: v).
    rewrite !Qsum_cons. ring.
  - change (alter (fun x => x + s) (S i) (x :: v))
      with (x :: alter (fun x => x + s) i v).
    rewrite !Qsum_cons, IH by lia. ring.
Qed.

Lemma Qsum_Forall2 v w : Forall2 Qeq v w -> Qsum v == Qsum w.
Proof.
  induction 1 as [|x y v w Hxy _ IH]; [reflexivity|].
  rewrite !Qsum_cons, Hxy, IH. reflexivity.
Qed.

Lemma length_row_add row index source :
  length (row_add row index source) = length row.
Proof.
  revert row source; induction index as [|i index IH]; intros row [|s source];
    simpl; try reflexivity.
  rewrite IH. apply length_alter.
Qed.

Lemma Qsum_row_add row index source :
  length index = length source ->
  Forall (in_row (length row)) index ->
  Qsum (row_add row index source) == Qsum row + Qsum source.
Proof.
  revert row source; induction index as [|i index IH]; intros row [|s source] Hlen Hin;
    try discriminate Hlen; cbn [row_add].
  - rewrite Qsum_nil. ring.
  - inversion Hin as [|? ? Hi Hin']; subst. simpl in Hlen.
    rewrite IH; [| lia | now rewrite length_alter].
    rewrite Qsum_alter, Qsum_cons; [ring|]. unfold in_row in Hi. lia.
Qed.

Lemma row_add_nonneg row index source :
  Forall (Qle 0) row -> Forall (Qle 0) source ->
  Forall (Qle 0) (row_add row index source).
Proof.
  revert row source; induction index as [|i index IH]; intros row [|s source] Hrow Hsrc;
    simpl; try assumption.
  inversion Hsrc; subst. apply IH; [|assumption].
  apply Forall_alter; [assumption|]. intros x Hx. lra.
Qed.

Lemma lookup_row_add row index source (j : nat) y :
  Forall (fun i => (0 <= i)%Z) index ->
  row !! j = Some y ->
  exists x, row_add row index source !! j = Some x
            /\ x == y + contrib (Z.of_nat j) index source.
Proof.
  revert row source y; induction index as [|i index IH]; intros row [|s source] y Hin Hj;
    simpl; try (exists y; split; [assumption | ring]).
  inversion Hin as [|? ? Hi Hin']; subst.
  destruct (decide (Z.to_nat i = j)) as [Heq|Hne].
  - destruct (IH (alter (fun x => x + s) (Z.to_nat i) row) source (y + s) Hin')
      as (x & Hx & Hxy).
    { rewrite Heq, list_lookup_alter_eq, Hj. reflexivity. }
    exists x; split; [assumption|].
    replace (i =? Z.of_nat j)%Z with true by (symmetry; apply Z.eqb_eq; lia).
    rewrite Hxy. ring.
  - destruct (IH (alter (fun x => x + s) (Z.to_nat i) row) source y Hin')
      as (x & Hx & Hxy).
    { rewrite list_lookup_alter_ne by assumption. assumption. }
    exists x; split; [assumption|].
    replace (i =? Z.of_nat j)%Z with false by (symmetry; apply Z.eqb_neq; lia).
    rewrite Hxy. ring.
Qed.

End TorchFacts.

Section FlatView.
Import Torch Rows.

Lemma index_add_in_context idx src pre row post rest_i rest_s :
  length idx = length src ->
  Forall (in_row (length row)) idx ->
  index_add_ (pre ++ row ++ post)
             (map (fun i => (i + Z.of_nat (length pre))%Z) idx ++ rest_i)
             (src ++ rest_s)
  = index_add_ (pre ++ row_add row idx src ++ post) rest_i rest_s.
Proof.
  revert src row; induction idx as [|i idx IH]; intros [|s src] row Hlen Hin;
    try discriminate Hlen; [reflexivity|].
  inversion Hin as [|? ? Hi Hin']; subst. unfold in_row in Hi.
  cbn [map app index_add_ row_add].
  replace ((0 <=? i + Z.of_nat (length pre))%Z
           && (i + Z.of_nat (length pre) <? Z.of_nat (length (pre ++ row ++ post)))%Z)
    with true.
  2:{ symmetry. apply andb_true_iff. rewrite !length_app.
      split; [apply Z.leb_le | apply Z.ltb_lt]; lia. }
  replace (Z.to_nat (i + Z.of_nat (length pre))) with (length pre + Z.to_nat i)%nat by lia.
  rewrite alter_app_r, alter_app_l by lia.
  apply IH; [simpl in Hlen; lia | now rewrite length_alter].
Qed.

Lemma index_add_rows rows : forall idxs srcs pre (N : nat),
  Forall (fun r => length r = N) rows ->
  length idxs = length rows -> length srcs = length rows ->
  Forall2 (fun i s => length i = length s) idxs srcs ->
  Forall (Forall (in_row N)) idxs ->
  index_add_ (pre ++ concat rows)
             (concat (shift_rows (Z.of_nat (length pre)) (Z.of_nat N) idxs))
             (concat srcs)
  = inr (pre ++ concat (rows_add rows idxs srcs)).
Proof.
  induction rows as [|row rows IH]; intros [|i idxs] [|s srcs] pre N Hrows Hli Hls Hlen Hin;
    try discriminate; [reflexivity|].
  inversion Hrows as [|? ? Hrow Hrows']; subst.
  inversion Hlen as [|? ? ? ? Hl1 Hlen']; subst.
  inversion Hin as [|? ? Hi Hin']; subst.
  cbn [concat shift_rows rows_add].
  rewrite index_add_in_context by assumption.
  rewrite !(app_assoc pre).
  replace (Z.of_nat (length pre) + Z.of_nat (length row))%Z
    with (Z.of_nat (length (pre ++ row_add row i s)))
    by (rewrite length_app, length_row_add; lia).
  apply IH; simpl in *; try assumption; lia.
Qed.

Lemma view_concat rows : forall pre (k N : nat),
  Forall (fun r => length r = N) rows ->
  length pre = (k * N)%nat ->
  map (view_row N (pre ++ concat rows)) (seq k (length rows)) = rows.
Proof.
  induction rows as [|row rows IH]; intros pre k N Hrows Hpre; [reflexivity|].
  inversion Hrows as [|? ? Hrow Hrows']; subst.
  cbn [length seq map concat]. f_equal.
  - unfold view_row. rewrite drop_app_length' by lia.
    now rewrite take_app_length'.
  - rewrite (app_assoc pre). apply IH; [assumption|].
    rewrite length_app. lia.
Qed.

Lemma replicate_rows (B N : nat) (x : Q) :
  replicate (B * N) x = concat (replicate B (replicate N x)).
Proof.
  induction B as [|B IH]; [reflexivity|].
  cbn [Nat.mul replicate concat]. now rewrite replicate_add, IH.
Qed.

Lemma lookup_rows_add rows : forall idxs srcs (k : nat) row i s,
  rows !! k = Some row -> idxs !! k = Some i -> srcs !! k = Some s ->
  rows_add rows idxs srcs !! k = Some (row_add row i s).
Proof.
  induction rows as [|r rows IH]; intros [|i0 idxs] [|s0 srcs] k row i s Hr Hi Hs;
    try discriminate.
  destruct k as [|k]; simpl in *.
  - congruence.
  - eapply IH; eassumption.
Qed.

Lemma length_rows_add rows idxs srcs :
  length (rows_add rows idxs srcs) = length rows.
Proof.
  revert idxs srcs; induction rows as [|r rows IH]; intros [|i idxs] [|s srcs];
    simpl; try reflexivity.
  now rewrite IH.
Qed.

Lemma Forall_length_rows_add (N : nat) rows idxs srcs :
  Forall (fun r => length r = N) rows ->
  Forall (fun r => length r = N) (rows_add rows idxs srcs).
Proof.
  revert idxs srcs; induction rows as [|r rows IH]; intros [|i idxs] [|s srcs] H;
    simpl; try assumption.
  inversion H; subst. constructor; [apply length_row_add | now apply IH].
Qed.

End FlatView.

(** ** The two neighbours of a grid coordinate *)

Module Neighbours.
Import Projection.

(** The entries of [l] and [u] as functions of the entry of [b]. *)
Definition lo (x : Q) : Z := fix_l (Qfloor x) (Qceiling x).
Definition hi (atoms : Z) (x : Q) : Z := fix_u atoms (lo x) (Qceiling x).

End Neighbours.

Section NeighbourFacts.
Import Projection Neighbours.

Lemma inject_Z_le a c : (a <= c)%Z -> inject_Z a <= inject_Z c.
Proof. intros H. now rewrite <- Zle_Qle. Qed.

Lemma inject_Z_lt_inv a c : inject_Z a < inject_Z c -> (a < c)%Z.
Proof. intros H. now rewrite Zlt_Qlt. Qed.

Lemma floor_ceiling_bounds (atoms : Z) (x : Q) :
  0 <= x -> x <= inject_Z (atoms - 1) ->
  (0 <= Qfloor x /\ Qfloor x <= Qceiling x <= Qfloor x + 1
   /\ Qceiling x <= atoms - 1)%Z.
Proof.
  intros H0 H1.
  pose proof (Qfloor_le x) as Hf1. pose proof (Qlt_floor x) as Hf2.
  pose proof (Qle_ceiling x) as Hc1. pose proof (Qceiling_lt x) as Hc2.
  assert (-1 < Qfloor x)%Z.
  { apply inject_Z_lt_inv. change (inject_Z (-1)) with (-1 # 1).
    rewrite inject_Z_plus in Hf2. change (inject_Z 1) with 1 in Hf2. lra. }
  assert (Qceiling x - 1 < Qfloor x + 1)%Z by (apply inject_Z_lt_inv; lra).
  assert (Qfloor x - 1 < Qceiling x)%Z.
  { apply inject_Z_lt_inv.
    assert (inject_Z (Qfloor x - 1) < inject_Z (Qfloor x)).
    { rewrite <- Zlt_Qlt. lia. }
    lra. }
  assert (Qceiling x - 1 < atoms - 1)%Z by (apply inject_Z_lt_inv; lra).
  lia.
Qed.

(** In range, the two neighbours are adjacent grid indices around [x]. *)
Lemma neighbours_adjacent (atoms : Z) (x : Q) :
  (2 <= atoms)%Z -> 0 <= x -> x <= inject_Z (atoms - 1) ->
  (0 <= lo x)%Z /\ (hi atoms x <= atoms - 1)%Z /\ hi atoms x = (lo x + 1)%Z
  /\ inject_Z (lo x) <= x /\ x <= inject_Z (hi atoms x).
Proof.
  intros HA H0 H1.
  destruct (floor_ceiling_bounds atoms x H0 H1) as (Hf & Hfc & Hc).
  pose proof (Qfloor_le x) as Hf1. pose proof (Qle_ceiling x) as Hc1.
  unfold hi, lo, fix_u, fix_l.
  pose proof (inject_Z_le (Qfloor x - 1) (Qfloor x) ltac:(lia)).
  pose proof (inject_Z_le (Qceiling x) (Qceiling x + 1) ltac:(lia)).
  destruct (Z.ltb_spec 0 (Qceiling x)), (Z.eqb_spec (Qfloor x) (Qceiling x));
    cbn [andb];
    match goal with
    | |- context [(?a <? atoms - 1)%Z] =>
        destruct (Z.ltb_spec a (atoms - 1)), (Z.eqb_spec a (Qceiling x))
    end; cbn [andb]; try lia; repeat split; try lia; try assumption; lra.
Qed.

(** A coordinate that lands exactly on grid point [k > 0] gets the
    neighbours [k - 1] and [k]; on grid point [0], the neighbours [0], [1]. *)
Lemma neighbours_on_grid (atoms k : Z) (x : Q) :
  (2 <= atoms)%Z -> (0 <= k <= atoms - 1)%Z -> x == inject_Z k ->
  lo x = (if (0 <? k)%Z then k - 1 else 0)%Z
  /\ hi atoms x = (if (0 <? k)%Z then k else 1)%Z.
Proof.
  intros HA Hk Hx. unfold hi, lo, fix_u, fix_l.
  rewrite !(Qfloor_comp _ _ Hx), !(Qceiling_comp _ _ Hx), Qfloor_Z, Qceiling_Z.
  rewrite Z.eqb_refl. destruct (Z.ltb_spec 0 k); cbn [andb].
  - replace (k - 1 =? k)%Z with false by (symmetry; apply Z.eqb_neq; lia).
    now rewrite andb_false_r.
  - assert (k = 0%Z) by lia; subst k. rewrite Z.eqb_refl.
    replace (0 <? atoms - 1)%Z with true by (symmetry; apply Z.ltb_lt; lia).
    now split.
Qed.

End NeighbourFacts.

(** ** The projection, row by row *)

Module RowProjection.
Import Torch Projection Neighbours Rows.

(** Row [k] of [b]: the grid coordinates of the shifted, clamped support. *)
Definition b_row (ag : Agent) (r nt : Q) : list Q :=
  map (fun z => (clamp (V_min ag) (V_max ag) (r + nt * (discount ag ^ n ag) * z)
                 - V_min ag) / delta_z ag)
      (support ag).

Definition source_l (ag : Agent) (r nt : Q) (p : list Q) : list Q :=
  let bb := b_row ag r nt in
  zip_with Qmult p (zip_with Qminus (map inject_Z (map (hi (atoms ag)) bb)) bb).

Definition source_u (ag : Agent) (r nt : Q) (p : list Q) : list Q :=
  let bb := b_row ag r nt in
  zip_with Qmult p (zip_with Qminus bb (map inject_Z (map lo bb))).

(** Row [k] of the projected target. *)
Definition project_row (ag : Agent) (r nt : Q) (p : list Q) : list Q :=
  let bb := b_row ag r nt in
  row_add (row_add (replicate (Z.to_nat (atoms ag)) 0)
                   (map lo bb) (source_l ag r nt p))
          (map (hi (atoms ag)) bb) (source_u ag r nt p).

Definition project_rows (ag : Agent) (returns nonterminals : list Q)
    (pns_a : list (list Q)) : list (list Q) :=
  zip_with (fun rn p => project_row ag rn.1 rn.2 p) (zip returns nonterminals) pns_a.

(** The shapes [learn] works with: every batch tensor has [batch_size]
    rows and [pns_a] has [atoms] columns. *)
Definition batch_shape (ag : Agent) (returns nonterminals : list Q)
    (pns_a : list (list Q)) : Prop :=
  length returns = batch_size ag /\ length nonterminals = batch_size ag
  /\ length pns_a = batch_size ag
  /\ Forall (fun p => length p = Z.to_nat (atoms ag)) pns_a.

End RowProjection.

Section ProjectionFacts.
Import Torch Projection Neighbours Rows RowProjection.

Lemma clamp_range lo hi x : lo <= hi -> lo <= clamp lo hi x /\ clamp lo hi x <= hi.
Proof.
  intros H. unfold clamp. split.
  - apply Q.min_glb; [apply Q.le_max_r | assumption].
  - apply Q.le_min_r.
Qed.

Lemma clamp_above lo hi x : lo <= hi -> hi <= x -> clamp lo hi x == hi.
Proof.
  intros H Hx. unfold clamp. apply Q.min_r.
  pose proof (Q.le_max_l x lo). lra.
Qed.

Lemma length_linspace a c k : length (linspace a c k) = k.
Proof.
  destruct k as [|[|k]]; [reflexivity..|].
  unfold linspace. now rewrite length_map, length_seq.
Qed.

Lemma grid_delta_pos ag : grid_ok ag -> 0 < delta_z ag.
Proof.
  intros (HA & HV & _ & ->).
  apply Qlt_shift_div_l.
  - change 0 with (inject_Z 0). rewrite <- Zlt_Qlt. lia.
  - lra.
Qed.

Lemma grid_span ag :
  grid_ok ag -> inject_Z (atoms ag - 1) * delta_z ag == V_max ag - V_min ag.
Proof.
  intros (HA & HV & _ & ->). field.
  intros H. assert (0 < inject_Z (atoms ag - 1)); [|lra].
  change 0 with (inject_Z 0). rewrite <- Zlt_Qlt. lia.
Qed.

Lemma length_support ag : grid_ok ag -> length (support ag) = Z.to_nat (atoms ag).
Proof. intros (_ & _ & -> & _). apply length_linspace. Qed.

Lemma b_row_range ag r nt :
  grid_ok ag ->
  Forall (fun x => 0 <= x /\ x <= inject_Z (atoms ag - 1)) (b_row ag r nt).
Proof.
  intros Hg. unfold b_row. apply Forall_fmap, Forall_forall. intros z _. simpl.
  pose proof (grid_delta_pos ag Hg) as Hd. pose proof (grid_span ag Hg) as Hs.
  destruct Hg as (_ & HV & _).
  destruct (clamp_range (V_min ag) (V_max ag)
              (r + nt * (discount ag ^ n ag) * z)) as [H1 H2]; [lra|].
  split.
  - apply Qle_shift_div_l; [assumption | lra].
  - apply Qle_shift_div_r; [assumption | lra].
Qed.

Lemma length_b_row ag r nt : grid_ok ag -> length (b_row ag r nt) = Z.to_nat (atoms ag).
Proof. intros Hg. unfold b_row. rewrite length_map. now apply length_support. Qed.

Lemma in_row_lo ag r nt :
  grid_ok ag -> Forall (in_row (Z.to_nat (atoms ag))) (map lo (b_row ag r nt)).
Proof.
  intros Hg. apply Forall_fmap. eapply Forall_impl; [apply b_row_range, Hg|].
  intros x [H0 H1]. simpl. destruct Hg as (HA & _).
  destruct (neighbours_adjacent (atoms ag) x HA H0 H1) as (? & ? & ? & _).
  unfold in_row. lia.
Qed.

Lemma in_row_hi ag r nt :
  grid_ok ag ->
  Forall (in_row (Z.to_nat (atoms ag))) (map (hi (atoms ag)) (b_row ag r nt)).
Proof.
  intros Hg. apply Forall_fmap. eapply Forall_impl; [apply b_row_range, Hg|].
  intros x [H0 H1]. simpl. destruct Hg as (HA & _).
  destruct (neighbours_adjacent (atoms ag) x HA H0 H1) as (? & ? & ? & _).
  unfold in_row. lia.
Qed.

End ProjectionFacts.

Section MatrixFacts.
Import Torch Projection Neighbours Rows RowProjection.

Lemma map_fmap {A B} (f : A -> B) (v : list A) : map f v = f <$> v.
Proof. reflexivity. Qed.

Lemma Forall_zip_with_intro {A B C} (f : A -> B -> C) (P : C -> Prop) v w :
  (forall x y, P (f x y)) -> Forall P (zip_with f v w).
Proof.
  intros H. revert w; induction v as [|x v IH]; intros [|y w]; simpl;
    constructor; auto.
Qed.

Lemma Forall_zip_with_both {A B C} (f : A -> B -> C)
    (P : A -> Prop) (R : B -> Prop) (S : C -> Prop) v w :
  (forall x y, P x -> R y -> S (f x y)) ->
  Forall P v -> Forall R w -> Forall S (zip_with f v w).
Proof.
  intros H Hv. revert w; induction Hv as [|x v Hx Hv IH]; intros w Hw;
    destruct Hw as [|y w Hy Hw]; simpl; constructor; auto.
Qed.

Lemma Forall2_of_Forall {A B} (P : A -> Prop) (R : B -> Prop) v w :
  length v = length w -> Forall P v -> Forall R w ->
  Forall2 (fun x y => P x /\ R y) v w.
Proof.
  intros Hlen Hv. revert w Hlen; induction Hv as [|x v Hx Hv IH]; intros [|y w] Hlen Hw;
    try discriminate; constructor; inversion Hw; subst; auto.
Qed.

Lemma zip_with2_map {A B C D} (f : B -> C -> D) (g : A -> B) (h : A -> C)
    (M : list (list A)) :
  zip_with (zip_with f) (map (map g) M) (map (map h) M)
  = map (map (fun x => f (g x) (h x))) M.
Proof.
  rewrite !map_fmap, zip_with_fmap_l, zip_with_fmap_r, zip_with_diag.
  apply list_fmap_ext. intros _ row _.
  now rewrite !map_fmap, zip_with_fmap_l, zip_with_fmap_r, zip_with_diag.
Qed.

Lemma b_rows ag rets nts :
  b ag rets nts = zip_with (b_row ag) rets nts.
Proof.
  unfold b, Tz, bellman. revert nts; induction rets as [|r rets IH]; intros [|nt nts];
    try reflexivity.
  cbn [zip_with map]. rewrite IH. f_equal.
  unfold b_row. now rewrite !map_map.
Qed.

Lemma l_rows ag rets nts : l ag rets nts = map (map lo) (b ag rets nts).
Proof. unfold l. cbv zeta. apply zip_with2_map. Qed.

Lemma u_rows ag rets nts :
  u ag rets nts = map (map (hi (atoms ag))) (b ag rets nts).
Proof.
  unfold u. cbv zeta. rewrite l_rows.
  rewrite (zip_with2_map (fix_u (atoms ag)) lo Qceiling). reflexivity.
Qed.

Lemma to_int64_inject x z : x == inject_Z z -> to_int64 x = z.
Proof.
  unfold Qeq, to_int64. simpl. intros H. rewrite Z.mul_1_r in H. rewrite H.
  now apply Z.quot_mul.
Qed.

Lemma offset_rows ag :
  offset ag = map (fun k : nat => replicate (Z.to_nat (atoms ag))
                                            (Z.of_nat k * atoms ag)%Z)
                  (seq 0 (batch_size ag)).
Proof.
  unfold offset. destruct (batch_size ag) as [|[|B]]; [reflexivity..|].
  unfold linspace. rewrite map_map. apply map_ext_in. intros k _. f_equal.
  apply to_int64_inject.
  set (d := (Z.of_nat (S (S B)) - 1)%Z).
  assert (0 < inject_Z d).
  { change 0 with (inject_Z 0). rewrite <- Zlt_Qlt. lia. }
  rewrite !inject_Z_mult. field. lra.
Qed.

Lemma add_offset_rows (N : nat) (A : Z) (M : list (list Z)) : forall (j B : nat),
  Forall (fun r => length r = N) M ->
  add2 M (map (fun k : nat => replicate N (Z.of_nat k * A)%Z) (seq j B))
  = take B (shift_rows (Z.of_nat j * A) A M).
Proof.
  unfold add2. induction M as [|r M IH]; intros j [|B] HM; try reflexivity.
  inversion HM as [|? ? Hr HM']; subst.
  cbn [seq map zip_with shift_rows take]. f_equal.
  - rewrite zip_with_replicate_r_eq by reflexivity.
    rewrite <- map_fmap. reflexivity.
  - rewrite IH by assumption. f_equal. f_equal. lia.
Qed.

Lemma length_shift_rows o N M : length (shift_rows o N M) = length M.
Proof. revert o; induction M as [|r M IH]; intros o; simpl; [|rewrite IH]; reflexivity. Qed.

End MatrixFacts.

Section Refinement.
Import Torch Projection Neighbours Rows RowProjection.

Lemma index_add_whole (N : nat) rows idxs srcs :
  Forall (fun r => length r = N) rows ->
  length idxs = length rows -> length srcs = length rows ->
  Forall (fun r => length r = N) idxs -> Forall (fun r => length r = N) srcs ->
  Forall (Forall (in_row N)) idxs ->
  index_add_ (concat rows) (concat (shift_rows 0 (Z.of_nat N) idxs)) (concat srcs)
  = inr (concat (rows_add rows idxs srcs)).
Proof.
  intros Hrows Hli Hls Hi Hs Hin.
  apply (index_add_rows rows idxs srcs [] N); try assumption.
  eapply Forall2_impl;
    [apply (Forall2_of_Forall (fun r : list Z => length r = N)
              (fun r : list Q => length r = N) idxs srcs);
       [congruence | exact Hi | exact Hs]|].
  simpl. intros x y [-> ->]. reflexivity.
Qed.

(** The flat accumulation of [distribute] computes the projection row by
    row: no index leaves its row, so no [index_add_] raises. *)
Lemma distribute_rows ag rets nts pns :
  grid_ok ag -> batch_shape ag rets nts pns ->
  distribute ag rets nts pns = inr (project_rows ag rets nts pns).
Proof.
  intros Hg (Hr & Hn & Hp & Hpn).
  assert (HA : Z.of_nat (Z.to_nat (atoms ag)) = atoms ag)
    by (destruct Hg as (HA & _); lia).
  unfold distribute. cbv zeta.
  rewrite l_rows, u_rows, offset_rows, b_rows.
  set (N := Z.to_nat (atoms ag)) in *.
  set (bm := zip_with (b_row ag) rets nts).
  assert (Hbl : length bm = batch_size ag).
  { unfold bm. rewrite length_zip_with. lia. }
  assert (Hbm : Forall (fun row => exists r nt, row = b_row ag r nt) bm).
  { apply Forall_zip_with_intro. intros r nt. now exists r, nt. }
  assert (Hbn : Forall (fun row => length row = N) bm).
  { eapply Forall_impl; [exact Hbm|]. intros row (r & nt & ->).
    now apply length_b_row. }
  assert (Hll : Forall (fun row => length row = N) (map (map lo) bm)).
  { apply Forall_fmap. eapply Forall_impl; [exact Hbn|].
    intros row H. simpl. now rewrite length_map. }
  assert (Huu : Forall (fun row => length row = N) (map (map (hi (atoms ag))) bm)).
  { apply Forall_fmap. eapply Forall_impl; [exact Hbn|].
    intros row H. simpl. now rewrite length_map. }
  assert (Hlin : Forall (Forall (in_row N)) (map (map lo) bm)).
  { apply Forall_fmap. eapply Forall_impl; [exact Hbm|].
    intros row (r & nt & ->). now apply in_row_lo. }
  assert (Huin : Forall (Forall (in_row N)) (map (map (hi (atoms ag))) bm)).
  { apply Forall_fmap. eapply Forall_impl; [exact Hbm|].
    intros row (r & nt & ->). now apply in_row_hi. }
  assert (Hfl : forall M : list (list Z), Forall (fun row => length row = N) M ->
                Forall (fun row => length row = N) (float2 M)).
  { intros M HM. apply Forall_fmap. eapply Forall_impl; [exact HM|].
    intros row H. simpl. now rewrite length_map. }
  assert (Hsub : forall X Y : list (list Q),
             Forall (fun row => length row = N) X ->
             Forall (fun row => length row = N) Y ->
             Forall (fun row => length row = N) (sub2 X Y)).
  { intros X Y HX HY. eapply Forall_zip_with_both; [|exact HX|exact HY].
    simpl. intros x y Hx Hy. rewrite length_zip_with. lia. }
  assert (Hmul : forall X Y : list (list Q),
             Forall (fun row => length row = N) X ->
             Forall (fun row => length row = N) Y ->
             Forall (fun row => length row = N) (mul2 X Y)).
  { intros X Y HX HY. eapply Forall_zip_with_both; [|exact HX|exact HY].
    simpl. intros x y Hx Hy. rewrite length_zip_with. lia. }
  rewrite !(add_offset_rows N (atoms ag) _ 0 (batch_size ag)) by assumption.
  rewrite !take_ge by (rewrite length_shift_rows, length_map; lia).
  change (Z.of_nat 0 * atoms ag)%Z with 0%Z.
  replace (shift_rows 0 (atoms ag)) with (shift_rows 0 (Z.of_nat N))
    by (now rewrite HA).
  rewrite replicate_rows.
  rewrite (index_add_whole N); try assumption.
  2:{ apply Forall_replicate. apply length_replicate. }
  2:{ rewrite length_map, length_replicate. lia. }
  2:{ unfold mul2, sub2, float2. rewrite !length_zip_with, !length_map, length_replicate. lia. }
  2:{ apply Hmul; [assumption|]. apply Hsub; [|assumption]. now apply Hfl. }
  cbn [bind].
  rewrite (index_add_whole N); try assumption.
  2:{ apply Forall_length_rows_add, Forall_replicate, length_replicate. }
  2:{ rewrite length_rows_add, length_map, length_replicate. lia. }
  2:{ unfold mul2, sub2, float2.
      rewrite length_rows_add, !length_zip_with, !length_map, length_replicate. lia. }
  2:{ apply Hmul; [assumption|]. apply Hsub; [assumption|]. now apply Hfl. }
  cbn [bind]. unfold ret. f_equal. unfold view.
  set (rows2 := rows_add _ _ _).
  assert (Hr2 : length rows2 = batch_size ag).
  { unfold rows2. now rewrite !length_rows_add, length_replicate. }
  rewrite <- Hr2. change (concat rows2) with ([] ++ concat rows2).
  rewrite (view_concat rows2 [] 0 N);
    [| apply Forall_length_rows_add, Forall_length_rows_add, Forall_replicate,
         length_replicate | reflexivity].
  apply (list_eq_same_length _ _ (batch_size ag)); [|assumption|].
  { unfold project_rows. rewrite length_zip_with, length_zip. lia. }
  intros k x y Hk Hx Hy.
  unfold project_rows in Hy. rewrite lookup_zip_with in Hy.
  destruct (zip rets nts !! k) as [[r nt]|] eqn:Hz; [|discriminate].
  destruct (pns !! k) as [p|] eqn:Hpk; [|discriminate].
  simpl in Hy. injection Hy as <-.
  apply lookup_zip_Some in Hz as [Hrk Hnk].
  assert (Hbk : bm !! k = Some (b_row ag r nt)).
  { unfold bm. rewrite lookup_zip_with, Hrk, Hnk. reflexivity. }
  unfold rows2 in Hx.
  erewrite lookup_rows_add in Hx.
  - injection Hx as <-. reflexivity.
  - erewrite lookup_rows_add; [reflexivity| | |].
    + now apply lookup_replicate_2.
    + rewrite map_fmap, list_lookup_fmap, Hbk. reflexivity.
    + unfold mul2, sub2, float2.
      rewrite lookup_zip_with, Hpk. simpl.
      rewrite lookup_zip_with, !map_fmap, !list_lookup_fmap, Hbk. reflexivity.
  - rewrite map_fmap, list_lookup_fmap, Hbk. reflexivity.
  - unfold mul2, sub2, float2.
    rewrite lookup_zip_with, Hpk. simpl.
    rewrite lookup_zip_with, !map_fmap, !list_lookup_fmap, Hbk. reflexivity.
Qed.

End Refinement.

(** ** Mass and sign of one projected row *)

Section RowFacts.
Import Torch Projection Neighbours Rows RowProjection.

(** The two weights of a source atom add up to one. *)
Lemma sources_split (A : Z) (p bb : list Q) :
  (2 <= A)%Z -> length p = length bb ->
  Forall (fun x => 0 <= x /\ x <= inject_Z (A - 1)) bb ->
  Qsum (zip_with Qmult p (zip_with Qminus (map inject_Z (map (hi A) bb)) bb))
  + Qsum (zip_with Qmult p (zip_with Qminus bb (map inject_Z (map lo bb))))
  == Qsum p.
Proof.
  intros HA. revert bb; induction p as [|q p IH]; intros [|x bb] Hlen Hbb;
    try discriminate Hlen.
  - cbn [zip_with map]. rewrite Qsum_nil. ring.
  - inversion Hbb as [|? ? [H0 H1] Hbb']; subst.
    cbn [zip_with map]. rewrite !Qsum_cons.
    assert (E := IH bb ltac:(simpl in Hlen; lia) Hbb'). rewrite <- E.
    destruct (neighbours_adjacent A x HA H0 H1) as (_ & _ & -> & _).
    rewrite inject_Z_plus. change (inject_Z 1) with 1. ring.
Qed.

Lemma sources_nonneg (A : Z) (p bb : list Q) :
  (2 <= A)%Z -> Forall (Qle 0) p ->
  Forall (fun x => 0 <= x /\ x <= inject_Z (A - 1)) bb ->
  Forall (Qle 0) (zip_with Qmult p (zip_with Qminus (map inject_Z (map (hi A) bb)) bb))
  /\ Forall (Qle 0) (zip_with Qmult p (zip_with Qminus bb (map inject_Z (map lo bb)))).
Proof.
  intros HA Hp. revert bb; induction Hp as [|q p Hq Hp IH]; intros bb Hbb;
    destruct Hbb as [|x bb [H0 H1] Hbb]; cbn [zip_with map]; try (split; constructor).
  - destruct (neighbours_adjacent A x HA H0 H1) as (_ & _ & _ & _ & Hu).
    apply Qmult_le_0_compat; [assumption | lra].
  - now apply IH.
  - destruct (neighbours_adjacent A x HA H0 H1) as (_ & _ & _ & Hl & _).
    apply Qmult_le_0_compat; [assumption | lra].
  - now apply IH.
Qed.

Lemma length_sources ag r nt p :
  grid_ok ag -> length p = Z.to_nat (atoms ag) ->
  length (source_l ag r nt p) = Z.to_nat (atoms ag)
  /\ length (source_u ag r nt p) = Z.to_nat (atoms ag).
Proof.
  intros Hg Hp. unfold source_l, source_u. cbv zeta.
  rewrite !length_zip_with, !length_map, length_b_row by assumption. lia.
Qed.

Lemma Qsum_project_row ag r nt p :
  grid_ok ag -> length p = Z.to_nat (atoms ag) ->
  Qsum (project_row ag r nt p) == Qsum p.
Proof.
  intros Hg Hp. destruct (length_sources ag r nt p Hg Hp) as [Hsl Hsu].
  unfold project_row. cbv zeta.
  rewrite Qsum_row_add.
  2:{ now rewrite length_map, length_b_row. }
  2:{ rewrite length_row_add, length_replicate. now apply in_row_hi. }
  rewrite Qsum_row_add.
  2:{ now rewrite length_map, length_b_row. }
  2:{ rewrite length_replicate. now apply in_row_lo. }
  rewrite Qsum_replicate_0. unfold source_l, source_u. cbv zeta.
  assert (E := sources_split (atoms ag) p (b_row ag r nt)
                 ltac:(now destruct Hg) ltac:(now rewrite length_b_row)
                 (b_row_range ag r nt Hg)).
  rewrite <- E. ring.
Qed.

Lemma project_row_nonneg ag r nt p :
  grid_ok ag -> Forall (Qle 0) p -> Forall (Qle 0) (project_row ag r nt p).
Proof.
  intros Hg Hp.
  destruct (sources_nonneg (atoms ag) p (b_row ag r nt)) as [Hl Hu];
    [now destruct Hg | assumption | now apply b_row_range |].
  unfold project_row. cbv zeta.
  apply row_add_nonneg; [|exact Hu].
  apply row_add_nonneg; [|exact Hl].
  apply Forall_replicate. lra.
Qed.

Lemma lookup_project_rows ag rets nts pns k r nt p :
  rets !! k = Some r -> nts !! k = Some nt -> pns !! k = Some p ->
  project_rows ag rets nts pns !! k = Some (project_row ag r nt p).
Proof.
  intros Hr Hn Hp. unfold project_rows.
  rewrite lookup_zip_with, lookup_zip_with, Hr, Hn, Hp. reflexivity.
Qed.

Lemma project_rows_inv ag rets nts pns k row :
  project_rows ag rets nts pns !! k = Some row ->
  exists r nt p, rets !! k = Some r /\ nts !! k = Some nt /\ pns !! k = Some p
                 /\ row = project_row ag r nt p.
Proof.
  unfold project_rows. rewrite lookup_zip_with. intros H.
  destruct (zip rets nts !! k) as [[r nt]|] eqn:Hz; [|discriminate].
  destruct (pns !! k) as [p|] eqn:Hp; [|discriminate].
  apply lookup_zip_Some in Hz as [Hr Hn]. injection H as <-.
  now exists r, nt, p.
Qed.

End RowFacts.

(** ** Rows whose coordinates land on one grid point *)

Section SaturatedRows.
Import Torch Projection Neighbours Rows RowProjection.

Lemma Qsum_zero v : Forall (fun x => x == 0) v -> Qsum v == 0.
Proof.
  induction 1 as [|x v Hx _ IH]; [reflexivity|].
  rewrite Qsum_cons, Hx, IH. ring.
Qed.

Lemma contrib_const (j c : Z) idx src :
  Forall (fun i => i = c) idx -> length idx = length src ->
  contrib j idx src == if (c =? j)%Z then Qsum src else 0.
Proof.
  intros Hidx. revert src; induction Hidx as [|i idx -> _ IH]; intros [|s src] Hlen;
    try discriminate Hlen; cbn [contrib].
  - destruct (c =? j)%Z; reflexivity.
  - rewrite IH by (simpl in Hlen; lia).
    destruct (c =? j)%Z; [rewrite Qsum_cons|]; ring.
Qed.

Lemma bellman_lookup ag rets nts k r nt :
  rets !! k = Some r -> nts !! k = Some nt ->
  bellman ag rets nts !! k
  = Some (map (fun z => r + nt * (discount ag ^ n ag) * z) (support ag)).
Proof.
  intros Hr Hn. unfold bellman. rewrite lookup_zip_with, Hr, Hn. reflexivity.
Qed.

Lemma b_row_saturated ag r nt :
  grid_ok ag ->
  Forall (fun z => V_max ag < r + nt * (discount ag ^ n ag) * z) (support ag) ->
  Forall (fun x => x == inject_Z (atoms ag - 1)) (b_row ag r nt).
Proof.
  intros Hg Hsat. unfold b_row. apply Forall_fmap.
  eapply Forall_impl; [exact Hsat|]. intros z Hz. unfold compose. cbv beta in Hz |- *.
  pose proof (grid_delta_pos ag Hg) as Hd. pose proof (grid_span ag Hg) as Hs.
  destruct Hg as (_ & HV & _).
  set (t := r + nt * (discount ag ^ n ag) * z) in *. clearbody t.
  assert (E : clamp (V_min ag) (V_max ag) t == V_max ag)
    by (apply clamp_above; lra).
  rewrite E, <- Hs. field. lra.
Qed.

Lemma landing_neighbours (A a : Z) bb :
  (2 <= A)%Z -> (0 <= a <= A - 1)%Z ->
  Forall (fun x => x == inject_Z a) bb ->
  Forall (fun i => i = if (0 <? a)%Z then (a - 1)%Z else 0%Z) (map lo bb)
  /\ Forall (fun i => i = if (0 <? a)%Z then a else 1%Z) (map (hi A) bb).
Proof.
  intros HA Ha Hbb. split; apply Forall_fmap; (eapply Forall_impl; [exact Hbb|]);
    intros x Hx; unfold compose; cbv beta;
    destruct (neighbours_on_grid A a x HA Ha Hx) as [Hl Hh]; assumption.
Qed.

(** The weights of a value that lands on grid point [a]: all of its mass
    goes to the neighbour that is [a] itself. *)
Lemma landing_sources (A a : Z) p bb :
  (2 <= A)%Z -> (0 <= a <= A - 1)%Z -> length p = length bb ->
  Forall (fun x => x == inject_Z a) bb ->
  let sl := zip_with Qmult p (zip_with Qminus (map inject_Z (map (hi A) bb)) bb) in
  let su := zip_with Qmult p (zip_with Qminus bb (map inject_Z (map lo bb))) in
  if (0 <? a)%Z
  then Forall (fun s => s == 0) sl /\ Forall2 Qeq su p
  else Forall2 Qeq sl p /\ Forall (fun s => s == 0) su.
Proof.
  intros HA Ha. cbv zeta.
  revert bb; induction p as [|q p IH]; intros [|x bb] Hlen Hbb;
    try discriminate Hlen; cbn [zip_with map].
  { destruct (0 <? a)%Z; split; constructor. }
  inversion Hbb as [|? ? Hx Hbb']; subst.
  specialize (IH bb ltac:(simpl in Hlen; lia) Hbb').
  destruct (neighbours_on_grid A a x HA Ha Hx) as [Hl Hh]. rewrite Hl, Hh.
  destruct (Z.ltb_spec 0 a) as [Hpos|Hzero]; destruct IH as [IH1 IH2];
    split; constructor; try assumption; rewrite Hx.
  - ring.
  - replace (a - 1)%Z with (a + -1)%Z by lia.
    rewrite inject_Z_plus. change (inject_Z (-1)) with (-1 # 1). ring.
  - assert (a = 0%Z) by lia; subst a.
    change (inject_Z 1) with 1. change (inject_Z 0) with 0. ring.
  - assert (a = 0%Z) by lia; subst a. change (inject_Z 0) with 0. ring.
Qed.

(** A row whose coordinates all land on grid point [a] carries its whole
    mass on atom [a]. *)
Lemma project_row_landing ag r nt p (a : Z) (j : nat) x :
  grid_ok ag -> length p = Z.to_nat (atoms ag) ->
  (0 <= a <= atoms ag - 1)%Z ->
  Forall (fun y => y == inject_Z a) (b_row ag r nt) ->
  project_row ag r nt p !! j = Some x ->
  if decide (j = Z.to_nat a) then x == Qsum p else x == 0.
Proof.
  intros Hg Hp Ha Hland Hj.
  assert (HA : (2 <= atoms ag)%Z) by now destruct Hg.
  assert (Hlb : length p = length (b_row ag r nt)) by now rewrite length_b_row.
  destruct (landing_neighbours (atoms ag) a _ HA Ha Hland) as [Hlo Hhi].
  pose proof (landing_sources (atoms ag) a p _ HA Ha Hlb Hland) as Hsrc.
  cbv zeta in Hsrc.
  fold (source_l ag r nt p) in Hsrc. fold (source_u ag r nt p) in Hsrc.
  destruct (length_sources ag r nt p Hg Hp) as [Hll Hlu].
  assert (Hjn : (j < Z.to_nat (atoms ag))%nat).
  { apply lookup_lt_Some in Hj. unfold project_row in Hj.
    now rewrite !length_row_add, length_replicate in Hj. }
  unfold project_row in Hj. cbv zeta in Hj.
  destruct (lookup_row_add (replicate (Z.to_nat (atoms ag)) 0)
              (map lo (b_row ag r nt)) (source_l ag r nt p) j 0) as (x1 & Hx1 & E1).
  { eapply Forall_impl; [apply in_row_lo, Hg|]. intros i [? _]. assumption. }
  { now apply lookup_replicate_2. }
  destruct (lookup_row_add
              (row_add (replicate (Z.to_nat (atoms ag)) 0)
                       (map lo (b_row ag r nt)) (source_l ag r nt p))
              (map (hi (atoms ag)) (b_row ag r nt))
              (source_u ag r nt p) j x1) as (x2 & Hx2 & E2); [|exact Hx1|].
  { eapply Forall_impl; [apply in_row_hi, Hg|]. intros i [? _]. assumption. }
  rewrite Hx2 in Hj. injection Hj as <-.
  assert (C1 := contrib_const (Z.of_nat j) _ _ (source_l ag r nt p) Hlo
                  ltac:(now rewrite length_map, length_b_row, Hll)).
  assert (C2 := contrib_const (Z.of_nat j) _ _ (source_u ag r nt p) Hhi
                  ltac:(now rewrite length_map, length_b_row, Hlu)).
  destruct (Z.ltb_spec 0 a) as [Hpos|Hzero]; destruct Hsrc as [S1 S2].
  - destruct (decide (j = Z.to_nat a)) as [->|Hne].
    + replace (a - 1 =? Z.of_nat (Z.to_nat a))%Z with false in C1
        by (symmetry; apply Z.eqb_neq; lia).
      replace (a =? Z.of_nat (Z.to_nat a))%Z with true in C2
        by (symmetry; apply Z.eqb_eq; lia).
      rewrite E2, E1, C1, C2, (Qsum_Forall2 _ _ S2). ring.
    + replace (a =? Z.of_nat j)%Z with false in C2
        by (symmetry; apply Z.eqb_neq; lia).
      rewrite E2, E1, C1, C2.
      destruct (a - 1 =? Z.of_nat j)%Z; [rewrite (Qsum_zero _ S1)|]; ring.
  - assert (a = 0%Z) by lia; subst a.
    destruct (decide (j = Z.to_nat 0)) as [->|Hne].
    + change (0 =? Z.of_nat (Z.to_nat 0))%Z with true in C1.
      change (1 =? Z.of_nat (Z.to_nat 0))%Z with false in C2.
      rewrite E2, E1, C1, C2, (Qsum_Forall2 _ _ S1). ring.
    + replace (0 =? Z.of_nat j)%Z with false in C1
        by (symmetry; apply Z.eqb_neq; change (Z.to_nat 0) with 0%nat in Hne; lia).
      rewrite E2, E1, C1, C2.
      destruct (1 =? Z.of_nat j)%Z; [rewrite (Qsum_zero _ S2)|]; ring.
Qed.

End SaturatedRows.

(** ** The steps of [learn] around the projection *)

(** [a] is the first position of a maximal element of [v]. *)
Definition is_argmax (v : list Q) (a : nat) : Prop :=
  exists x, v !! a = Some x
    /\ (forall (j : nat) y, v !! j = Some y -> y <= x)
    /\ (forall (j : nat) y, (j < a)%nat -> v !! j = Some y -> y < x).

(** The shapes the collaborators promise: the estimator maps a state to
    [action_space] distributions over [atoms] points, and [mem.sample]
    returns [batch_size] transitions with actions that index the action
    dimension. *)
Definition estimator_shape (E : Estimator) (ag : Agent) : Prop :=
  forall net s,
    length (forward E net s) = action_space ag
    /\ Forall (fun d => length d = Z.to_nat (atoms ag)) (forward E net s)
    /\ length (forward_log E net s) = action_space ag.

Definition sample_shape (ag : Agent) (batch : Batch) : Prop :=
  length (states batch) = batch_size ag
  /\ length (actions batch) = batch_size ag
  /\ length (next_states batch) = batch_size ag
  /\ length (returns batch) = batch_size ag
  /\ length (nonterminals batch) = batch_size ag
  /\ length (weights batch) = batch_size ag
  /\ Forall (fun a => (- Z.of_nat (action_space ag) <= a
                       < Z.of_nat (action_space ag))%Z) (actions batch).

(** The same batch with other importance weights. *)
Definition with_weights (w : list Q) (batch : Batch) : Batch :=
  mkBatch (idxs batch) (states batch) (actions batch) (returns batch)
          (next_states batch) (nonterminals batch) w.

(** Whether a call on the replay memory is [update_priorities]. *)
Definition is_update_priorities (c : MemCall) : bool :=
  match c with UpdatePriorities _ _ => true | Sample _ => false end.

Section LearnFacts.
Import Torch Learn Projection.

Lemma argmax_from_spec v : forall pre best ibest,
  pre !! ibest = Some best ->
  (forall (j : nat) y, pre !! j = Some y -> y <= best) ->
  (forall (j : nat) y, (j < ibest)%nat -> pre !! j = Some y -> y < best) ->
  is_argmax (pre ++ v) (argmax_from best ibest (length pre) v).
Proof.
  induction v as [|x v IH]; intros pre best ibest Hb Hle Hlt.
  - rewrite app_nil_r. exists best. auto.
  - cbn [argmax_from]. replace (pre ++ x :: v) with ((pre ++ [x]) ++ v)
      by (now rewrite <- app_assoc).
    replace (S (length pre)) with (length (pre ++ [x]))
      by (rewrite length_app; simpl; lia).
    destruct (Qlt_le_dec best x) as [Hx|Hx]; apply IH.
    + rewrite lookup_app_r by lia. now rewrite Nat.sub_diag.
    + intros j y Hj. apply lookup_app_Some in Hj as [Hj|[_ Hj]].
      * apply Qlt_le_weak. eapply Qle_lt_trans; [exact (Hle j y Hj)|exact Hx].
      * apply list_lookup_singleton_Some in Hj as [_ <-]. apply Qle_refl.
    + intros j y Hlen Hj. apply lookup_app_Some in Hj as [Hj|[Hge _]]; [|lia].
      eapply Qle_lt_trans; [exact (Hle j y Hj)|exact Hx].
    + apply lookup_app_Some. now left.
    + intros j y Hj. apply lookup_app_Some in Hj as [Hj|[_ Hj]]; [eauto|].
      apply list_lookup_singleton_Some in Hj as [_ <-]. exact Hx.
    + intros j y Hlen Hj. apply lookup_app_Some in Hj as [Hj|[Hge _]]; [eauto|].
      apply lookup_lt_Some in Hb. lia.
Qed.

Lemma argmax_spec v a : argmax v = inr a -> is_argmax v a.
Proof.
  destruct v as [|x v]; [discriminate|]. intros [= <-].
  apply (argmax_from_spec v [x] x 0%nat).
  - reflexivity.
  - intros [|j] y Hj; [injection Hj as <-; apply Qle_refl|discriminate].
  - intros j y Hj; lia.
Qed.

Lemma index_of_nat {A} (row : list A) (a : nat) x :
  index row (Z.of_nat a) = inr x -> row !! a = Some x.
Proof.
  unfold index. cbv zeta.
  destruct (Z.ltb_spec (Z.of_nat a) 0) as [H|_]; [lia|].
  destruct (_ && _)%bool; [|discriminate].
  rewrite Nat2Z.id. destruct (row !! a); [|discriminate]. now intros [= <-].
Qed.

Lemma index_in_range {A} (row : list A) (c : Z) :
  (- Z.of_nat (length row) <= c < Z.of_nat (length row))%Z ->
  exists x, index row c = inr x.
Proof.
  intros Hc. unfold index. cbv zeta.
  set (j := if (c <? 0)%Z then (c + Z.of_nat (length row))%Z else c).
  assert (Hj : (0 <= j < Z.of_nat (length row))%Z).
  { subst j. destruct (Z.ltb_spec c 0); lia. }
  destruct (Z.leb_spec 0 j); [|lia]. destruct (Z.ltb_spec j (Z.of_nat (length row))); [|lia].
  cbn [andb]. destruct (lookup_lt_is_Some_2 row (Z.to_nat j) ltac:(lia)) as [x ->].
  now exists x.
Qed.

Lemma gather_spec {A} (t : list (list A)) rows : forall cols xs,
  gather t rows cols = inr xs ->
  length cols = length rows /\ length xs = length rows /\
  forall (i : nat) r, rows !! i = Some r ->
    exists row c x, t !! r = Some row /\ cols !! i = Some c
                    /\ index row c = inr x /\ xs !! i = Some x.
Proof.
  induction rows as [|r rows IH]; intros [|c cols] xs H; try discriminate.
  - injection H as <-. repeat split. intros i r Hi. discriminate.
  - cbn [gather] in H. destruct (t !! r) as [row|] eqn:Hr; [|discriminate].
    unfold bind in H. destruct (index row c) as [|x] eqn:Hx; [discriminate|].
    destruct (gather t rows cols) as [|xs'] eqn:Hg; [discriminate|].
    injection H as <-. destruct (IH cols xs' Hg) as (Hc & Hl & Hall).
    repeat split; [simpl; lia..|].
    intros [|i] r' Hi.
    + injection Hi as <-. now exists row, c, x.
    + exact (Hall i r' Hi).
Qed.

Lemma gather_total {A} (t : list (list A)) rows : forall cols,
  length cols = length rows ->
  (forall (i : nat) r c, rows !! i = Some r -> cols !! i = Some c ->
     exists row, t !! r = Some row
       /\ (- Z.of_nat (length row) <= c < Z.of_nat (length row))%Z) ->
  exists xs, gather t rows cols = inr xs.
Proof.
  induction rows as [|r rows IH]; intros [|c cols] Hl Hall; try discriminate.
  - now exists [].
  - destruct (Hall 0%nat r c eq_refl eq_refl) as (row & Hr & Hc).
    destruct (index_in_range row c Hc) as [x Hx].
    destruct (IH cols ltac:(simpl in Hl; lia)
                (fun i => Hall (S i))) as [xs Hxs].
    exists (x :: xs). cbn [gather]. rewrite Hr. unfold bind. now rewrite Hx, Hxs.
Qed.

Lemma argmax_rows_spec q : forall am,
  argmax_rows q = inr am ->
  length am = length q /\
  forall (i : nat) row, q !! i = Some row ->
    exists a, am !! i = Some a /\ argmax row = inr a.
Proof.
  induction q as [|row q IH]; intros am H.
  - injection H as <-. split; [reflexivity|]. intros i row Hi. discriminate.
  - cbn [argmax_rows] in H. unfold bind in H.
    destruct (argmax row) as [|a] eqn:Ha; [discriminate|].
    destruct (argmax_rows q) as [|rest] eqn:Hq; [discriminate|].
    injection H as <-. destruct (IH rest eq_refl) as [Hl Hall].
    split; [simpl; lia|]. intros [|i] row' Hi.
    + injection Hi as <-. now exists a.
    + exact (Hall i row' Hi).
Qed.

Lemma argmax_rows_total q :
  Forall (fun row => row <> []) q -> exists am, argmax_rows q = inr am.
Proof.
  induction 1 as [|row q Hrow _ [am IH]]; [now exists []|].
  destruct row as [|x row]; [congruence|].
  exists (argmax_from x 0%nat 1%nat row :: am). cbn [argmax_rows argmax]. unfold bind, ret.
  now rewrite IH.
Qed.

Lemma learn_inv E G ag rng batch out :
  learn E G ag rng batch = inr out ->
  exists lp am pa m,
    log_ps_a E ag (online_net ag) batch = inr lp
    /\ argmax_indices_ns E ag batch = inr am
    /\ pns_a E ag (net_reset_noise E (target_net ag) rng).1 batch am = inr pa
    /\ distribute ag (returns batch) (nonterminals batch) pa = inr m
    /\ out_locals out
       = mkLocals lp am (net_reset_noise E (target_net ag) rng).1 pa m (loss m lp)
           (objective E ag batch m)
           (clip_grad_norm_ G (backward G (objective E ag batch m) (online_net ag))
                            (norm_clip ag))
    /\ out_mem_calls out
       = [Sample (batch_size ag); UpdatePriorities (idxs batch) (loss m lp)]
    /\ target_net (out_agent out) = (net_reset_noise E (target_net ag) rng).1
    /\ out_rng out = (net_reset_noise E (target_net ag) rng).2.
Proof.
  unfold learn, bind. intros H.
  destruct (log_ps_a E ag (online_net ag) batch) as [|lp] eqn:Hlp; [discriminate|].
  destruct (argmax_indices_ns E ag batch) as [|am] eqn:Ham; [discriminate|].
  cbv zeta in H.
  destruct (pns_a E ag _ batch am) as [|pa] eqn:Hpa; [discriminate|].
  destruct (distribute ag _ _ pa) as [|m] eqn:Hm; [discriminate|].
  injection H as <-. exists lp, am, pa, m. repeat split; assumption || reflexivity.
Qed.

Lemma index_elem {A} (row : list A) c x :
  index row c = inr x -> exists j : nat, row !! j = Some x.
Proof.
  unfold index. cbv zeta. destruct (_ && _)%bool; [|discriminate].
  destruct (row !! _) as [y|] eqn:Hy; [|discriminate]. intros [= <-]. eauto.
Qed.

Lemma is_argmax_lt v a : is_argmax v a -> (a < length v)%nat.
Proof. intros (x & Hx & _). now apply lookup_lt_Some in Hx. Qed.

Lemma length_expected_values sup p : length (expected_values sup p) = length p.
Proof. unfold expected_values. apply length_map. Qed.

Lemma learn_returns E G ag rng batch :
  grid_ok ag -> (0 < action_space ag)%nat ->
  estimator_shape E ag -> sample_shape ag batch ->
  exists out, learn E G ag rng batch = inr out.
Proof.
  intros Hg Hact HE (Hst & Hac & Hns & Hre & Hnt & _ & Hrange).
  destruct (gather_total (map (forward_log E (online_net ag)) (states batch))
              (seq 0 (batch_size ag)) (actions batch)) as [lp Hlp].
  { now rewrite length_seq. }
  { intros i r c Hi Hc. apply lookup_seq in Hi as [-> Hi]. cbn [Nat.add].
    destruct (lookup_lt_is_Some_2 (states batch) i ltac:(lia)) as [s Hs].
    exists (forward_log E (online_net ag) s). split.
    - now rewrite map_fmap, list_lookup_fmap, Hs.
    - destruct (HE (online_net ag) s) as (_ & _ & ->).
      exact (proj1 (Forall_lookup _ _) Hrange i c Hc). }
  set (q := map (expected_values (support ag))
                (map (forward E (online_net ag)) (next_states batch))).
  destruct (argmax_rows_total q) as [am Ham].
  { subst q. rewrite !map_fmap. apply Forall_fmap, Forall_fmap, Forall_forall.
    intros s _. unfold compose. intros Hnil.
    apply (f_equal length) in Hnil. rewrite length_expected_values in Hnil.
    destruct (HE (online_net ag) s) as (Hl & _). simpl in Hnil. lia. }
  destruct (argmax_rows_spec q am Ham) as [Hlam Hamspec].
  assert (Hlq : length q = batch_size ag).
  { subst q. now rewrite !length_map. }
  set (target := (net_reset_noise E (target_net ag) rng).1).
  destruct (gather_total (map (forward E target) (next_states batch))
              (seq 0 (batch_size ag)) (map Z.of_nat am)) as [pa Hpa].
  { rewrite length_map, length_seq. lia. }
  { intros i r c Hi Hc. apply lookup_seq in Hi as [-> Hi]. cbn [Nat.add].
    destruct (lookup_lt_is_Some_2 (next_states batch) i ltac:(lia)) as [s Hs].
    exists (forward E target s). split.
    - now rewrite map_fmap, list_lookup_fmap, Hs.
    - rewrite map_fmap, list_lookup_fmap in Hc.
      destruct (am !! i) as [a|] eqn:Ha; [|discriminate]. injection Hc as <-.
      destruct (Hamspec i (expected_values (support ag) (forward E (online_net ag) s)))
        as (a' & Ha' & Harg).
      { subst q. now rewrite !map_fmap, !list_lookup_fmap, Hs. }
      assert (a' = a) by congruence; subst a'.
      apply argmax_spec, is_argmax_lt in Harg.
      rewrite length_expected_values in Harg.
      destruct (HE (online_net ag) s) as (Hl1 & _).
      destruct (HE target s) as (Hl2 & _). lia. }
  destruct (gather_spec _ _ _ _ Hpa) as (_ & Hlpa & Hpaspec).
  rewrite length_seq in Hlpa.
  assert (Hshape : RowProjection.batch_shape ag (returns batch) (nonterminals batch) pa).
  { repeat split; try assumption. apply Forall_lookup. intros i x Hx.
    destruct (Hpaspec i i) as (row & c & x' & Hrow & _ & Hidx & Hx').
    { apply lookup_seq. split; [reflexivity|]. apply lookup_lt_Some in Hx. lia. }
    assert (x' = x) by congruence; subst x'.
    rewrite map_fmap, list_lookup_fmap in Hrow.
    destruct (next_states batch !! i) as [s|]; [|discriminate]. injection Hrow as <-.
    destruct (index_elem _ _ _ Hidx) as [j Hj].
    destruct (HE target s) as (_ & Hcols & _).
    exact (proj1 (Forall_lookup _ _) Hcols j x Hj). }
  pose proof (distribute_rows ag _ _ _ Hg Hshape) as Hm.
  eexists. unfold learn, bind. unfold log_ps_a at 1.
  rewrite Hlp. unfold argmax_indices_ns. fold q. rewrite Ham. cbv zeta.
  unfold pns_a. fold target. rewrite Hpa, Hm. reflexivity.
Qed.

Lemma Qsum_products_nonpos mb : forall lb,
  Forall (Qle 0) mb -> Forall (fun x => x <= 0) lb ->
  Qsum (zip_with Qmult mb lb) <= 0.
Proof.
  induction mb as [|x mb IH]; intros [|y lb] Hm Hl; cbn [zip_with];
    rewrite ?Qsum_nil, ?Qsum_cons; try apply Qle_refl.
  inversion Hm as [|? ? Hx Hm']; inversion Hl as [|? ? Hy Hl']; subst.
  specialize (IH lb Hm' Hl'). nra.
Qed.

Lemma loss_nonneg m : forall lp,
  Forall (Forall (Qle 0)) m -> Forall (Forall (fun x => x <= 0)) lp ->
  Forall (Qle 0) (loss m lp).
Proof.
  unfold loss. induction m as [|mb m IH]; intros [|lb lp] Hm Hl; cbn [zip_with];
    try constructor.
  - inversion Hm as [|? ? Hx _]; inversion Hl as [|? ? Hy _]; subst.
    pose proof (Qsum_products_nonpos mb lb Hx Hy). lra.
  - inversion Hm; inversion Hl; subst. now apply IH.
Qed.

Lemma learn_lengths E G ag rng batch out :
  grid_ok ag -> sample_shape ag batch ->
  learn E G ag rng batch = inr out ->
  length (loc_log_ps_a (out_locals out)) = batch_size ag
  /\ length (loc_m (out_locals out)) = batch_size ag
  /\ length (loc_loss (out_locals out)) = batch_size ag.
Proof.
  intros Hg Hs Hout.
  destruct (learn_inv _ _ _ _ _ _ Hout)
    as (lp & am & pa & m & Hlp & _ & Hpa & Hm & Hloc & _).
  rewrite Hloc. cbn [loc_log_ps_a loc_m loc_loss].
  destruct (gather_spec _ _ _ _ Hlp) as (_ & Hllp & _). rewrite length_seq in Hllp.
  destruct (gather_spec _ _ _ _ Hpa) as (_ & Hlpa & _). rewrite length_seq in Hlpa.
  assert (Hlm : length m = batch_size ag).
  { unfold distribute, bind in Hm. cbv zeta in Hm.
    destruct (index_add_ _ _ _) as [|m1]; [discriminate|].
    destruct (index_add_ m1 _ _) as [|m2]; [discriminate|].
    injection Hm as <-. unfold view. now rewrite length_map, length_seq. }
  repeat split; try assumption.
  unfold loss. rewrite length_zip_with. lia.
Qed.

End LearnFacts.

Section SelectionFacts.
Import Torch Learn Projection.

Lemma expected_values_lookup sup p (a : nat) v :
  expected_values sup p !! a = Some v ->
  exists pa, p !! a = Some pa /\ v = Qsum (zip_with Qmult sup pa).
Proof.
  unfold expected_values. rewrite map_fmap, list_lookup_fmap.
  destruct (p !! a) as [pa|]; [|discriminate]. intros [= <-]. now exists pa.
Qed.

Lemma is_argmax_sums sup p (a : nat) :
  is_argmax (expected_values sup p) a ->
  exists pa,
    p !! a = Some pa
    /\ forall (a' : nat) pa', p !! a' = Some pa' ->
         Qsum (zip_with Qmult sup pa') <= Qsum (zip_with Qmult sup pa)
         /\ ((a' < a)%nat ->
             Qsum (zip_with Qmult sup pa') < Qsum (zip_with Qmult sup pa)).
Proof.
  intros (x & Hx & Hle & Hlt).
  apply expected_values_lookup in Hx as (pa & Hpa & ->).
  exists pa. split; [assumption|]. intros a' pa' Hpa'.
  assert (Hv : expected_values sup p !! a' = Some (Qsum (zip_with Qmult sup pa'))).
  { unfold expected_values. now rewrite map_fmap, list_lookup_fmap, Hpa'. }
  split; [exact (Hle a' _ Hv)|]. intros Ha. exact (Hlt a' _ Ha Hv).
Qed.

(** What lines 81-88 leave in [argmax_indices_ns] and [pns_a]. *)
Lemma learn_selection E G ag rng batch out :
  sample_shape ag batch ->
  learn E G ag rng batch = inr out ->
  length (loc_argmax_indices_ns (out_locals out)) = batch_size ag
  /\ length (loc_pns_a (out_locals out)) = batch_size ag
  /\ forall (b : nat) s, next_states batch !! b = Some s ->
       exists (a : nat) row,
         loc_argmax_indices_ns (out_locals out) !! b = Some a
         /\ is_argmax (expected_values (support ag) (forward E (online_net ag) s)) a
         /\ forward E (net_reset_noise E (target_net ag) rng).1 s !! a = Some row
         /\ loc_pns_a (out_locals out) !! b = Some row.
Proof.
  intros Hs Hout.
  destruct (learn_inv _ _ _ _ _ _ Hout)
    as (lp & am & pa & m & _ & Ham & Hpa & _ & Hloc & _).
  rewrite Hloc. cbn [loc_argmax_indices_ns loc_pns_a].
  destruct (argmax_rows_spec _ _ Ham) as [Hlam Hrows].
  destruct (gather_spec _ _ _ _ Hpa) as (_ & Hlpa & Hg').
  rewrite length_seq in Hlpa.
  destruct Hs as (_ & _ & Hns & _).
  split; [rewrite Hlam, !length_map; exact Hns|]. split; [exact Hlpa|].
  intros b s Hb.
  destruct (Hrows b (expected_values (support ag) (forward E (online_net ag) s)))
    as (a & Ha & Harg).
  { now rewrite !map_fmap, !list_lookup_fmap, Hb. }
  destruct (Hg' b b) as (row & c & x & Hrow & Hc & Hidx & Hx).
  { apply lookup_seq. split; [reflexivity|]. apply lookup_lt_Some in Hb. lia. }
  rewrite map_fmap, list_lookup_fmap, Hb in Hrow. injection Hrow as <-.
  rewrite map_fmap, list_lookup_fmap, Ha in Hc. injection Hc as <-.
  exists a, x. repeat split.
  - assumption.
  - now apply argmax_spec.
  - now apply index_of_nat.
  - assumption.
Qed.

End SelectionFacts.

Section PriorityFacts.
Import Torch Learn Projection.

(** What lines 76-77 and 110 leave in [log_ps_a], [m] and [loss]. *)
Lemma learn_cross_entropy E G ag rng batch out :
  grid_ok ag -> sample_shape ag batch ->
  learn E G ag rng batch = inr out ->
  distribute ag (returns batch) (nonterminals batch) (loc_pns_a (out_locals out))
  = inr (loc_m (out_locals out))
  /\ forall (b : nat) s a,
       states batch !! b = Some s -> actions batch !! b = Some a ->
       exists lrow mrow,
         index (forward_log E (online_net ag) s) a = inr lrow
         /\ loc_log_ps_a (out_locals out) !! b = Some lrow
         /\ loc_m (out_locals out) !! b = Some mrow
         /\ loc_loss (out_locals out) !! b
            = Some (- Qsum (zip_with Qmult mrow lrow)).
Proof.
  intros Hg Hs Hout.
  destruct (learn_lengths _ _ _ _ _ _ Hg Hs Hout) as (_ & Hlm & _).
  destruct (learn_inv _ _ _ _ _ _ Hout)
    as (lp & am & pa & m & Hlp & _ & _ & Hm & Hloc & _).
  rewrite Hloc in Hlm |- *. cbn [loc_log_ps_a loc_pns_a loc_m loc_loss] in Hlm |- *.
  split; [assumption|]. intros b s a Hb Ha.
  destruct (gather_spec _ _ _ _ Hlp) as (_ & _ & Hrows).
  assert (Hlt : (b < batch_size ag)%nat).
  { destruct Hs as (Hst & _). apply lookup_lt_Some in Hb. lia. }
  destruct (Hrows b b) as (row & c & x & Hrow & Hc & Hidx & Hx).
  { apply lookup_seq. split; [reflexivity|assumption]. }
  rewrite map_fmap, list_lookup_fmap, Hb in Hrow. injection Hrow as <-.
  assert (c = a) by congruence. subst c.
  destruct (lookup_lt_is_Some_2 m b ltac:(lia)) as [mrow Hmrow].
  exists x, mrow. repeat split; try assumption.
  unfold loss. now rewrite lookup_zip_with, Hmrow, Hx.
Qed.

End PriorityFacts.


(** ** The expected value of a projected row, and rows already on the grid *)

Section ExpectedValue.
Import Torch Projection Neighbours Rows RowProjection.

Lemma dot_alter z : forall v (i : nat) zi s,
  z !! i = Some zi -> (i < length v)%nat ->
  Qsum (zip_with Qmult z (alter (fun x => x + s) i v))
  == Qsum (zip_with Qmult z v) + zi * s.
Proof.
  induction z as [|y z IH]; intros [|x v] i zi s Hz Hi; try discriminate Hz;
    simpl in Hi; try lia.
  destruct i as [|i].
  - injection Hz as ->.
    change (alter (fun x => x + s) 0%nat (x :: v)) with ((x + s) :: v).
    cbn [zip_with]. rewrite !Qsum_cons. ring.
  - change (alter (fun x => x + s) (S i) (x :: v))
      with (x :: alter (fun x => x + s) i v).
    cbn [zip_with]. rewrite !Qsum_cons.
    assert (E := IH v i zi s Hz ltac:(lia)). rewrite E. ring.
Qed.

Lemma dot_row_add z (g : Z -> Q) idx : forall src row,
  (forall i, in_row (length row) i ->
     exists zi, z !! Z.to_nat i = Some zi /\ zi == g i) ->
  length idx = length src ->
  Forall (in_row (length row)) idx ->
  Qsum (zip_with Qmult z (row_add row idx src))
  == Qsum (zip_with Qmult z row) + Qsum (zip_with (fun i s => g i * s) idx src).
Proof.
  induction idx as [|i idx IH]; intros [|s src] row Hz Hlen Hin;
    try discriminate Hlen; cbn [row_add zip_with].
  - rewrite Qsum_nil. ring.
  - inversion Hin as [|? ? Hi Hin']; subst.
    destruct (Hz i Hi) as (zi & Hzi & Hg).
    assert (E := IH src (alter (fun x => x + s) (Z.to_nat i) row)).
    rewrite length_alter in E. rewrite (E Hz ltac:(simpl in Hlen; lia) Hin').
    rewrite Qsum_cons.
    assert (E2 := dot_alter z row (Z.to_nat i) zi s Hzi
                    ltac:(unfold in_row in Hi; lia)).
    rewrite E2, Hg. ring.
Qed.

Lemma support_lookup ag (i : Z) :
  grid_ok ag -> in_row (Z.to_nat (atoms ag)) i ->
  exists zi, support ag !! Z.to_nat i = Some zi
             /\ zi == V_min ag + inject_Z i * delta_z ag.
Proof.
  intros (HA & _ & Hs & Hd) Hi. unfold in_row in Hi. rewrite Hs, Hd.
  destruct (Z.to_nat (atoms ag)) as [|[|k]] eqn:Hk; try lia.
  unfold linspace. rewrite map_fmap, list_lookup_fmap.
  rewrite (proj2 (lookup_seq 0 (S (S k)) (Z.to_nat i) (Z.to_nat i))) by (split; lia).
  eexists. split; [reflexivity|]. cbn [Nat.add].
  rewrite Z2Nat.id by lia. replace (Z.of_nat (S (S k))) with (atoms ag) by lia.
  reflexivity.
Qed.

Lemma sources_expectation (A : Z) (v d : Q) (p bb : list Q) :
  (2 <= A)%Z -> length p = length bb ->
  Forall (fun x => 0 <= x /\ x <= inject_Z (A - 1)) bb ->
  Qsum (zip_with (fun i s => (v + inject_Z i * d) * s) (map lo bb)
          (zip_with Qmult p (zip_with Qminus (map inject_Z (map (hi A) bb)) bb)))
  + Qsum (zip_with (fun i s => (v + inject_Z i * d) * s) (map (hi A) bb)
            (zip_with Qmult p (zip_with Qminus bb (map inject_Z (map lo bb)))))
  == Qsum (zip_with (fun q x => q * (v + x * d)) p bb).
Proof.
  intros HA. revert bb; induction p as [|q p IH]; intros [|x bb] Hlen Hbb;
    try discriminate Hlen.
  - cbn [zip_with map]. rewrite Qsum_nil. ring.
  - inversion Hbb as [|? ? [H0 H1] Hbb']; subst.
    cbn [zip_with map]. rewrite !Qsum_cons.
    assert (E := IH bb ltac:(simpl in Hlen; lia) Hbb'). rewrite <- E.
    destruct (neighbours_adjacent A x HA H0 H1) as (_ & _ & -> & _).
    rewrite inject_Z_plus. change (inject_Z 1) with 1. ring.
Qed.

Lemma dot_replicate_0 z k : Qsum (zip_with Qmult z (replicate k 0)) == 0.
Proof.
  revert k; induction z as [|y z IH]; intros [|k]; cbn [replicate zip_with];
    rewrite ?Qsum_nil, ?Qsum_cons; try reflexivity.
  rewrite IH. ring.
Qed.

Lemma expectation_project_row ag r nt p :
  grid_ok ag -> length p = Z.to_nat (atoms ag) ->
  Qsum (zip_with Qmult (support ag) (project_row ag r nt p))
  == Qsum (zip_with Qmult p
             (map (fun z => clamp (V_min ag) (V_max ag)
                              (r + nt * (discount ag ^ n ag) * z)) (support ag))).
Proof.
  intros Hg Hp. destruct (length_sources ag r nt p Hg Hp) as [Hsl Hsu].
  pose proof (grid_delta_pos ag Hg) as Hd.
  assert (HA : (2 <= atoms ag)%Z) by now destruct Hg.
  unfold project_row. cbv zeta.
  set (g := fun i : Z => V_min ag + inject_Z i * delta_z ag).
  rewrite (dot_row_add (support ag) g).
  2:{ intros i Hi. rewrite length_row_add, length_replicate in Hi.
      now apply support_lookup. }
  2:{ now rewrite length_map, length_b_row. }
  2:{ rewrite length_row_add, length_replicate. now apply in_row_hi. }
  rewrite (dot_row_add (support ag) g).
  2:{ intros i Hi. rewrite length_replicate in Hi. now apply support_lookup. }
  2:{ now rewrite length_map, length_b_row. }
  2:{ rewrite length_replicate. now apply in_row_lo. }
  rewrite dot_replicate_0. unfold source_l, source_u. cbv zeta. subst g. cbv beta.
  assert (E := sources_expectation (atoms ag) (V_min ag) (delta_z ag) p
                 (b_row ag r nt) HA ltac:(now rewrite length_b_row)
                 (b_row_range ag r nt Hg)).
  rewrite Qplus_0_l, E. unfold b_row.
  apply Qsum_Forall2. clear E Hsl Hsu Hp.
  generalize (support ag). intros zs. revert zs.
  induction p as [|q p IH]; intros [|z zs]; cbn [map zip_with]; constructor.
  - field. lra.
  - apply IH.
Qed.

End ExpectedValue.

Section IdentityRows.
Import Torch Projection Neighbours Rows RowProjection.

Lemma clamp_inside lo hi x : lo <= x -> x <= hi -> clamp lo hi x == x.
Proof.
  intros H1 H2. unfold clamp. rewrite Q.max_l by assumption. now apply Q.min_l.
Qed.

Lemma b_row_on_grid ag r nt (i : nat) x :
  grid_ok ag -> r == 0 -> nt * (discount ag ^ n ag) == 1 ->
  b_row ag r nt !! i = Some x -> x == inject_Z (Z.of_nat i).
Proof.
  intros Hg Hr Hnt Hx.
  pose proof (grid_delta_pos ag Hg) as Hd. pose proof (grid_span ag Hg) as Hs.
  assert (HA : (2 <= atoms ag)%Z) by now destruct Hg.
  unfold b_row in Hx. rewrite map_fmap, list_lookup_fmap in Hx.
  destruct (support ag !! i) as [z|] eqn:Hz; [|discriminate]. injection Hx as <-.
  assert (Hi : (i < Z.to_nat (atoms ag))%nat).
  { apply lookup_lt_Some in Hz. now rewrite length_support in Hz. }
  destruct (support_lookup ag (Z.of_nat i) Hg ltac:(unfold in_row; lia))
    as (z' & Hz' & Hzi).
  rewrite Nat2Z.id, Hz in Hz'. injection Hz' as <-.
  set (t := nt * discount ag ^ n ag) in *. clearbody t.
  assert (Hy : r + t * z == z) by (rewrite Hr, Hnt; ring).
  assert (H0 : 0 <= inject_Z (Z.of_nat i)).
  { change 0 with (inject_Z 0). rewrite <- Zle_Qle. lia. }
  assert (H1 : inject_Z (Z.of_nat i) <= inject_Z (atoms ag - 1)).
  { rewrite <- Zle_Qle. lia. }
  assert (Hc : clamp (V_min ag) (V_max ag) (r + t * z) == z).
  { rewrite clamp_inside; [exact Hy| |]; rewrite Hy, Hzi; nra. }
  rewrite Hc, Hzi. field. lra.
Qed.

Lemma contrib_identity (A j : Z) p : forall bb (o : Z),
  (2 <= A)%Z -> (0 <= o)%Z -> length p = length bb ->
  (o + Z.of_nat (length bb) <= A)%Z ->
  (forall (i : nat) x, bb !! i = Some x -> x == inject_Z (o + Z.of_nat i)) ->
  contrib j (map lo bb)
          (zip_with Qmult p (zip_with Qminus (map inject_Z (map (hi A) bb)) bb))
  + contrib j (map (hi A) bb)
            (zip_with Qmult p (zip_with Qminus bb (map inject_Z (map lo bb))))
  == if ((o <=? j) && (j <? o + Z.of_nat (length bb)))%Z
     then default 0 (p !! Z.to_nat (j - o)) else 0.
Proof.
  induction p as [|q p IH]; intros [|x bb] o HA Ho Hlen Hfit Hbb;
    try discriminate Hlen.
  - cbn [map zip_with contrib length]. rewrite lookup_nil.
    destruct (_ && _)%bool; cbn; ring.
  - cbn [map zip_with contrib].
    assert (Hx : x == inject_Z o).
    { rewrite (Hbb 0%nat x eq_refl). now rewrite Z.add_0_r. }
    cbn [length] in Hfit.
    destruct (neighbours_on_grid A o x HA ltac:(lia) Hx) as [Hlo Hhi].
    assert (E := IH bb (o + 1)%Z HA ltac:(lia) ltac:(simpl in Hlen; lia)
                   ltac:(lia)).
    assert (E' : forall (i : nat) y, bb !! i = Some y ->
                   y == inject_Z (o + 1 + Z.of_nat i)).
    { intros i y Hy. rewrite (Hbb (S i) y Hy).
      replace (o + Z.of_nat (S i))%Z with (o + 1 + Z.of_nat i)%Z by lia.
      reflexivity. }
    specialize (E E'). clear E'.
    rewrite Hlo, Hhi.
    match goal with
    | |- ?a + ?cl + (?c + ?cu) == _ =>
        transitivity ((a + c) + (cl + cu)); [ring|rewrite E]
    end.
    clear E IH. cbn [length].
    assert (Hm : inject_Z (o - 1) == inject_Z o - 1).
    { unfold Z.sub. rewrite inject_Z_plus, inject_Z_opp. reflexivity. }
    replace (j <? o + Z.of_nat (S (length bb)))%Z
      with (j <? o + 1 + Z.of_nat (length bb))%Z by (f_equal; lia).
    destruct (Z.leb_spec (o + 1) j) as [Hgt|Hle]; cbn [andb].
    + (* a later position *)
      destruct (Z.leb_spec o j); [|lia]. cbn [andb].
      replace (Z.to_nat (j - o)) with (S (Z.to_nat (j - (o + 1)))) by lia.
      change (default 0 ((q :: p) !! S (Z.to_nat (j - (o + 1)))))
        with (default 0 (p !! Z.to_nat (j - (o + 1)))).
      destruct (Z.ltb_spec 0 o);
        [destruct (Z.eqb_spec (o - 1) j); [lia|]; destruct (Z.eqb_spec o j); [lia|]
        |destruct (Z.eqb_spec 0 j); [lia|]; destruct (Z.eqb_spec 1 j)];
        destruct (j <? o + 1 + Z.of_nat (length bb))%Z; rewrite ?Hx; try ring.
      all: assert (o = 0%Z) by lia; subst o; change (inject_Z 0) with 0; ring.
    + destruct (Z.leb_spec o j) as [Hge|Hlt]; cbn [andb].
      * (* this position *)
        assert (j = o) by lia. subst j.
        destruct (Z.ltb_spec o (o + 1 + Z.of_nat (length bb))); [|lia].
        rewrite Z.sub_diag. change (default 0 ((q :: p) !! Z.to_nat 0)) with q.
        destruct (Z.ltb_spec 0 o).
        -- destruct (Z.eqb_spec (o - 1) o); [lia|]. rewrite Z.eqb_refl.
           rewrite Hx, Hm. ring.
        -- assert (o = 0%Z) by lia. subst o. rewrite Z.eqb_refl.
           change (1 =? 0)%Z with false. cbv iota. rewrite Hx.
           change (inject_Z 0) with 0. change (inject_Z 1) with 1. ring.
      * (* an earlier position *)
        destruct (Z.ltb_spec 0 o).
        -- destruct (Z.eqb_spec o j); [lia|].
           destruct (Z.eqb_spec (o - 1) j); rewrite ?Hx; ring.
        -- assert (o = 0%Z) by lia. subst o.
           destruct (Z.eqb_spec 0 j); [lia|]. destruct (Z.eqb_spec 1 j); [lia|].
           ring.
Qed.

End IdentityRows.

Section ProjectionExtras.
Import Torch Projection Neighbours Rows RowProjection.

Lemma length_project_row ag r nt p :
  length (project_row ag r nt p) = Z.to_nat (atoms ag).
Proof. unfold project_row. now rewrite !length_row_add, length_replicate. Qed.

Lemma in_row_nonneg N idx : Forall (in_row N) idx -> Forall (fun i => (0 <= i)%Z) idx.
Proof. intros H. eapply Forall_impl; [exact H|]. unfold in_row. intros i Hi. lia. Qed.

Lemma project_row_identity ag r nt p :
  grid_ok ag -> length p = Z.to_nat (atoms ag) ->
  r == 0 -> nt * (discount ag ^ n ag) == 1 ->
  Forall2 Qeq (project_row ag r nt p) p.
Proof.
  intros Hg Hp Hr Hnt.
  assert (HA : (2 <= atoms ag)%Z) by now destruct Hg.
  apply Forall2_same_length_lookup_2; [now rewrite length_project_row|].
  intros j x y Hx Hy.
  assert (Hj : (j < Z.to_nat (atoms ag))%nat).
  { apply lookup_lt_Some in Hy. lia. }
  unfold project_row in Hx. cbv zeta in Hx.
  destruct (lookup_row_add (replicate (Z.to_nat (atoms ag)) 0)
              (map lo (b_row ag r nt)) (source_l ag r nt p) j 0)
    as (x1 & Hx1 & E1).
  { eapply in_row_nonneg, in_row_lo, Hg. }
  { now apply lookup_replicate_2. }
  destruct (lookup_row_add
              (row_add (replicate (Z.to_nat (atoms ag)) 0)
                       (map lo (b_row ag r nt)) (source_l ag r nt p))
              (map (hi (atoms ag)) (b_row ag r nt))
              (source_u ag r nt p) j x1) as (x2 & Hx2 & E2).
  { eapply in_row_nonneg, in_row_hi, Hg. }
  { exact Hx1. }
  assert (x2 = x) by congruence. subst x2.
  rewrite E2, E1. unfold source_l, source_u. cbv zeta.
  assert (E := contrib_identity (atoms ag) (Z.of_nat j) p (b_row ag r nt) 0 HA
                 ltac:(lia) ltac:(now rewrite length_b_row)
                 ltac:(rewrite length_b_row by assumption; lia)).
  rewrite Qplus_0_l, E.
  2:{ intros i z Hz. now apply (b_row_on_grid ag r nt). }
  rewrite length_b_row by assumption.
  destruct (Z.leb_spec 0 (Z.of_nat j)); [|lia].
  destruct (Z.ltb_spec (Z.of_nat j) (0 + Z.of_nat (Z.to_nat (atoms ag)))); [|lia].
  cbn [andb]. rewrite Z.sub_0_r, Nat2Z.id, Hy. reflexivity.
Qed.

End ProjectionExtras.

Section SingleValue.
Import Torch Projection Neighbours Rows RowProjection.

(** Entry [j] of a projected row is what the two accumulations send there. *)
Lemma project_row_lookup ag r nt p (j : nat) y :
  grid_ok ag ->
  project_row ag r nt p !! j = Some y ->
  y == contrib (Z.of_nat j) (map lo (b_row ag r nt)) (source_l ag r nt p)
       + contrib (Z.of_nat j) (map (hi (atoms ag)) (b_row ag r nt))
                 (source_u ag r nt p).
Proof.
  intros Hg Hj.
  assert (Hjn : (j < Z.to_nat (atoms ag))%nat).
  { apply lookup_lt_Some in Hj. now rewrite length_project_row in Hj. }
  unfold project_row in Hj. cbv zeta in Hj.
  destruct (lookup_row_add (replicate (Z.to_nat (atoms ag)) 0)
              (map lo (b_row ag r nt)) (source_l ag r nt p) j 0) as (x1 & Hx1 & E1).
  { eapply in_row_nonneg, in_row_lo, Hg. }
  { now apply lookup_replicate_2. }
  destruct (lookup_row_add
              (row_add (replicate (Z.to_nat (atoms ag)) 0)
                       (map lo (b_row ag r nt)) (source_l ag r nt p))
              (map (hi (atoms ag)) (b_row ag r nt))
              (source_u ag r nt p) j x1) as (x2 & Hx2 & E2); [|exact Hx1|].
  { eapply in_row_nonneg, in_row_hi, Hg. }
  rewrite Hx2 in Hj. injection Hj as <-. rewrite E2, E1. ring.
Qed.

(** The share of one source entry in what reaches position [j]. *)
Lemma contrib_insert_zero (j : Z) idx : forall p w (i : nat) q d wi,
  p !! i = Some q -> idx !! i = Some d -> w !! i = Some wi ->
  contrib j idx (zip_with Qmult p w)
  == contrib j idx (zip_with Qmult (<[i:=0]> p) w)
     + (if (d =? j)%Z then q * wi else 0).
Proof.
  induction idx as [|d0 idx IH]; intros [|q0 p] [|w0 w] i q d wi Hp Hd Hw;
    try discriminate.
  destruct i as [|i].
  - injection Hp as ->. injection Hd as ->. injection Hw as ->.
    change (<[0%nat:=0]> (q :: p)) with (0 :: p). cbn [zip_with contrib].
    destruct (d =? j)%Z; ring.
  - change (<[S i:=0]> (q0 :: p)) with (q0 :: <[i:=0]> p). cbn [zip_with contrib].
    assert (E := IH p w i q d wi Hp Hd Hw). rewrite E. ring.
Qed.

Lemma project_row_single ag r nt p (i : nat) q x (a : Z) (j : nat) y y' :
  grid_ok ag -> (0 <= a <= atoms ag - 1)%Z ->
  length p = Z.to_nat (atoms ag) ->
  p !! i = Some q -> b_row ag r nt !! i = Some x -> x == inject_Z a ->
  project_row ag r nt p !! j = Some y ->
  project_row ag r nt (<[i:=0]> p) !! j = Some y' ->
  y == y' + (if decide (j = Z.to_nat a) then q else 0).
Proof.
  intros Hg Ha Hlen Hp Hx Hxa Hy Hy'.
  assert (HA : (2 <= atoms ag)%Z) by now destruct Hg.
  rewrite (project_row_lookup ag r nt p j y Hg Hy).
  rewrite (project_row_lookup ag r nt _ j y' Hg Hy').
  destruct (neighbours_on_grid (atoms ag) a x HA Ha Hxa) as [Hlo Hhi].
  unfold source_l, source_u. cbv zeta.
  assert (El := contrib_insert_zero (Z.of_nat j) (map lo (b_row ag r nt)) p
                  (zip_with Qminus (map inject_Z (map (hi (atoms ag)) (b_row ag r nt)))
                            (b_row ag r nt))
                  i q (lo x) (inject_Z (hi (atoms ag) x) - x) Hp).
  assert (Eu := contrib_insert_zero (Z.of_nat j)
                  (map (hi (atoms ag)) (b_row ag r nt)) p
                  (zip_with Qminus (b_row ag r nt)
                            (map inject_Z (map lo (b_row ag r nt))))
                  i q (hi (atoms ag) x) (x - inject_Z (lo x)) Hp).
  rewrite El, Eu.
  2:{ now rewrite map_fmap, list_lookup_fmap, Hx. }
  2:{ now rewrite lookup_zip_with, !map_fmap, !list_lookup_fmap, Hx. }
  2:{ now rewrite map_fmap, list_lookup_fmap, Hx. }
  2:{ now rewrite lookup_zip_with, !map_fmap, !list_lookup_fmap, Hx. }
  rewrite Hlo, Hhi.
  destruct (Z.ltb_spec 0 a) as [Hpos|Hzero].
  - assert (Hm : inject_Z (a - 1) == inject_Z a - 1).
    { unfold Z.sub. rewrite inject_Z_plus, inject_Z_opp. reflexivity. }
    destruct (decide (j = Z.to_nat a)) as [->|Hne].
    + destruct (Z.eqb_spec (a - 1) (Z.of_nat (Z.to_nat a))); [lia|].
      destruct (Z.eqb_spec a (Z.of_nat (Z.to_nat a))); [|lia].
      rewrite Hxa, Hm. ring.
    + destruct (Z.eqb_spec a (Z.of_nat j)); [lia|].
      destruct (Z.eqb_spec (a - 1) (Z.of_nat j)); rewrite ?Hxa; ring.
  - assert (a = 0%Z) by lia. subst a.
    change (inject_Z 0) with 0 in *. change (inject_Z 1) with 1.
    destruct (decide (j = Z.to_nat 0)) as [->|Hne].
    + change (Z.of_nat (Z.to_nat 0)) with 0%Z. cbn [Z.eqb]. rewrite Hxa. ring.
    + change (Z.to_nat 0) with 0%nat in Hne.
      destruct (Z.eqb_spec 0 (Z.of_nat j)); [lia|].
      destruct (Z.eqb_spec 1 (Z.of_nat j)); rewrite ?Hxa; ring.
Qed.

End SingleValue.


(** ** State dictionaries, loading and the frame of [learn] *)

(** Two estimators built by the same constructor: the same parameter and
    buffer names, and tensors of the same size under each name. *)
Definition same_architecture (a b : Net) : Prop :=
  dom (parameters a) = dom (parameters b)
  /\ dom (buffers a) = dom (buffers b)
  /\ forall k t t', state_dict a !! k = Some t -> state_dict b !! k = Some t' ->
       length t = length t'.

Section StateDictFacts.

Lemma dom_state_dict net :
  dom (state_dict net) = dom (parameters net) ∪ dom (buffers net).
Proof. unfold state_dict. apply dom_union_L. Qed.

Lemma load_state_dict_same_architecture src dst :
  same_architecture src dst ->
  load_state_dict dst (state_dict src)
  = inr (mkNet (map_imap (fun k _ => state_dict src !! k) (parameters dst))
               (map_imap (fun k _ => state_dict src !! k) (buffers dst))
               (training dst) (requires_grad dst)).
Proof.
  intros (Hp & Hb & Hlen). unfold load_state_dict.
  rewrite bool_decide_eq_true_2.
  2:{ rewrite !dom_state_dict, Hp, Hb. reflexivity. }
  rewrite bool_decide_eq_true_2; [reflexivity|].
  intros k t Hk.
  assert (Hin : k ∈ dom (state_dict src)).
  { rewrite dom_state_dict, Hp, Hb, <- dom_state_dict. apply elem_of_dom. eauto. }
  apply elem_of_dom in Hin as [t' Ht']. cbv beta.
  transitivity (length <$> Some t'); [exact (f_equal (fmap length) Ht')|].
  cbn. f_equal. exact (Hlen k t' t Ht' Hk).
Qed.

Lemma loaded_parameters (src : gmap string Tensor) (ps bs : gmap string Tensor) :
  dom ps = dom src ->
  map_imap (fun k (_ : Tensor) => (src ∪ bs) !! k) ps = src.
Proof.
  intros Hd. apply map_eq. intros k. rewrite map_lookup_imap.
  destruct (ps !! k) as [t|] eqn:Hk; cbn.
  - assert (Hin : k ∈ dom src) by (rewrite <- Hd; apply elem_of_dom; eauto).
    apply elem_of_dom in Hin as [t' Ht']. rewrite Ht'.
    now apply lookup_union_Some_l.
  - symmetry. apply not_elem_of_dom. rewrite <- Hd. now apply not_elem_of_dom.
Qed.

End StateDictFacts.

Section LoadFacts.

Ltac map_lookups :=
  repeat first
    [ rewrite lookup_delete_eq
    | rewrite lookup_insert_eq
    | rewrite lookup_delete_ne by discriminate
    | rewrite lookup_insert_ne by discriminate ].

Lemma remap_keys_legacy sd :
  match remap_keys sd legacy_keys with
  | inr sd' =>
      Forall (fun kv => sd' !! kv.1 = None /\ is_Some (sd !! kv.1)
                        /\ sd' !! kv.2 = sd !! kv.1) legacy_keys
      /\ forall k, k ∉ legacy_keys.*1 -> k ∉ legacy_keys.*2 -> sd' !! k = sd !! k
  | inl e => exists k, e = KeyError k /\ k ∈ legacy_keys.*1 /\ sd !! k = None
  end.
Proof.
  unfold legacy_keys. cbn [remap_keys]. unfold remap_key, bind, ret, raise. cbn [fst snd].
  destruct (sd !! "conv1.weight"%string) as [t1|] eqn:H1;
    [|exists "conv1.weight"%string; repeat split; [set_solver|assumption]].
  cbv beta iota. map_lookups.
  destruct (sd !! "conv1.bias"%string) as [t2|] eqn:H2;
    [|exists "conv1.bias"%string; repeat split; [set_solver|assumption]].
  cbv beta iota. map_lookups.
  destruct (sd !! "conv2.weight"%string) as [t3|] eqn:H3;
    [|exists "conv2.weight"%string; repeat split; [set_solver|assumption]].
  cbv beta iota. map_lookups.
  destruct (sd !! "conv2.bias"%string) as [t4|] eqn:H4;
    [|exists "conv2.bias"%string; repeat split; [set_solver|assumption]].
  cbv beta iota. map_lookups.
  destruct (sd !! "conv3.weight"%string) as [t5|] eqn:H5;
    [|exists "conv3.weight"%string; repeat split; [set_solver|assumption]].
  cbv beta iota. map_lookups.
  destruct (sd !! "conv3.bias"%string) as [t6|] eqn:H6;
    [|exists "conv3.bias"%string; repeat split; [set_solver|assumption]].
  cbv beta iota. split.
  - repeat (apply Forall_cons; split;
            [cbn [fst snd]; map_lookups; rewrite ?H1, ?H2, ?H3, ?H4, ?H5, ?H6;
             repeat split; eauto|]).
    constructor.
  - intros k Hold Hnew. cbn in Hold, Hnew.
    repeat first
      [ rewrite lookup_delete_ne by (intros <-; apply Hold; set_solver)
      | rewrite lookup_insert_ne by (intros <-; apply Hnew; set_solver) ].
    reflexivity.
Qed.


Lemma load_pretrained_missing fs name results_dir online :
  name <> ""%string ->
  is_file fs (joinpath fs results_dir name) = false ->
  load_pretrained fs (Some name) results_dir online
  = inl (FileNotFoundError (joinpath fs results_dir name)).
Proof.
  intros Hname Hfile. unfold load_pretrained.
  destruct name as [|c name]; [congruence|]. now rewrite Hfile.
Qed.

Lemma load_pretrained_found fs name results_dir online sd :
  name <> ""%string ->
  is_file fs (joinpath fs results_dir name) = true ->
  torch_load fs (joinpath fs results_dir name) = inr sd ->
  load_pretrained fs (Some name) results_dir online
  = (sd' <- remap_legacy sd ;;
     online' <- load_state_dict online sd' ;;
     ret (Some (joinpath fs results_dir name), online')).
Proof.
  intros Hname Hfile Hload. unfold load_pretrained.
  destruct name as [|c name]; [congruence|]. rewrite Hfile.
  unfold bind at 1. now rewrite Hload.
Qed.

End LoadFacts.

Section FrameFacts.
Import Torch Learn Projection.

Lemma learn_target E G ag rng batch out :
  learn E G ag rng batch = inr out ->
  target_net (out_agent out) = (net_reset_noise E (target_net ag) rng).1.
Proof.
  intros Hout.
  now destruct (learn_inv _ _ _ _ _ _ Hout) as (? & ? & ? & ? & _ & _ & _ & _ & _ & _ & H & _).
Qed.

Lemma learn_online E G ag rng batch out :
  learn E G ag rng batch = inr out ->
  parameters (online_net (out_agent out))
  = (optim_step G (optimiser ag) (parameters (online_net ag))
       (loc_grads (out_locals out))).2
  /\ loc_grads (out_locals out)
     = clip_grad_norm_ G
         (backward G (loc_objective (out_locals out)) (online_net ag))
         (norm_clip ag).
Proof.
  unfold learn, bind. intros H.
  destruct (log_ps_a E ag (online_net ag) batch) as [|lp]; [discriminate|].
  destruct (argmax_indices_ns E ag batch) as [|am]; [discriminate|].
  cbv zeta in H.
  destruct (pns_a E ag _ batch am) as [|pa]; [discriminate|].
  destruct (distribute ag _ _ pa) as [|m]; [discriminate|].
  injection H as <-. split; reflexivity.
Qed.

Lemma init_target_frozen E fs args results_dir env_action_space rng ag rng' :
  init E fs args results_dir env_action_space rng = inr (ag, rng') ->
  requires_grad (target_net ag) = false.
Proof.
  unfold init, bind. intros H.
  repeat match type of H with
         | context [if ?c then _ else _] => destruct c; cbn in H; try discriminate
         | context [match ?m with inl _ => _ | inr _ => _ end] =>
             destruct m; cbn in H; try discriminate
         end.
  all: injection H as <- _; reflexivity.
Qed.

End FrameFacts.

(** ** Greedy actions, round trips of the state dictionary, the constructor *)

Section ActFacts.
Import Torch Learn.

Lemma foldl_max_spec v : forall x,
  x <= foldl Qmax x v
  /\ Forall (fun y => y <= foldl Qmax x v) v
  /\ (foldl Qmax x v == x \/ Exists (fun y => foldl Qmax x v == y) v).
Proof.
  induction v as [|y v IH]; intros x; cbn [foldl].
  - split; [apply Qle_refl|]. split; [constructor|]. left. reflexivity.
  - destruct (IH (Qmax x y)) as (H1 & H2 & H3).
    pose proof (Q.le_max_l x y) as Hl. pose proof (Q.le_max_r x y) as Hr.
    split; [lra|]. split; [constructor; [lra|assumption]|].
    destruct H3 as [H3|H3].
    + destruct (Q.max_spec x y) as [[_ Hm]|[_ Hm]].
      * right. constructor. now rewrite H3.
      * left. now rewrite H3.
    + right. now apply Exists_cons_tl.
Qed.

Lemma max_spec v q :
  max v = inr q ->
  Forall (fun y => y <= q) v /\ Exists (fun y => q == y) v.
Proof.
  destruct v as [|x v]; [discriminate|]. intros [= <-].
  destruct (foldl_max_spec v x) as (H1 & H2 & H3). split.
  - constructor; assumption.
  - destruct H3 as [H3|H3]; [now constructor | now apply Exists_cons_tl].
Qed.

Lemma is_argmax_max v a q :
  is_argmax v a -> max v = inr q ->
  exists x, v !! a = Some x /\ q == x.
Proof.
  intros (x & Hx & Hle & _) Hq. exists x. split; [assumption|].
  destruct (max_spec v q Hq) as [Hall Hex].
  apply Qle_antisym.
  - apply Exists_exists in Hex as (y & Hy & ->).
    apply list_elem_of_lookup_1 in Hy as [j Hj]. exact (Hle j y Hj).
  - apply (proj1 (Forall_lookup _ _) Hall a x Hx).
Qed.

End ActFacts.

Section GreedyFacts.
Import Torch Learn.

Lemma act_returns E ag state :
  (0 < action_space ag)%nat ->
  length (forward E (online_net ag) state) = action_space ag ->
  exists a,
    act E ag state = inr a
    /\ is_argmax (expected_values (support ag) (forward E (online_net ag) state)) a.
Proof.
  intros Hact Hlen. unfold act.
  destruct (expected_values (support ag) (forward E (online_net ag) state))
    as [|x v] eqn:Hv.
  { apply (f_equal length) in Hv. rewrite length_expected_values in Hv.
    simpl in Hv. lia. }
  destruct (argmax (x :: v)) as [e|a] eqn:Ha; [discriminate|].
  exists a. split; [reflexivity|]. now apply argmax_spec.
Qed.

End GreedyFacts.


Section RoundTripFacts.

Lemma loaded_buffers (ps bs dst : gmap string Tensor) :
  dom dst = dom bs -> dom ps ## dom bs ->
  map_imap (fun k (_ : Tensor) => (ps ∪ bs) !! k) dst = bs.
Proof.
  intros Hd Hdisj. apply map_eq. intros k. rewrite map_lookup_imap.
  destruct (dst !! k) as [t|] eqn:Hk; cbn.
  - assert (Hin : k ∈ dom bs) by (rewrite <- Hd; apply elem_of_dom; eauto).
    apply elem_of_dom in Hin as [t' Ht']. rewrite Ht'.
    apply lookup_union_Some_raw. right. split; [|assumption].
    apply not_elem_of_dom. intros Hp. apply (Hdisj k Hp).
    apply elem_of_dom. eauto.
  - symmetry. apply not_elem_of_dom. rewrite <- Hd. now apply not_elem_of_dom.
Qed.

Lemma load_state_dict_copy src dst :
  same_architecture src dst ->
  dom (parameters src) ## dom (buffers src) ->
  load_state_dict dst (state_dict src)
  = inr (mkNet (parameters src) (buffers src) (training dst) (requires_grad dst)).
Proof.
  intros Hsame Hdisj.
  rewrite (load_state_dict_same_architecture _ _ Hsame).
  destruct Hsame as (Hp & Hb & _). unfold state_dict.
  rewrite loaded_parameters by (now symmetry).
  rewrite loaded_buffers by (assumption || now symmetry). reflexivity.
Qed.

End RoundTripFacts.

Section InitFacts.

Lemma load_pretrained_none fs model results_dir online :
  model = None \/ model = Some ""%string ->
  load_pretrained fs model results_dir online = inr (None, online).
Proof. intros [-> | ->]; reflexivity. Qed.

End InitFacts.

Section CheckpointFacts.

Lemma imap_lookup_Some (sd m : gmap string Tensor) k t :
  map_imap (fun k (_ : Tensor) => sd !! k) m !! k = Some t ->
  is_Some (m !! k) /\ sd !! k = Some t.
Proof.
  rewrite map_lookup_imap. destruct (m !! k) as [t0|]; cbn; [|discriminate].
  intros H. split; [eauto|assumption].
Qed.

Lemma dom_imap_total (sd m : gmap string Tensor) :
  dom m ⊆ dom sd ->
  dom (map_imap (fun k (_ : Tensor) => sd !! k) m) = dom m.
Proof.
  intros Hsub. apply set_eq. intros k. rewrite !elem_of_dom, map_lookup_imap.
  split.
  - intros [t Ht]. destruct (m !! k); [eauto|discriminate].
  - intros [t Ht]. rewrite Ht. cbn. apply elem_of_dom, Hsub, elem_of_dom. eauto.
Qed.

Lemma load_state_dict_fits net sd :
  dom sd = dom (state_dict net) ->
  (forall k t t', sd !! k = Some t -> state_dict net !! k = Some t' ->
     length t = length t') ->
  exists net',
    load_state_dict net sd = inr net'
    /\ (forall k, k ∈ dom (parameters net) -> parameters net' !! k = sd !! k)
    /\ (forall k, k ∈ dom (buffers net) -> buffers net' !! k = sd !! k)
    /\ training net' = training net
    /\ requires_grad net' = requires_grad net
    /\ same_architecture net' net.
Proof.
  intros Hdom Hlen. unfold load_state_dict.
  rewrite bool_decide_eq_true_2 by (now rewrite Hdom).
  rewrite bool_decide_eq_true_2.
  2:{ intros k t Hk. cbv beta.
      assert (Hin : k ∈ dom sd) by (rewrite Hdom; apply elem_of_dom; eauto).
      apply elem_of_dom in Hin as [t' Ht'].
      transitivity (length <$> Some t'); [exact (f_equal (fmap length) Ht')|].
      cbn. f_equal. exact (Hlen k t' t Ht' Hk). }
  cbn [andb]. eexists. split; [reflexivity|].
  cbn [parameters buffers training requires_grad].
  assert (Hps : dom (parameters net) ⊆ dom sd).
  { rewrite Hdom, dom_state_dict. apply union_subseteq_l. }
  assert (Hbs : dom (buffers net) ⊆ dom sd).
  { rewrite Hdom, dom_state_dict. apply union_subseteq_r. }
  split.
  { intros k Hk. rewrite map_lookup_imap. apply elem_of_dom in Hk as [t ->].
    reflexivity. }
  split.
  { intros k Hk. rewrite map_lookup_imap. apply elem_of_dom in Hk as [t ->].
    reflexivity. }
  split; [reflexivity|]. split; [reflexivity|].
  split; [|split].
  - cbn [parameters]. now apply dom_imap_total.
  - cbn [buffers]. now apply dom_imap_total.
  - intros k t t' H1 H2. unfold state_dict at 1 in H1. cbn [parameters buffers] in H1.
    apply lookup_union_Some_raw in H1 as [H1|[_ H1]];
      apply imap_lookup_Some in H1 as [_ H1]; exact (Hlen k t t' H1 H2).
Qed.

Lemma same_architecture_trans a b c :
  same_architecture a b -> same_architecture b c -> same_architecture a c.
Proof.
  intros (Hp1 & Hb1 & Hl1) (Hp2 & Hb2 & Hl2).
  split; [congruence|]. split; [congruence|].
  intros k t t' Ha Hc.
  assert (Hin : k ∈ dom (state_dict b)).
  { rewrite dom_state_dict, <- Hp1, <- Hb1, <- dom_state_dict.
    apply elem_of_dom. eauto. }
  apply elem_of_dom in Hin as [tb Htb].
  rewrite (Hl1 k t tb Ha Htb). exact (Hl2 k tb t' Htb Hc).
Qed.

End CheckpointFacts.

Section ConstructorGrid.

(** The grid fields of the agent the constructor returns (lines 15-19). *)
Lemma init_grid E fs args results_dir env_action_space rng ag rng' :
  init E fs args results_dir env_action_space rng = inr (ag, rng') ->
  atoms ag = args_atoms args /\ V_min ag = args_V_min args
  /\ V_max ag = args_V_max args
  /\ support ag = Torch.linspace (args_V_min args) (args_V_max args)
                                 (Z.to_nat (args_atoms args))
  /\ delta_z ag = (args_V_max args - args_V_min args)
                  / inject_Z (args_atoms args - 1).
Proof.
  unfold init, bind. intros H.
  repeat match type of H with
         | context [if ?c then _ else _] => destruct c; cbn in H; try discriminate
         | context [match ?m with inl _ => _ | inr _ => _ end] =>
             destruct m; cbn in H; try discriminate
         end.
  all: injection H as <- _; repeat split.
Qed.

End ConstructorGrid.


Section LearnDistribution.
Import Torch Learn Projection Rows RowProjection.

Lemma gather_rows_Forall {A} (P : A -> Prop) (t : list (list A)) rows cols xs :
  gather t rows cols = inr xs ->
  Forall (Forall P) t -> Forall P xs.
Proof.
  intros Hg Ht. destruct (gather_spec t rows cols xs Hg) as (_ & Hlen & Hall).
  apply Forall_lookup. intros i x Hx.
  destruct (lookup_lt_is_Some_2 rows i) as [r Hr].
  { rewrite <- Hlen. now apply lookup_lt_Some in Hx. }
  destruct (Hall i r Hr) as (row & c & x' & Hrow & _ & Hidx & Hx').
  assert (x' = x) by congruence. subst x'.
  destruct (index_elem _ _ _ Hidx) as [j Hj].
  pose proof (proj1 (Forall_lookup _ _) Ht r row Hrow) as Hrow'.
  exact (proj1 (Forall_lookup _ _) Hrow' j x Hj).
Qed.

End LearnDistribution.

Section TerminalRows.
Import Torch Projection Neighbours Rows RowProjection.

Lemma clamp_comp lo hi x y : x == y -> clamp lo hi x == clamp lo hi y.
Proof. intros H. unfold clamp. now rewrite H. Qed.

Lemma lo_comp x y : x == y -> lo x = lo y.
Proof.
  intros H. unfold lo. now rewrite (Qfloor_comp _ _ H), (Qceiling_comp _ _ H).
Qed.

Lemma hi_comp A x y : x == y -> hi A x = hi A y.
Proof.
  intros H. unfold hi. now rewrite (lo_comp _ _ H), (Qceiling_comp _ _ H).
Qed.

Lemma b_row_terminal ag r nt :
  nt == 0 ->
  Forall (fun y => y == (clamp (V_min ag) (V_max ag) r - V_min ag) / delta_z ag)
         (b_row ag r nt).
Proof.
  intros Hnt. unfold b_row. rewrite map_fmap. apply Forall_fmap, Forall_forall.
  intros z _. unfold compose. cbv beta.
  set (t := discount ag ^ n ag). clearbody t.
  assert (E : r + nt * t * z == r) by (rewrite Hnt; ring).
  now rewrite (clamp_comp _ _ _ _ E).
Qed.

Lemma const_sources (c d x : Q) p : forall bb,
  length p = length bb -> Forall (fun y => y == x) bb ->
  Qsum (zip_with Qmult p (zip_with Qminus (map (fun _ => c) bb) bb))
  == (c - x) * Qsum p
  /\ Qsum (zip_with Qmult p (zip_with Qminus bb (map (fun _ => d) bb)))
     == (x - d) * Qsum p.
Proof.
  induction p as [|q p IH]; intros [|y bb] Hlen Hbb; try discriminate Hlen;
    cbn [map zip_with]; rewrite ?Qsum_nil, ?Qsum_cons.
  - split; ring.
  - inversion Hbb as [|? ? Hy Hbb']; subst.
    destruct (IH bb ltac:(simpl in Hlen; lia) Hbb') as [E1 E2].
    rewrite E1, E2, Hy. split; ring.
Qed.

Lemma project_row_constant ag r nt p x (j : nat) y :
  grid_ok ag -> length p = Z.to_nat (atoms ag) ->
  Forall (fun b => b == x) (b_row ag r nt) ->
  project_row ag r nt p !! j = Some y ->
  y == (if (lo x =? Z.of_nat j)%Z
        then (inject_Z (hi (atoms ag) x) - x) * Qsum p else 0)
       + (if (hi (atoms ag) x =? Z.of_nat j)%Z
          then (x - inject_Z (lo x)) * Qsum p else 0).
Proof.
  intros Hg Hp Hconst Hj.
  assert (Hlb : length p = length (b_row ag r nt)) by now rewrite length_b_row.
  assert (Hlo : map lo (b_row ag r nt) = map (fun _ => lo x) (b_row ag r nt)).
  { apply map_ext_in. intros b Hb. apply lo_comp.
    apply (proj1 (List.Forall_forall _ _) Hconst b Hb). }
  assert (Hhi : map (hi (atoms ag)) (b_row ag r nt)
                = map (fun _ => hi (atoms ag) x) (b_row ag r nt)).
  { apply map_ext_in. intros b Hb. apply hi_comp.
    apply (proj1 (List.Forall_forall _ _) Hconst b Hb). }
  destruct (length_sources ag r nt p Hg Hp) as [Hll Hlu].
  assert (Hjn : (j < Z.to_nat (atoms ag))%nat).
  { apply lookup_lt_Some in Hj. now rewrite length_project_row in Hj. }
  unfold project_row in Hj. cbv zeta in Hj.
  destruct (lookup_row_add (replicate (Z.to_nat (atoms ag)) 0)
              (map lo (b_row ag r nt)) (source_l ag r nt p) j 0) as (x1 & Hx1 & E1).
  { eapply in_row_nonneg, in_row_lo, Hg. }
  { now apply lookup_replicate_2. }
  destruct (lookup_row_add
              (row_add (replicate (Z.to_nat (atoms ag)) 0)
                       (map lo (b_row ag r nt)) (source_l ag r nt p))
              (map (hi (atoms ag)) (b_row ag r nt))
              (source_u ag r nt p) j x1) as (x2 & Hx2 & E2); [|exact Hx1|].
  { eapply in_row_nonneg, in_row_hi, Hg. }
  rewrite Hx2 in Hj. injection Hj as <-.
  assert (C1 := contrib_const (Z.of_nat j) (lo x) (map lo (b_row ag r nt))
                  (source_l ag r nt p)).
  assert (C2 := contrib_const (Z.of_nat j) (hi (atoms ag) x)
                  (map (hi (atoms ag)) (b_row ag r nt)) (source_u ag r nt p)).
  rewrite E2, E1, C1, C2.
  2:{ rewrite Hhi. apply Forall_fmap, Forall_forall. now intros. }
  2:{ now rewrite length_map, length_b_row, Hlu. }
  2:{ rewrite Hlo. apply Forall_fmap, Forall_forall. now intros. }
  2:{ now rewrite length_map, length_b_row, Hll. }
  unfold source_l, source_u. cbv zeta. rewrite Hlo, Hhi, !map_map.
  destruct (const_sources (inject_Z (hi (atoms ag) x)) (inject_Z (lo x)) x p
              (b_row ag r nt) Hlb Hconst) as [S1 S2].
  destruct (lo x =? Z.of_nat j)%Z, (hi (atoms ag) x =? Z.of_nat j)%Z;
    rewrite ?S1, ?S2; ring.
Qed.

End TerminalRows.

(** ** Concrete agents and estimators used as instances *)

Definition empty_net : Net := mkNet ∅ ∅ true true.

(** An agent over the grid of [atoms] points on [[vmin, vmax]], as
    [Agent.__init__] lays it out, with estimators that have no parameters. *)
Definition grid_agent (atoms : Z) (vmin vmax : Q) (B : nat) (n : Z) (discount : Q)
  : Agent :=
  mkAgent None atoms vmin vmax
    (Torch.linspace vmin vmax (Z.to_nat atoms))
    ((vmax - vmin) / inject_Z (atoms - 1))
    B n discount 10 2 empty_net empty_net (mkOptimiser Adam 0 0 ∅).

Lemma grid_agent_ok atoms vmin vmax B n discount :
  (2 <= atoms)%Z -> vmin < vmax ->
  grid_ok (grid_agent atoms vmin vmax B n discount).
Proof. intros HA HV. repeat split; assumption. Qed.

(** An estimator with one weight [w]: two actions over three atoms, the
    distributions mirrored for states whose first entry is positive; its
    log-probabilities are the stand-in [p - 1 <= log p]; its noise is a
    buffer drawn from the generator. *)
Definition toy_net (w noise : Q) : Net :=
  mkNet {["fc.weight"%string := [w]]} {["fc.noise"%string := [noise]]} true true.

Definition toy_weight (net : Net) : Q :=
  match parameters net !! "fc.weight"%string with
  | Some (w :: _) => w
  | _ => 0
  end.

Definition toy_forward (net : Net) (s : Obs) : list (list Q) :=
  let w := toy_weight net in
  if Qle_bool (hd 0 s) 0
  then [[1 - w; w; 0]; [0; w; 1 - w]]
  else [[0; w; 1 - w]; [1 - w; w; 0]].

Definition toy_estimator : Estimator :=
  mkEstimator
    (fun _ _ rng => inr (toy_net 0 0, N.succ rng))
    toy_forward
    (fun net s => map (map (fun p => p - 1)) (toy_forward net s))
    (fun net rng =>
       (mkNet (parameters net)
              (<["fc.noise"%string := [inject_Z (Z.of_N rng)]]> (buffers net))
              (training net) (requires_grad net),
        N.succ rng)).

(** Gradients that repeat the objective's value, no clipping, and a plain
    gradient step. *)
Definition toy_autograd : Autograd :=
  mkAutograd
    (fun J net => (fun t => map (fun _ => J net) t) <$> parameters net)
    (fun grads _ => grads)
    (fun opt params grads =>
       (opt,
        map_imap (fun k t =>
                    Some match grads !! k with
                         | Some g => zip_with (fun x d => x - opt_lr opt * d) t g
                         | None => t
                         end) params)).

Definition toy_agent : Agent :=
  mkAgent None 3 (-1) 1 (Torch.linspace (-1) 1 3) ((1 - -1) / inject_Z (3 - 1))
          2 3 (1 # 2) 10 2 (toy_net (1 # 4) 0) (toy_net (1 # 2) 0)
          (mkOptimiser Adam (1 # 10) 0 ∅).

Definition toy_batch : Batch :=
  mkBatch [7; 3]%Z [[0]; [1]] [0; 1]%Z [0; 1 # 3] [[1]; [-1]] [0; 1] [1; 1 # 2].

Lemma toy_agent_ok : grid_ok toy_agent.
Proof. repeat split; first [cbn; lia | reflexivity]. Qed.

Lemma toy_estimator_shape : estimator_shape toy_estimator toy_agent.
Proof.
  intros net s. cbn [forward forward_log toy_estimator]. unfold toy_forward.
  destruct (Qle_bool (hd 0 s) 0); repeat split; repeat constructor.
Qed.

Lemma toy_batch_shape : sample_shape toy_agent toy_batch.
Proof. repeat split; repeat constructor; cbn; lia. Qed.

Lemma toy_same_architecture w1 n1 w2 n2 :
  same_architecture (toy_net w1 n1) (toy_net w2 n2).
Proof.
  split; [reflexivity|]. split; [reflexivity|].
  unfold state_dict, toy_net. cbn [parameters buffers]. intros k t t' H1 H2.
  apply lookup_union_Some_raw in H1 as [H1|[_ H1]];
      apply lookup_singleton_Some in H1 as [<- <-];
      apply lookup_union_Some_raw in H2 as [H2|[_ H2]];
      apply lookup_singleton_Some in H2 as [E <-]; reflexivity || discriminate E.
Qed.

(** A file system with one file, an old checkpoint under the legacy names. *)
Definition legacy_checkpoint : gmap string Tensor :=
  list_to_map
    [("conv1.weight", [1; 2]); ("conv1.bias", [3]);
     ("conv2.weight", [4; 5]); ("conv2.bias", [6]);
     ("conv3.weight", [7; 8]); ("conv3.bias", [9]);
     ("fc.weight", [1 # 2])]%string.

Definition toy_fs : FileSystem :=
  mkFileSystem
    (fun dir name => (dir +:+ "/" +:+ name)%string)
    (fun path => String.eqb path "results/old.pth")
    (fun path => if String.eqb path "results/old.pth"
                 then inr legacy_checkpoint
                 else inl (FileNotFoundError path)).

Definition toy_args (model : option string) : Args :=
  mkArgs 3 (-1) 1 2 3 (1 # 2) 10 model "canonical" (1 # 10) (1 # 100).

Lemma toy_names_disjoint w nz :
  dom (parameters (toy_net w nz)) ## dom (buffers (toy_net w nz)).
Proof.
  unfold toy_net. cbn [parameters buffers]. rewrite !dom_singleton_L.
  apply disjoint_singleton_l. rewrite elem_of_singleton. discriminate.
Qed.

(** A file system whose one file is a checkpoint of the one-weight estimator. *)
Definition trained_checkpoint : gmap string Tensor :=
  {["fc.weight"%string := [3 # 4]]} ∪ {["fc.noise"%string := [1]]}.

Definition trained_fs : FileSystem :=
  mkFileSystem
    (fun dir name => (dir +:+ "/" +:+ name)%string)
    (fun path => String.eqb path "results/model.pth")
    (fun path => inr trained_checkpoint).

Lemma trained_checkpoint_fits k t t' :
  trained_checkpoint !! k = Some t -> state_dict (toy_net 0 0) !! k = Some t' ->
  length t = length t'.
Proof.
  unfold trained_checkpoint, state_dict, toy_net. cbn [parameters buffers].
  intros H1 H2.
  apply lookup_union_Some_raw in H1 as [H1|[_ H1]];
    apply lookup_singleton_Some in H1 as [<- <-];
    apply lookup_union_Some_raw in H2 as [H2|[_ H2]];
    apply lookup_singleton_Some in H2 as [E <-]; reflexivity || discriminate E.
Qed.

Lemma toy_target_distributions s :
  Forall (fun d => Forall (Qle 0) d /\ Torch.Qsum d == 1)
         (forward toy_estimator
                  (net_reset_noise toy_estimator (target_net toy_agent) 5%N).1 s).
Proof.
  cbn [forward toy_estimator]. unfold toy_forward.
  destruct (Qle_bool (hd 0 s) 0); repeat constructor; try discriminate.
Qed.

Lemma toy_online_log_probabilities s :
  Forall (Forall (fun x => x <= 0))
         (forward_log toy_estimator (online_net toy_agent) s).
Proof.
  cbn [forward_log toy_estimator]. unfold toy_forward.
  destruct (Qle_bool (hd 0 s) 0); repeat constructor; discriminate.
Qed.

(** * The claims *)

Section Claims.
Import Torch Projection Neighbours Rows RowProjection.

(** C1. On a grid of at least two atoms with [V_min < V_max], for a batch of
    the declared shape and a non-negative [pns_a], the projection step
    returns a target [m] (no index fault) with one row per sample, and every
    row [b] satisfies [sum(m[b,:]) == sum(pns_a[b,:])] with all entries
    non-negative. *)
Theorem projection_conserves_mass ag returns nonterminals pns_a :
  grid_ok ag ->
  batch_shape ag returns nonterminals pns_a ->
  Forall (Forall (Qle 0)) pns_a ->
  exists m,
    distribute ag returns nonterminals pns_a = inr m
    /\ length m = batch_size ag
    /\ forall (k : nat) (row p : list Q),
         m !! k = Some row -> pns_a !! k = Some p ->
         Qsum row == Qsum p /\ Forall (Qle 0) row.
Proof.
  intros Hg Hs Hp. exists (project_rows ag returns nonterminals pns_a).
  split; [now apply distribute_rows|].
  destruct Hs as (Hr & Hn & Hl & Hcols). split.
  { unfold project_rows. rewrite length_zip_with, length_zip. lia. }
  intros k row p Hrow Hpk.
  apply project_rows_inv in Hrow as (r & nt & p' & _ & _ & Hp' & ->).
  assert (p' = p) by congruence; subst p'.
  split.
  - apply Qsum_project_row; [assumption|].
    now apply (proj1 (Forall_lookup _ _) Hcols k p).
  - apply project_row_nonneg; [assumption|].
    now apply (proj1 (Forall_lookup _ _) Hp k p).
Qed.

(** The instance behind C1: three atoms on [[-1, 1]], two samples, one
    terminal and one not. *)
Lemma projection_conserves_mass_witness :
  exists m,
    distribute (grid_agent 3 (-1) 1 2 3 (1 # 2)) [0; 1 # 3] [0; 1]
               [[0; 1; 0]; [1 # 4; 1 # 2; 1 # 4]] = inr m
    /\ length m = 2%nat
    /\ forall (k : nat) (row p : list Q),
         m !! k = Some row ->
         [[0; 1; 0]; [1 # 4; 1 # 2; 1 # 4]] !! k = Some p ->
         Qsum row == Qsum p /\ Forall (Qle 0) row.
Proof.
  apply (projection_conserves_mass (grid_agent 3 (-1) 1 2 3 (1 # 2))).
  - apply grid_agent_ok; [lia | reflexivity].
  - repeat split; repeat constructor.
  - repeat constructor; discriminate.
Defined.

(** C5. When the Bellman-shifted value of every atom of row [k] exceeds
    [V_max], the projection puts the row's whole mass [sum(pns_a[k,:])] on
    the last atom and zero on every other atom. *)
Theorem saturated_row_on_last_atom ag returns nonterminals pns_a (k : nat) tz p :
  grid_ok ag ->
  batch_shape ag returns nonterminals pns_a ->
  bellman ag returns nonterminals !! k = Some tz ->
  Forall (fun t => V_max ag < t) tz ->
  pns_a !! k = Some p ->
  exists m row,
    distribute ag returns nonterminals pns_a = inr m
    /\ m !! k = Some row
    /\ length row = Z.to_nat (atoms ag)
    /\ forall (j : nat) (x : Q), row !! j = Some x ->
         if decide (j = Z.to_nat (atoms ag - 1)) then x == Qsum p else x == 0.
Proof.
  intros Hg Hs Htz Hsat Hp.
  assert (HA : (2 <= atoms ag)%Z) by now destruct Hg.
  unfold bellman in Htz. rewrite lookup_zip_with in Htz.
  destruct (returns !! k) as [r|] eqn:Hr; [|discriminate].
  destruct (nonterminals !! k) as [nt|] eqn:Hn; [|discriminate].
  injection Htz as <-.
  assert (Hcols : length p = Z.to_nat (atoms ag)).
  { destruct Hs as (_ & _ & _ & Hc). now apply (proj1 (Forall_lookup _ _) Hc k p). }
  exists (project_rows ag returns nonterminals pns_a), (project_row ag r nt p).
  split; [now apply distribute_rows|].
  split; [now apply lookup_project_rows|].
  split.
  { unfold project_row. now rewrite !length_row_add, length_replicate. }
  intros j x Hj.
  apply (project_row_landing ag r nt p (atoms ag - 1) j x); try assumption; [lia|].
  apply b_row_saturated; [assumption|].
  rewrite map_fmap in Hsat. exact (proj1 (Forall_fmap _ _ _) Hsat).
Qed.

(** The instance behind C5: three atoms on [[-1, 1]]; the first sample has
    return [5], so its clamped support is [V_max] throughout. *)
Lemma saturated_row_on_last_atom_witness :
  exists m row,
    distribute (grid_agent 3 (-1) 1 2 3 (1 # 2)) [5; 0] [1; 0]
               [[1 # 4; 1 # 2; 1 # 4]; [0; 1; 0]] = inr m
    /\ m !! 0%nat = Some row
    /\ length row = 3%nat
    /\ forall (j : nat) (x : Q), row !! j = Some x ->
         if decide (j = 2%nat) then x == Qsum [1 # 4; 1 # 2; 1 # 4] else x == 0.
Proof.
  apply (saturated_row_on_last_atom (grid_agent 3 (-1) 1 2 3 (1 # 2))
           [5; 0] [1; 0] [[1 # 4; 1 # 2; 1 # 4]; [0; 1; 0]] 0
           (map (fun z => 5 + 1 * ((1 # 2) ^ 3) * z) (linspace (-1) 1 3))).
  - apply grid_agent_ok; [lia | reflexivity].
  - repeat split; repeat constructor.
  - reflexivity.
  - repeat constructor.
  - reflexivity.
Defined.

(** C2, as the claim states it, fails: the coordinate of the terminal sample
    lands on atom 1 of the three-atom grid and the projected target is
    [[0, 1, 0]], not [[0.5, 0, 0.5]]; on the five-atom grid a coordinate on
    atom 2 leaves the mass on atom 2, with nothing on atoms 1 and 3. *)
Lemma exact_landing_counterexample :
  (exists row,
     distribute (grid_agent 3 (-1) 1 1 3 (99 # 100)) [0] [0] [[0; 1; 0]] = inr [row]
     /\ Forall2 Qeq row [0; 1; 0]
     /\ ~ Forall2 Qeq row [1 # 2; 0; 1 # 2])
  /\ (exists row,
        distribute (grid_agent 5 (-2) 2 1 3 (99 # 100)) [0] [0] [[0; 0; 1; 0; 0]]
        = inr [row]
        /\ Forall2 Qeq row [0; 0; 1; 0; 0]).
Proof.
  split.
  - eexists. split; [vm_compute; reflexivity|]. split.
    + repeat constructor.
    + intros H. inversion H as [|? ? ? ? H0 _]. discriminate H0.
  - eexists. split; [vm_compute; reflexivity|]. repeat constructor.
Qed.

(** C2, amended. When the grid coordinate [b[k,i]] of one value lands
    exactly on grid point [a], the neighbour fix gives it [l = a - 1],
    [u = a] (or [l = 0], [u = 1] when [a = 0]) and the weights
    [(u - b, b - l) = (0, 1)] (or [(1, 0)] when [a = 0]): the whole mass
    [pns_a[k,i]] of that value is assigned to atom [a] itself and nothing of
    it to any other atom, that is, row [k] of the target is the row computed
    with [pns_a[k,i]] set to zero plus [pns_a[k,i]] on atom [a]. *)
Theorem exact_landing_keeps_mass ag returns nonterminals pns_a (k i : nat)
    bk x (a : Z) p q :
  grid_ok ag ->
  batch_shape ag returns nonterminals pns_a ->
  b ag returns nonterminals !! k = Some bk ->
  bk !! i = Some x -> x == inject_Z a ->
  pns_a !! k = Some p -> p !! i = Some q ->
  (0 <= a <= atoms ag - 1)%Z
  /\ (exists lk uk li ui,
        l ag returns nonterminals !! k = Some lk
        /\ u ag returns nonterminals !! k = Some uk
        /\ lk !! i = Some li /\ uk !! i = Some ui
        /\ li = (if (0 <? a)%Z then (a - 1)%Z else 0%Z)
        /\ ui = (if (0 <? a)%Z then a else 1%Z)
        /\ inject_Z ui - x == (if (0 <? a)%Z then 0 else 1)
        /\ x - inject_Z li == (if (0 <? a)%Z then 1 else 0))
  /\ exists m m' row row',
       distribute ag returns nonterminals pns_a = inr m
       /\ distribute ag returns nonterminals (<[k := <[i := 0]> p]> pns_a) = inr m'
       /\ m !! k = Some row /\ m' !! k = Some row'
       /\ length row = Z.to_nat (atoms ag)
       /\ forall (j : nat) y y', row !! j = Some y -> row' !! j = Some y' ->
            y == y' + (if decide (j = Z.to_nat a) then q else 0).
Proof.
  intros Hg Hs Hbk Hx Hxa Hp Hq.
  assert (HA : (2 <= atoms ag)%Z) by now destruct Hg.
  pose proof Hbk as Hbk0.
  rewrite b_rows, lookup_zip_with in Hbk.
  destruct (returns !! k) as [r|] eqn:Hr; [|discriminate].
  destruct (nonterminals !! k) as [nt|] eqn:Hn; [|discriminate].
  injection Hbk as <-.
  assert (Hcols : length p = Z.to_nat (atoms ag)).
  { destruct Hs as (_ & _ & _ & Hc). now apply (proj1 (Forall_lookup _ _) Hc k p). }
  assert (Ha : (0 <= a <= atoms ag - 1)%Z).
  { destruct (proj1 (Forall_lookup _ _) (b_row_range ag r nt Hg) i x Hx) as [H0 H1].
    rewrite Hxa in H0, H1. change 0 with (inject_Z 0) in H0.
    rewrite <- Zle_Qle in H0, H1. lia. }
  destruct (neighbours_on_grid (atoms ag) a x HA Ha Hxa) as [Hlo Hhi].
  split; [exact Ha|]. split.
  - exists (map lo (b_row ag r nt)), (map (hi (atoms ag)) (b_row ag r nt)),
           (lo x), (hi (atoms ag) x).
    rewrite l_rows, u_rows, !map_fmap, !list_lookup_fmap, Hbk0.
    rewrite Hx. do 4 (split; [reflexivity|]).
    split; [exact Hlo|]. split; [exact Hhi|].
    rewrite Hlo, Hhi, Hxa. destruct (Z.ltb_spec 0 a).
    + assert (Hm : inject_Z (a - 1) == inject_Z a - 1).
      { unfold Z.sub. rewrite inject_Z_plus, inject_Z_opp. reflexivity. }
      rewrite Hm. split; ring.
    + assert (a = 0%Z) by lia. subst a.
      change (inject_Z 0) with 0. change (inject_Z 1) with 1. split; ring.
  - assert (Hs' : batch_shape ag returns nonterminals (<[k := <[i := 0]> p]> pns_a)).
    { destruct Hs as (H1 & H2 & H3 & H4). repeat split; try assumption.
      - now rewrite length_insert.
      - apply Forall_insert; [assumption|]. now rewrite length_insert. }
    exists (project_rows ag returns nonterminals pns_a),
           (project_rows ag returns nonterminals (<[k := <[i := 0]> p]> pns_a)),
           (project_row ag r nt p), (project_row ag r nt (<[i := 0]> p)).
    split; [now apply distribute_rows|]. split; [now apply distribute_rows|].
    split; [now apply lookup_project_rows|].
    split.
    { apply lookup_project_rows; try assumption.
      apply list_lookup_insert_eq. now apply lookup_lt_Some in Hp. }
    split; [apply length_project_row|].
    intros j y y' Hy Hy'.
    now apply (project_row_single ag r nt p i q x a j y y').
Qed.

(** The instance behind the amended C2: coordinates [[1/2, 1, 3/2]], of which
    only the middle one lands on a grid point. *)
Lemma exact_landing_keeps_mass_witness :
  (0 <= 1 <= 3 - 1)%Z
  /\ (exists lk uk li ui,
        l (grid_agent 3 (-1) 1 1 1 (1 # 2)) [0] [1] !! 0%nat = Some lk
        /\ u (grid_agent 3 (-1) 1 1 1 (1 # 2)) [0] [1] !! 0%nat = Some uk
        /\ lk !! 1%nat = Some li /\ uk !! 1%nat = Some ui
        /\ li = 0%Z /\ ui = 1%Z
        /\ inject_Z ui - 1 == 0
        /\ 1 - inject_Z li == 1)
  /\ exists m m' row row',
       distribute (grid_agent 3 (-1) 1 1 1 (1 # 2)) [0] [1]
                  [[1 # 4; 1 # 2; 1 # 4]] = inr m
       /\ distribute (grid_agent 3 (-1) 1 1 1 (1 # 2)) [0] [1]
                     [[1 # 4; 0; 1 # 4]] = inr m'
       /\ m !! 0%nat = Some row /\ m' !! 0%nat = Some row'
       /\ length row = 3%nat
       /\ forall (j : nat) y y', row !! j = Some y -> row' !! j = Some y' ->
            y == y' + (if decide (j = 1%nat) then 1 # 2 else 0).
Proof.
  destruct (exact_landing_keeps_mass (grid_agent 3 (-1) 1 1 1 (1 # 2)) [0] [1]
              [[1 # 4; 1 # 2; 1 # 4]] 0 1
              (map (fun z => (clamp (-1) 1 (0 + 1 * ((1 # 2) ^ 1) * z) - -1)
                             / ((1 - -1) / inject_Z (3 - 1)))
                   (linspace (-1) 1 3))
              ((clamp (-1) 1
                  (0 + 1 * ((1 # 2) ^ 1)
                       * (-1 + inject_Z 1 * ((1 - -1) / inject_Z (3 - 1)))) - -1)
               / ((1 - -1) / inject_Z (3 - 1)))
              1 [1 # 4; 1 # 2; 1 # 4] (1 # 2))
    as (Ha & (lk & uk & li & ui & Hl & Hu & Hli & Hui & Eli & Eui & _) & Hm).
  - apply grid_agent_ok; [lia | reflexivity].
  - repeat split; repeat constructor.
  - reflexivity.
  - reflexivity.
  - vm_compute. reflexivity.
  - reflexivity.
  - reflexivity.
  - split; [exact Ha|]. split; [|exact Hm].
    exists lk, uk, li, ui. do 4 (split; [assumption|]).
    split; [exact Eli|]. split; [exact Eui|].
    rewrite Eli, Eui. split; vm_compute; reflexivity.
Defined.

End Claims.

Section LearnClaims.
Import Torch Learn Projection RowProjection.

(** C3. For a batch of the promised shape [learn] returns, and for every
    row [b] the bootstrap action [argmax_indices_ns[b]] is the first action
    [a] that maximises [sum_i support[i] * pns[b,a,i]], where [pns] is the
    online estimator's distribution of the next state, while [pns_a[b,:]] is
    the distribution at that action of the target estimator as it is after
    its noise was resampled. *)
Theorem double_q_selection E G ag rng batch :
  grid_ok ag -> (0 < action_space ag)%nat ->
  estimator_shape E ag -> sample_shape ag batch ->
  exists out,
    learn E G ag rng batch = inr out
    /\ let target := (net_reset_noise E (target_net ag) rng).1 in
       loc_target_net (out_locals out) = target
       /\ target_net (out_agent out) = target
       /\ length (loc_argmax_indices_ns (out_locals out)) = batch_size ag
       /\ length (loc_pns_a (out_locals out)) = batch_size ag
       /\ forall (b : nat) s, next_states batch !! b = Some s ->
            exists (a : nat) pns_ba row,
              loc_argmax_indices_ns (out_locals out) !! b = Some a
              /\ forward E (online_net ag) s !! a = Some pns_ba
              /\ (forall (a' : nat) pns_ba',
                    forward E (online_net ag) s !! a' = Some pns_ba' ->
                    Qsum (zip_with Qmult (support ag) pns_ba')
                    <= Qsum (zip_with Qmult (support ag) pns_ba)
                    /\ ((a' < a)%nat ->
                        Qsum (zip_with Qmult (support ag) pns_ba')
                        < Qsum (zip_with Qmult (support ag) pns_ba)))
              /\ forward E target s !! a = Some row
              /\ loc_pns_a (out_locals out) !! b = Some row.
Proof.
  intros Hg Hact HE Hs.
  destruct (learn_returns E G ag rng batch Hg Hact HE Hs) as [out Hout].
  exists out. split; [assumption|].
  destruct (learn_selection E G ag rng batch out Hs Hout) as (Hlam & Hlpa & Hsel).
  destruct (learn_inv _ _ _ _ _ _ Hout)
    as (lp & am & pa & m & _ & _ & _ & _ & Hloc & _ & Htgt & _).
  cbv zeta. split; [now rewrite Hloc|]. split; [assumption|].
  split; [assumption|]. split; [assumption|].
  intros b s Hb. destruct (Hsel b s Hb) as (a & row & Ha & Harg & Hrow & Hpa).
  destruct (is_argmax_sums _ _ _ Harg) as (pns_ba & Hba & Hmax).
  exists a, pns_ba, row. split; [assumption|]. split; [assumption|].
  split; [exact Hmax|]. split; assumption.
Qed.

(** The instance behind C3: the online estimator prefers action 0 on the
    first next state and action 1 on the second, and [pns_a] holds the target
    estimator's rows for these actions. *)
Lemma double_q_selection_witness :
  exists out,
    learn toy_estimator toy_autograd toy_agent 5%N toy_batch = inr out
    /\ loc_argmax_indices_ns (out_locals out) = [0%nat; 1%nat]
    /\ loc_pns_a (out_locals out) = [[0; 1 # 2; 1 # 2]; [0; 1 # 2; 1 # 2]].
Proof.
  destruct (double_q_selection toy_estimator toy_autograd toy_agent 5%N toy_batch
              toy_agent_ok ltac:(cbn; lia) toy_estimator_shape toy_batch_shape)
    as (out & Hout & _ & _ & Hlam & Hlpa & Hsel).
  exists out. split; [exact Hout|].
  destruct (Hsel 0%nat [1] eq_refl) as (a0 & p0 & r0 & Ha0 & Hp0 & Hmax0 & Hr0 & Hpa0).
  destruct (Hsel 1%nat [-1] eq_refl) as (a1 & p1 & r1 & Ha1 & Hp1 & Hmax1 & Hr1 & Hpa1).
  assert (a0 = 0%nat).
  { destruct a0 as [|[|a0]]; [reflexivity| |discriminate Hp0].
    injection Hp0 as <-.
    destruct (Hmax0 0%nat _ eq_refl) as [Hle _]. vm_compute in Hle.
    exfalso. apply Hle. reflexivity. }
  assert (a1 = 1%nat).
  { destruct a1 as [|[|a1]]; [|reflexivity|discriminate Hp1].
    injection Hp1 as <-.
    destruct (Hmax1 1%nat _ eq_refl) as [Hle _]. vm_compute in Hle.
    exfalso. apply Hle. reflexivity. }
  subst a0 a1. injection Hr0 as <-. injection Hr1 as <-.
  destruct (loc_argmax_indices_ns (out_locals out)) as [|x [|y [|? ?]]];
    try discriminate Hlam.
  destruct (loc_pns_a (out_locals out)) as [|x' [|y' [|? ?]]];
    try discriminate Hlpa.
  injection Ha0 as ->. injection Ha1 as ->. injection Hpa0 as ->. injection Hpa1 as ->.
  split; reflexivity.
Defined.

(** C4. For a batch of the promised shape [learn] returns with
    [log_ps_a[b,:] = log_ps[b, actions[b], :]] of the online estimator, the
    per-sample loss [loss[b] = -sum_i m[b,i] * log_ps_a[b,i]] on the projected
    target [m], and the backpropagated scalar is
    [mean_b(weights[b] * loss[b])], differentiated at the online estimator. *)
Theorem weighted_cross_entropy E G ag rng batch :
  grid_ok ag -> (0 < action_space ag)%nat ->
  estimator_shape E ag -> sample_shape ag batch ->
  exists out,
    learn E G ag rng batch = inr out
    /\ let loc := out_locals out in
       (forall (b : nat) s a, states batch !! b = Some s -> actions batch !! b = Some a ->
          exists lrow, index (forward_log E (online_net ag) s) a = inr lrow
                       /\ loc_log_ps_a loc !! b = Some lrow)
       /\ distribute ag (returns batch) (nonterminals batch) (loc_pns_a loc)
          = inr (loc_m loc)
       /\ length (loc_loss loc) = batch_size ag
       /\ (forall (b : nat) mrow lrow,
             loc_m loc !! b = Some mrow -> loc_log_ps_a loc !! b = Some lrow ->
             loc_loss loc !! b = Some (- Qsum (zip_with Qmult mrow lrow)))
       /\ loc_objective loc (online_net ag)
          = mean (zip_with Qmult (weights batch) (loc_loss loc))
       /\ loc_grads loc
          = clip_grad_norm_ G (backward G (loc_objective loc) (online_net ag))
                            (norm_clip ag).
Proof.
  intros Hg Hact HE Hs.
  destruct (learn_returns E G ag rng batch Hg Hact HE Hs) as [out Hout].
  exists out. split; [assumption|].
  destruct (learn_lengths _ _ _ _ _ _ Hg Hs Hout) as (_ & _ & Hlen).
  destruct (learn_inv _ _ _ _ _ _ Hout)
    as (lp & am & pa & m & Hlp & _ & _ & Hm & Hloc & _).
  cbv zeta. rewrite Hloc in Hlen |- *.
  cbn [loc_log_ps_a loc_pns_a loc_m loc_loss loc_objective loc_grads] in Hlen |- *.
  repeat split.
  - intros b s a Hb Ha.
    destruct (gather_spec _ _ _ _ Hlp) as (_ & _ & Hrows).
    destruct (Hrows b b) as (row & c & x & Hrow & Hc & Hidx & Hx).
    { apply lookup_seq. split; [reflexivity|].
      destruct Hs as (Hst & _). apply lookup_lt_Some in Hb. lia. }
    rewrite map_fmap, list_lookup_fmap, Hb in Hrow. injection Hrow as <-.
    assert (c = a) by congruence; subst c. now exists x.
  - assumption.
  - assumption.
  - intros b mrow lrow Hmb Hlb. unfold loss.
    now rewrite lookup_zip_with, Hmb, Hlb.
  - unfold objective. now rewrite Hlp.
Qed.

(** The instance behind C4. *)
Lemma weighted_cross_entropy_witness :
  exists out,
    learn toy_estimator toy_autograd toy_agent 5%N toy_batch = inr out
    /\ let loc := out_locals out in
       (forall (b : nat) s a,
          states toy_batch !! b = Some s -> actions toy_batch !! b = Some a ->
          exists lrow,
            index (forward_log toy_estimator (online_net toy_agent) s) a = inr lrow
            /\ loc_log_ps_a loc !! b = Some lrow)
       /\ distribute toy_agent (returns toy_batch) (nonterminals toy_batch)
                     (loc_pns_a loc) = inr (loc_m loc)
       /\ length (loc_loss loc) = 2%nat
       /\ (forall (b : nat) mrow lrow,
             loc_m loc !! b = Some mrow -> loc_log_ps_a loc !! b = Some lrow ->
             loc_loss loc !! b = Some (- Qsum (zip_with Qmult mrow lrow)))
       /\ loc_objective loc (online_net toy_agent)
          = mean (zip_with Qmult (weights toy_batch) (loc_loss loc))
       /\ loc_grads loc
          = clip_grad_norm_ toy_autograd
              (backward toy_autograd (loc_objective loc) (online_net toy_agent))
              (norm_clip toy_agent).
Proof.
  apply (weighted_cross_entropy toy_estimator toy_autograd toy_agent 5%N toy_batch).
  - exact toy_agent_ok.
  - cbn; lia.
  - exact toy_estimator_shape.
  - exact toy_batch_shape.
Defined.

(** C10. For a batch of the promised shape [learn] returns having called
    [mem.sample] and then [mem.update_priorities] exactly once, with the
    batch's [idxs] and one value per sample: the cross-entropy
    [-sum_i m[b,i] * log_ps_a[b,i]] of the target [m] projected from the
    target estimator's distribution at the selected action and the online
    estimator's log-probabilities at the taken action, not the batch mean.
    The values are non-negative when [m] is non-negative and the
    log-probabilities are non-positive, and a batch that differs only in its
    importance weights reports the same priorities. *)
Theorem priorities_are_unweighted_losses E G ag rng batch :
  grid_ok ag -> (0 < action_space ag)%nat ->
  estimator_shape E ag -> sample_shape ag batch ->
  exists out,
    learn E G ag rng batch = inr out
    /\ let loc := out_locals out in
       out_mem_calls out
       = [Sample (batch_size ag); UpdatePriorities (idxs batch) (loc_loss loc)]
       /\ length (filter is_update_priorities (out_mem_calls out)) = 1%nat
       /\ length (loc_loss loc) = batch_size ag
       /\ (forall (b : nat) s, next_states batch !! b = Some s ->
             exists (a : nat) row,
               loc_argmax_indices_ns loc !! b = Some a
               /\ forward E (net_reset_noise E (target_net ag) rng).1 s !! a
                  = Some row
               /\ loc_pns_a loc !! b = Some row)
       /\ distribute ag (returns batch) (nonterminals batch) (loc_pns_a loc)
          = inr (loc_m loc)
       /\ (forall (b : nat) s a,
             states batch !! b = Some s -> actions batch !! b = Some a ->
             exists lrow mrow,
               index (forward_log E (online_net ag) s) a = inr lrow
               /\ loc_log_ps_a loc !! b = Some lrow
               /\ loc_m loc !! b = Some mrow
               /\ loc_loss loc !! b = Some (- Qsum (zip_with Qmult mrow lrow)))
       /\ (Forall (Forall (Qle 0)) (loc_m loc) ->
           Forall (Forall (fun x => x <= 0)) (loc_log_ps_a loc) ->
           Forall (Qle 0) (loc_loss loc))
       /\ forall w', length w' = batch_size ag ->
            exists out',
              learn E G ag rng (with_weights w' batch) = inr out'
              /\ out_mem_calls out' = out_mem_calls out.
Proof.
  intros Hg Hact HE Hs.
  destruct (learn_returns E G ag rng batch Hg Hact HE Hs) as [out Hout].
  exists out. split; [assumption|].
  destruct (learn_lengths _ _ _ _ _ _ Hg Hs Hout) as (_ & _ & Hlen).
  destruct (learn_selection E G ag rng batch out Hs Hout) as (_ & _ & Hsel).
  destruct (learn_cross_entropy E G ag rng batch out Hg Hs Hout) as (Hdist & Hce).
  destruct (learn_inv _ _ _ _ _ _ Hout)
    as (lp & am & pa & m & Hlp & Ham & Hpa & Hm & Hloc & Hcalls & _).
  cbv zeta. split; [now rewrite Hcalls, Hloc|].
  split; [now rewrite Hcalls|]. split; [assumption|].
  split.
  { intros b s Hb. destruct (Hsel b s Hb) as (a & row & Ha & _ & Hrow & Hpab).
    now exists a, row. }
  split; [assumption|]. split; [assumption|].
  split.
  { rewrite Hloc. cbn [loc_log_ps_a loc_m loc_loss]. apply loss_nonneg. }
  intros w' Hw'.
  destruct (learn_returns E G ag rng (with_weights w' batch) Hg Hact HE)
    as [out' Hout'].
  { destruct Hs as (H1 & H2 & H3 & H4 & H5 & _ & H7). repeat split; assumption. }
  exists out'. split; [assumption|].
  destruct (learn_inv _ _ _ _ _ _ Hout')
    as (lp' & am' & pa' & m' & Hlp' & Ham' & Hpa' & Hm' & _ & Hcalls' & _).
  rewrite Hcalls', Hcalls. cbn [idxs with_weights].
  change (log_ps_a E ag (online_net ag) (with_weights w' batch))
    with (log_ps_a E ag (online_net ag) batch) in Hlp'.
  change (argmax_indices_ns E ag (with_weights w' batch))
    with (argmax_indices_ns E ag batch) in Ham'.
  assert (lp' = lp) by congruence. assert (am' = am) by congruence. subst lp' am'.
  change (pns_a E ag (net_reset_noise E (target_net ag) rng).1
            (with_weights w' batch) am)
    with (pns_a E ag (net_reset_noise E (target_net ag) rng).1 batch am) in Hpa'.
  assert (pa' = pa) by congruence. subst pa'.
  cbn [returns nonterminals with_weights] in Hm'.
  assert (m' = m) by congruence. now subst m'.
Qed.

(** The instance behind C10: the reported priorities are [3/4] and
    [163/192], with these and with other importance weights. *)
Lemma priorities_are_unweighted_losses_witness :
  exists out,
    learn toy_estimator toy_autograd toy_agent 5%N toy_batch = inr out
    /\ out_mem_calls out
       = [Sample 2; UpdatePriorities [7; 3]%Z (loc_loss (out_locals out))]
    /\ Forall2 Qeq (loc_loss (out_locals out)) [3 # 4; 163 # 192]
    /\ Forall (Qle 0) (loc_loss (out_locals out))
    /\ exists out',
         learn toy_estimator toy_autograd toy_agent 5%N
               (with_weights [3; 4] toy_batch) = inr out'
         /\ out_mem_calls out' = out_mem_calls out.
Proof.
  destruct (priorities_are_unweighted_losses toy_estimator toy_autograd toy_agent
              5%N toy_batch toy_agent_ok ltac:(cbn; lia) toy_estimator_shape
              toy_batch_shape)
    as (out & Hout & Hcalls & _ & _ & _ & _ & _ & Hnonneg & Hw).
  exists out. split; [exact Hout|]. split; [exact Hcalls|].
  assert (Hvals : Forall2 Qeq (loc_loss (out_locals out)) [3 # 4; 163 # 192]
                  /\ Forall (Qle 0) (loc_loss (out_locals out))).
  { destruct (learn_inv _ _ _ _ _ _ Hout)
      as (lp & am & pa & m & Hlp & Ham & Hpa & Hm & Hloc & _).
    rewrite Hloc in Hnonneg |- *. cbn [loc_log_ps_a loc_m loc_loss] in Hnonneg |- *.
    vm_compute in Hlp. injection Hlp as <-.
    vm_compute in Ham. injection Ham as <-.
    vm_compute in Hpa. injection Hpa as <-.
    vm_compute in Hm. injection Hm as <-.
    split.
    - repeat constructor; vm_compute; reflexivity.
    - apply Hnonneg; repeat constructor; discriminate. }
  split; [exact (proj1 Hvals)|]. split; [exact (proj2 Hvals)|].
  apply Hw. reflexivity.
Defined.

End LearnClaims.

Section AgentClaims.
Import Torch Learn Projection RowProjection.

(** C6. For two estimators of the same architecture, [update_target_net]
    returns, every parameter of the target estimator then equals the online
    estimator's parameter of that name, and the online estimator is the one
    it was before the call. *)
Theorem update_target_net_copies ag :
  same_architecture (online_net ag) (target_net ag) ->
  exists ag',
    update_target_net ag = inr ag'
    /\ parameters (target_net ag') = parameters (online_net ag)
    /\ (forall k, parameters (target_net ag') !! k = parameters (online_net ag') !! k)
    /\ online_net ag' = online_net ag.
Proof.
  intros Hsame. unfold update_target_net, bind.
  rewrite (load_state_dict_same_architecture _ _ Hsame).
  eexists. split; [reflexivity|]. cbn [target_net online_net set_nets parameters].
  assert (E : map_imap (fun k (_ : Tensor) => state_dict (online_net ag) !! k)
                (parameters (target_net ag)) = parameters (online_net ag)).
  { unfold state_dict. apply loaded_parameters. symmetry. now destruct Hsame. }
  repeat split; [exact E | intros k; now rewrite E].
Qed.

(** The instance behind C6: the one-weight estimators, with different weights. *)
Lemma update_target_net_copies_witness :
  exists ag',
    update_target_net toy_agent = inr ag'
    /\ parameters (target_net ag') = parameters (online_net toy_agent)
    /\ (forall k, parameters (target_net ag') !! k = parameters (online_net ag') !! k)
    /\ online_net ag' = online_net toy_agent.
Proof.
  apply (update_target_net_copies toy_agent).
  exact (toy_same_architecture (1 # 4) 0 (1 # 2) 0).
Defined.

(** C7. When resampling noise leaves an estimator's parameters alone (the
    noise lives in buffers), a call of [learn] that returns leaves every
    parameter of the target estimator as it was: the gradient is taken of a
    function of the online estimator, the optimiser steps the online
    parameters, and the target estimator after the call does not depend on
    the gradient machinery at all.  Of all the agent's methods only
    [update_target_net] can change a target parameter, and the constructor
    leaves the target's parameters with [requires_grad = False]. *)
Theorem target_parameters_change_only_by_sync E G :
  (forall net r, parameters (net_reset_noise E net r).1 = parameters net) ->
  (forall ag rng batch out,
     learn E G ag rng batch = inr out ->
     parameters (target_net (out_agent out)) = parameters (target_net ag)
     /\ parameters (online_net (out_agent out))
        = (optim_step G (optimiser ag) (parameters (online_net ag))
             (loc_grads (out_locals out))).2
     /\ loc_grads (out_locals out)
        = clip_grad_norm_ G
            (backward G (loc_objective (out_locals out)) (online_net ag))
            (norm_clip ag)
     /\ forall G' out', learn E G' ag rng batch = inr out' ->
          target_net (out_agent out') = target_net (out_agent out))
  /\ (forall op w w',
        op <> OpUpdateTargetNet -> run_op E G op w = inr w' ->
        parameters (target_net w'.1) = parameters (target_net w.1))
  /\ (forall fs args results_dir env_action_space rng ag rng',
        init E fs args results_dir env_action_space rng = inr (ag, rng') ->
        requires_grad (target_net ag) = false).
Proof.
  intros Hnoise.
  assert (Hlearn : forall G0 ag rng batch out, learn E G0 ag rng batch = inr out ->
            parameters (target_net (out_agent out)) = parameters (target_net ag)).
  { intros G0 ag rng batch out Hout. rewrite (learn_target _ _ _ _ _ _ Hout). apply Hnoise. }
  split; [|split].
  - intros ag rng batch out Hout. split; [now apply (Hlearn G ag rng batch)|].
    destruct (learn_online _ _ _ _ _ _ Hout) as [Hon Hgr].
    split; [exact Hon|]. split; [exact Hgr|].
    intros G' out' Hout'.
    now rewrite (learn_target _ _ _ _ _ _ Hout'), (learn_target _ _ _ _ _ _ Hout).
  - intros op [ag rng] w' Hop Hrun. destruct op; cbn in Hrun; try congruence.
    + injection Hrun as <-. reflexivity.
    + unfold bind in Hrun. destruct (act E ag state); [discriminate|].
      now injection Hrun as <-.
    + unfold bind in Hrun. destruct (act_e_greedy _ _ _ _ _ _);
        [discriminate|]. now injection Hrun as <-.
    + unfold bind in Hrun.
      destruct (learn E G ag rng batch) as [|out] eqn:Hout; [discriminate|].
      injection Hrun as <-. cbn. now apply (Hlearn G ag rng batch).
    + now injection Hrun as <-.
    + unfold bind in Hrun. destruct (evaluate_q E ag state); [discriminate|].
      now injection Hrun as <-.
    + now injection Hrun as <-.
    + now injection Hrun as <-.
  - intros fs args results_dir env_action_space rng ag rng'.
    apply init_target_frozen.
Qed.

(** The instance behind C7: one learning step of the one-weight agent. *)
Lemma target_parameters_change_only_by_sync_witness :
  exists out,
    learn toy_estimator toy_autograd toy_agent 5%N toy_batch = inr out
    /\ parameters (target_net (out_agent out)) = parameters (target_net toy_agent).
Proof.
  destruct (learn_returns toy_estimator toy_autograd toy_agent 5%N toy_batch
              toy_agent_ok ltac:(cbn; lia) toy_estimator_shape toy_batch_shape)
    as [out Hout].
  exists out. split; [exact Hout|].
  destruct (target_parameters_change_only_by_sync toy_estimator toy_autograd
              (fun net r => eq_refl)) as (Hlearn & _).
  exact (proj1 (Hlearn toy_agent 5%N toy_batch out Hout)).
Defined.

(** C8. When [args.model] names a file that [results_dir.joinpath] does not
    resolve to an existing file, and the constructor gets as far as the
    check ([atoms] is neither negative nor [1], the online estimator is
    built), [Agent.__init__] raises [FileNotFoundError] carrying the resolved
    path: no agent is returned and nothing is loaded. *)
Theorem missing_model_file_raises E fs args results_dir env_action_space rng name :
  args_model args = Some name -> name <> ""%string ->
  is_file fs (joinpath fs results_dir name) = false ->
  (0 <= args_atoms args)%Z -> args_atoms args <> 1%Z ->
  (exists r, DQN E args env_action_space rng = inr r) ->
  (forall online,
     load_pretrained fs (args_model args) results_dir online
     = inl (FileNotFoundError (joinpath fs results_dir name)))
  /\ init E fs args results_dir env_action_space rng
     = inl (FileNotFoundError (joinpath fs results_dir name)).
Proof.
  intros Hmodel Hname Hfile Hatoms Hone [r Hr].
  assert (Hload : forall online,
            load_pretrained fs (args_model args) results_dir online
            = inl (FileNotFoundError (joinpath fs results_dir name))).
  { intros online. rewrite Hmodel. now apply load_pretrained_missing. }
  split; [exact Hload|].
  unfold init, bind.
  destruct (Z.ltb_spec (args_atoms args) 0) as [|_]; [lia|].
  destruct (Z.eqb_spec (args_atoms args - 1) 0) as [|_]; [lia|].
  cbn. rewrite Hr. now rewrite Hload.
Qed.

(** The instance behind C8: a results directory without the named file. *)
Lemma missing_model_file_raises_witness :
  (forall online,
     load_pretrained toy_fs (args_model (toy_args (Some "new.pth"%string)))
                     "results" online
     = inl (FileNotFoundError "results/new.pth"))
  /\ init toy_estimator toy_fs (toy_args (Some "new.pth"%string)) "results" 2 0%N
     = inl (FileNotFoundError "results/new.pth").
Proof.
  apply (missing_model_file_raises toy_estimator toy_fs
           (toy_args (Some "new.pth"%string)) "results" 2 0%N "new.pth").
  - reflexivity.
  - discriminate.
  - reflexivity.
  - cbn; lia.
  - cbn; lia.
  - eexists. reflexivity.
Defined.

(** C9. When ['conv1.weight'] is a key of the loaded mapping, remapping
    either returns a mapping in which none of [conv1.weight], [conv1.bias],
    [conv2.weight], [conv2.bias], [conv3.weight], [conv3.bias] is a key and
    [convs.0.weight], [convs.0.bias], [convs.2.weight], [convs.2.bias],
    [convs.4.weight], [convs.4.bias] hold the tensors these held (all other
    entries untouched), and that mapping is the one bound to the estimator;
    or it raises [KeyError] for a legacy key the mapping lacks, and nothing
    is bound. *)
Theorem legacy_keys_remapped sd :
  is_Some (sd !! "conv1.weight"%string) ->
  match remap_legacy sd with
  | inr sd' =>
      (sd' !! "conv1.weight"%string = None
       /\ is_Some (sd !! "conv1.weight"%string)
       /\ sd' !! "convs.0.weight"%string = sd !! "conv1.weight"%string)
      /\ (sd' !! "conv1.bias"%string = None
          /\ is_Some (sd !! "conv1.bias"%string)
          /\ sd' !! "convs.0.bias"%string = sd !! "conv1.bias"%string)
      /\ (sd' !! "conv2.weight"%string = None
          /\ is_Some (sd !! "conv2.weight"%string)
          /\ sd' !! "convs.2.weight"%string = sd !! "conv2.weight"%string)
      /\ (sd' !! "conv2.bias"%string = None
          /\ is_Some (sd !! "conv2.bias"%string)
          /\ sd' !! "convs.2.bias"%string = sd !! "conv2.bias"%string)
      /\ (sd' !! "conv3.weight"%string = None
          /\ is_Some (sd !! "conv3.weight"%string)
          /\ sd' !! "convs.4.weight"%string = sd !! "conv3.weight"%string)
      /\ (sd' !! "conv3.bias"%string = None
          /\ is_Some (sd !! "conv3.bias"%string)
          /\ sd' !! "convs.4.bias"%string = sd !! "conv3.bias"%string)
      /\ (forall k : string,
            k ∉ ["conv1.weight"; "conv1.bias"; "conv2.weight"; "conv2.bias";
                 "conv3.weight"; "conv3.bias"]%string ->
            k ∉ ["convs.0.weight"; "convs.0.bias"; "convs.2.weight";
                 "convs.2.bias"; "convs.4.weight"; "convs.4.bias"]%string ->
            sd' !! k = sd !! k)
      /\ forall fs name results_dir online,
           name <> ""%string ->
           is_file fs (joinpath fs results_dir name) = true ->
           torch_load fs (joinpath fs results_dir name) = inr sd ->
           load_pretrained fs (Some name) results_dir online
           = (online' <- load_state_dict online sd' ;;
              ret (Some (joinpath fs results_dir name), online'))
  | inl e =>
      exists k : string,
        e = KeyError k
        /\ k ∈ ["conv1.bias"; "conv2.weight"; "conv2.bias"; "conv3.weight";
                "conv3.bias"]%string
        /\ sd !! k = None
  end.
Proof.
  intros Hkey. pose proof (remap_keys_legacy sd) as H.
  pose proof (load_pretrained_found) as Hfound.
  unfold remap_legacy in *. rewrite bool_decide_eq_true_2 in * by assumption.
  destruct (remap_keys sd legacy_keys) as [e|sd'] eqn:Hremap.
  - destruct H as (k & He & Hin & Hnone). exists k. split; [assumption|].
    split; [|assumption].
    change (legacy_keys.*1)
      with ["conv1.weight"; "conv1.bias"; "conv2.weight"; "conv2.bias";
            "conv3.weight"; "conv3.bias"]%string in Hin.
    apply elem_of_cons in Hin as [->|Hin]; [|exact Hin].
    destruct Hkey as [t Ht]. congruence.
  - destruct H as [Hall Hrest]. unfold legacy_keys in Hall.
    repeat match goal with
           | H : List.Forall _ (_ :: _) |- _ =>
               let H1 := fresh "Hk" in let H2 := fresh "Hr" in
               inversion H as [|? ? H1 H2]; subst; clear H; cbn [fst snd] in H1
           end.
    do 6 (split; [assumption|]).
    split; [exact Hrest|].
    intros fs name results_dir online Hname Hfile Hload.
    rewrite (Hfound fs name results_dir online sd Hname Hfile Hload).
    rewrite bool_decide_eq_true_2 by assumption. now rewrite Hremap.
Qed.

(** The instance behind C9: a checkpoint with the six legacy keys. *)
Lemma legacy_keys_remapped_witness :
  exists sd',
    remap_legacy legacy_checkpoint = inr sd'
    /\ sd' !! "conv1.weight"%string = None
    /\ sd' !! "conv1.bias"%string = None
    /\ sd' !! "conv2.weight"%string = None
    /\ sd' !! "conv2.bias"%string = None
    /\ sd' !! "conv3.weight"%string = None
    /\ sd' !! "conv3.bias"%string = None
    /\ sd' !! "convs.0.weight"%string = Some [1; 2]
    /\ sd' !! "convs.0.bias"%string = Some [3]
    /\ sd' !! "convs.2.weight"%string = Some [4; 5]
    /\ sd' !! "convs.2.bias"%string = Some [6]
    /\ sd' !! "convs.4.weight"%string = Some [7; 8]
    /\ sd' !! "convs.4.bias"%string = Some [9]
    /\ sd' !! "fc.weight"%string = Some [1 # 2].
Proof.
  pose proof (legacy_keys_remapped legacy_checkpoint
                (ex_intro _ [1; 2] eq_refl)) as H.
  destruct (remap_legacy legacy_checkpoint) as [e|sd'] eqn:Hremap.
  - exfalso.
    assert (Hv : match remap_legacy legacy_checkpoint with
                 | inr _ => true
                 | inl _ => false
                 end = true) by (vm_compute; reflexivity).
    rewrite Hremap in Hv. discriminate Hv.
  - exists sd'.
    destruct H as ((H1 & _ & N1) & (H2 & _ & N2) & (H3 & _ & N3) & (H4 & _ & N4)
                   & (H5 & _ & N5) & (H6 & _ & N6) & Hrest & _).
    split; [reflexivity|].
    do 6 (split; [assumption|]).
    split; [etrans; [exact N1|vm_compute; reflexivity]|].
    split; [etrans; [exact N2|vm_compute; reflexivity]|].
    split; [etrans; [exact N3|vm_compute; reflexivity]|].
    split; [etrans; [exact N4|vm_compute; reflexivity]|].
    split; [etrans; [exact N5|vm_compute; reflexivity]|].
    split; [etrans; [exact N6|vm_compute; reflexivity]|].
    etrans; [apply Hrest|vm_compute; reflexivity]; intros Hin;
      repeat (apply elem_of_cons in Hin as [Hin|Hin]; [discriminate Hin|]);
      inversion Hin.
Defined.

End AgentClaims.

(** * Further properties of the projection *)

Section ProjectionTheorems.
Import Torch Projection Neighbours Rows RowProjection.

(** X1. The projection keeps the expected value: for every sample, the mean of
    the projected target over the support, [sum_j support[j] * m[k,j]],
    equals the mean of the clamped Bellman values under [pns_a[k,:]],
    [sum_i pns_a[k,i] * Tz[k,i]]. *)
Theorem projection_preserves_expected_value ag returns nonterminals pns_a :
  grid_ok ag ->
  batch_shape ag returns nonterminals pns_a ->
  exists m,
    distribute ag returns nonterminals pns_a = inr m
    /\ forall (k : nat) row p tz,
         m !! k = Some row -> pns_a !! k = Some p ->
         Tz ag returns nonterminals !! k = Some tz ->
         Qsum (zip_with Qmult (support ag) row) == Qsum (zip_with Qmult p tz).
Proof.
  intros Hg Hs. exists (project_rows ag returns nonterminals pns_a).
  split; [now apply distribute_rows|].
  intros k row p tz Hrow Hp Htz.
  apply project_rows_inv in Hrow as (r & nt & p' & Hr & Hn & Hp' & ->).
  assert (p' = p) by congruence. subst p'.
  unfold Tz in Htz. rewrite map_fmap, list_lookup_fmap in Htz.
  rewrite (bellman_lookup ag returns nonterminals k r nt Hr Hn) in Htz.
  injection Htz as <-.
  assert (Heq : forall (f g : Q -> Q) (v : list Q),
            f <$> map g v = map (fun z => f (g z)) v).
  { intros f g v. rewrite <- map_fmap. apply map_map. }
  rewrite Heq.
  apply expectation_project_row; [assumption|].
  destruct Hs as (_ & _ & _ & Hc). now apply (proj1 (Forall_lookup _ _) Hc k p).
Qed.

(** An instance: two samples on the three-atom grid, one of them saturated. *)
Lemma projection_preserves_expected_value_witness :
  exists m,
    distribute (grid_agent 3 (-1) 1 2 3 (1 # 2)) [1 # 3; 5] [1; 1]
               [[1 # 4; 1 # 2; 1 # 4]; [0; 1; 0]] = inr m
    /\ forall (k : nat) row p tz,
         m !! k = Some row ->
         [[1 # 4; 1 # 2; 1 # 4]; [0; 1; 0]] !! k = Some p ->
         Tz (grid_agent 3 (-1) 1 2 3 (1 # 2)) [1 # 3; 5] [1; 1] !! k = Some tz ->
         Qsum (zip_with Qmult (support (grid_agent 3 (-1) 1 2 3 (1 # 2))) row)
         == Qsum (zip_with Qmult p tz).
Proof.
  apply (projection_preserves_expected_value (grid_agent 3 (-1) 1 2 3 (1 # 2))).
  - apply grid_agent_ok; [lia | reflexivity].
  - repeat split; repeat constructor.
Defined.

(** X2. The offsets of the flat [index_add_] keep the samples apart: [m] has
    [batch_size] rows of [atoms] entries, and row [k] of [m] is determined by
    [returns[k]], [nonterminals[k]] and [pns_a[k,:]] alone. *)
Theorem projection_rows_independent ag returns nonterminals pns_a
    returns' nonterminals' pns_a' (k : nat) :
  grid_ok ag ->
  batch_shape ag returns nonterminals pns_a ->
  batch_shape ag returns' nonterminals' pns_a' ->
  returns !! k = returns' !! k ->
  nonterminals !! k = nonterminals' !! k ->
  pns_a !! k = pns_a' !! k ->
  exists m m',
    distribute ag returns nonterminals pns_a = inr m
    /\ distribute ag returns' nonterminals' pns_a' = inr m'
    /\ length m = batch_size ag
    /\ Forall (fun row => length row = Z.to_nat (atoms ag)) m
    /\ m !! k = m' !! k.
Proof.
  intros Hg Hs Hs' Hr Hn Hp.
  exists (project_rows ag returns nonterminals pns_a),
         (project_rows ag returns' nonterminals' pns_a').
  split; [now apply distribute_rows|]. split; [now apply distribute_rows|].
  split.
  { destruct Hs as (H1 & H2 & H3 & _). unfold project_rows.
    rewrite length_zip_with, length_zip. lia. }
  split.
  { apply Forall_lookup. intros i row Hrow.
    apply project_rows_inv in Hrow as (r & nt & p & _ & _ & _ & ->).
    apply length_project_row. }
  unfold project_rows. rewrite !lookup_zip_with.
  now rewrite Hr, Hn, Hp.
Qed.

(** An instance: two batches that agree on their first sample only. *)
Lemma projection_rows_independent_witness :
  exists m m',
    distribute (grid_agent 3 (-1) 1 2 3 (1 # 2)) [1 # 3; 5] [1; 1]
               [[1 # 4; 1 # 2; 1 # 4]; [0; 1; 0]] = inr m
    /\ distribute (grid_agent 3 (-1) 1 2 3 (1 # 2)) [1 # 3; -2] [1; 0]
                  [[1 # 4; 1 # 2; 1 # 4]; [1; 0; 0]] = inr m'
    /\ length m = 2%nat
    /\ Forall (fun row => length row = 3%nat) m
    /\ m !! 0%nat = m' !! 0%nat.
Proof.
  apply (projection_rows_independent (grid_agent 3 (-1) 1 2 3 (1 # 2))).
  - apply grid_agent_ok; [lia | reflexivity].
  - repeat split; repeat constructor.
  - repeat split; repeat constructor.
  - reflexivity.
  - reflexivity.
  - reflexivity.
Defined.

(** X3. A sample with zero return whose discounted support is the support
    itself ([nonterminals[k] * discount ** n = 1]) is projected onto itself:
    row [k] of [m] is [pns_a[k,:]]. *)
Theorem projection_identity_on_grid ag returns nonterminals pns_a (k : nat) r nt p :
  grid_ok ag ->
  batch_shape ag returns nonterminals pns_a ->
  returns !! k = Some r -> nonterminals !! k = Some nt -> pns_a !! k = Some p ->
  r == 0 -> nt * (discount ag ^ n ag) == 1 ->
  exists m row,
    distribute ag returns nonterminals pns_a = inr m
    /\ m !! k = Some row
    /\ Forall2 Qeq row p.
Proof.
  intros Hg Hs Hr Hn Hp Hr0 Hnt.
  exists (project_rows ag returns nonterminals pns_a), (project_row ag r nt p).
  split; [now apply distribute_rows|].
  split; [now apply lookup_project_rows|].
  apply project_row_identity; try assumption.
  destruct Hs as (_ & _ & _ & Hc). now apply (proj1 (Forall_lookup _ _) Hc k p).
Qed.

(** An instance: the five-atom grid with discount one. *)
Lemma projection_identity_on_grid_witness :
  exists m row,
    distribute (grid_agent 5 (-2) 2 2 3 1) [0; 1] [1; 1]
               [[1 # 8; 1 # 4; 1 # 4; 1 # 4; 1 # 8]; [0; 0; 1; 0; 0]] = inr m
    /\ m !! 0%nat = Some row
    /\ Forall2 Qeq row [1 # 8; 1 # 4; 1 # 4; 1 # 4; 1 # 8].
Proof.
  apply (projection_identity_on_grid (grid_agent 5 (-2) 2 2 3 1)
           [0; 1] [1; 1] [[1 # 8; 1 # 4; 1 # 4; 1 # 4; 1 # 8]; [0; 0; 1; 0; 0]]
           0 0 1).
  - apply grid_agent_ok; [lia | reflexivity].
  - repeat split; repeat constructor.
  - reflexivity.
  - reflexivity.
  - reflexivity.
  - reflexivity.
  - reflexivity.
Defined.

(** X4. A terminal sample ([nonterminals[k] = 0]) puts its whole mass on the
    two adjacent atoms around the grid coordinate [x] of its clamped return,
    split linearly: [(u - x) * sum(pns_a[k,:])] on [l] and
    [(x - l) * sum(pns_a[k,:])] on [u = l + 1], nothing elsewhere. *)
Theorem terminal_sample_two_atoms ag returns nonterminals pns_a (k : nat) r nt p :
  grid_ok ag ->
  batch_shape ag returns nonterminals pns_a ->
  returns !! k = Some r -> nonterminals !! k = Some nt -> nt == 0 ->
  pns_a !! k = Some p ->
  let x := (clamp (V_min ag) (V_max ag) r - V_min ag) / delta_z ag in
  exists m row,
    distribute ag returns nonterminals pns_a = inr m
    /\ m !! k = Some row
    /\ hi (atoms ag) x = (lo x + 1)%Z
    /\ inject_Z (lo x) <= x /\ x <= inject_Z (hi (atoms ag) x)
    /\ forall (j : nat) y, row !! j = Some y ->
         y == (if (lo x =? Z.of_nat j)%Z
               then (inject_Z (hi (atoms ag) x) - x) * Qsum p else 0)
              + (if (hi (atoms ag) x =? Z.of_nat j)%Z
                 then (x - inject_Z (lo x)) * Qsum p else 0).
Proof.
  intros Hg Hs Hr Hn Hnt Hp x.
  assert (HA : (2 <= atoms ag)%Z) by now destruct Hg.
  assert (Hcols : length p = Z.to_nat (atoms ag)).
  { destruct Hs as (_ & _ & _ & Hc). now apply (proj1 (Forall_lookup _ _) Hc k p). }
  pose proof (grid_delta_pos ag Hg) as Hd. pose proof (grid_span ag Hg) as Hspan.
  assert (Hx : 0 <= x /\ x <= inject_Z (atoms ag - 1)).
  { destruct (clamp_range (V_min ag) (V_max ag) r) as [H1 H2];
      [destruct Hg as (_ & HV & _); lra|].
    subst x. split.
    - apply Qle_shift_div_l; [assumption | lra].
    - apply Qle_shift_div_r; [assumption | lra]. }
  destruct Hx as [Hx0 Hx1].
  destruct (neighbours_adjacent (atoms ag) x HA Hx0 Hx1) as (_ & _ & Hadj & Hl & Hu).
  exists (project_rows ag returns nonterminals pns_a), (project_row ag r nt p).
  split; [now apply distribute_rows|].
  split; [now apply lookup_project_rows|].
  split; [exact Hadj|]. split; [exact Hl|]. split; [exact Hu|].
  intros j y Hj.
  apply (project_row_constant ag r nt p x j y Hg Hcols); [|exact Hj].
  now apply b_row_terminal.
Qed.

(** An instance: a terminal return of one half on the three-atom grid. *)
Lemma terminal_sample_two_atoms_witness :
  let ag := grid_agent 3 (-1) 1 1 3 (99 # 100) in
  let x := (clamp (V_min ag) (V_max ag) (1 # 2) - V_min ag) / delta_z ag in
  exists m row,
    distribute ag [1 # 2] [0] [[1 # 4; 1 # 2; 1 # 4]] = inr m
    /\ m !! 0%nat = Some row
    /\ hi (atoms ag) x = (lo x + 1)%Z
    /\ inject_Z (lo x) <= x /\ x <= inject_Z (hi (atoms ag) x)
    /\ forall (j : nat) y, row !! j = Some y ->
         y == (if (lo x =? Z.of_nat j)%Z
               then (inject_Z (hi (atoms ag) x) - x) * Qsum [1 # 4; 1 # 2; 1 # 4]
               else 0)
              + (if (hi (atoms ag) x =? Z.of_nat j)%Z
                 then (x - inject_Z (lo x)) * Qsum [1 # 4; 1 # 2; 1 # 4] else 0).
Proof.
  apply (terminal_sample_two_atoms (grid_agent 3 (-1) 1 1 3 (99 # 100))
           [1 # 2] [0] [[1 # 4; 1 # 2; 1 # 4]] 0 (1 # 2) 0 [1 # 4; 1 # 2; 1 # 4]).
  - apply grid_agent_ok; [lia | reflexivity].
  - repeat split; repeat constructor.
  - reflexivity.
  - reflexivity.
  - reflexivity.
  - reflexivity.
Defined.

End ProjectionTheorems.

(** * Further properties of the agent's methods *)

Section AgentProperties.
Import Torch Learn Projection Rows RowProjection.

(** X5. When the target estimator returns probability distributions and the
    online estimator non-positive log-probabilities, [learn] builds a target
    [m] whose every row is a probability distribution, and the priorities it
    reports to the replay memory are all non-negative. *)
Theorem learn_target_is_distribution E G ag rng batch :
  grid_ok ag -> (0 < action_space ag)%nat ->
  estimator_shape E ag -> sample_shape ag batch ->
  (forall s, Forall (fun d => Forall (Qle 0) d /\ Qsum d == 1)
               (forward E (net_reset_noise E (target_net ag) rng).1 s)) ->
  (forall s, Forall (Forall (fun x => x <= 0)) (forward_log E (online_net ag) s)) ->
  exists out,
    learn E G ag rng batch = inr out
    /\ Forall (fun row => Forall (Qle 0) row /\ Qsum row == 1)
              (loc_m (out_locals out))
    /\ Forall (Qle 0) (loc_loss (out_locals out))
    /\ out_mem_calls out
       = [Sample (batch_size ag);
          UpdatePriorities (idxs batch) (loc_loss (out_locals out))].
Proof.
  intros Hg Hact HE Hs Hprob Hlog.
  destruct (learn_returns E G ag rng batch Hg Hact HE Hs) as [out Hout].
  exists out. split; [assumption|].
  destruct (learn_inv _ _ _ _ _ _ Hout)
    as (lp & am & pa & m & Hlp & _ & Hpa & Hm & Hloc & Hcalls & _).
  rewrite Hcalls, Hloc. cbn [loc_m loc_loss].
  assert (Hpa' : Forall (fun d => Forall (Qle 0) d /\ Qsum d == 1) pa).
  { eapply gather_rows_Forall; [exact Hpa|].
    rewrite map_fmap. apply Forall_fmap, Forall_forall. intros s _. apply Hprob. }
  assert (Hshape : batch_shape ag (returns batch) (nonterminals batch) pa).
  { destruct Hs as (_ & _ & _ & Hre & Hnt & _).
    destruct (gather_spec _ _ _ _ Hpa) as (_ & Hlen & _). rewrite length_seq in Hlen.
    repeat split; try assumption.
    eapply gather_rows_Forall; [exact Hpa|].
    rewrite map_fmap. apply Forall_fmap, Forall_forall. intros s _.
    now destruct (HE (net_reset_noise E (target_net ag) rng).1 s) as (_ & H & _). }
  rewrite (distribute_rows ag _ _ _ Hg Hshape) in Hm. injection Hm as <-.
  assert (Hm : Forall (fun row => Forall (Qle 0) row /\ Qsum row == 1)
                 (project_rows ag (returns batch) (nonterminals batch) pa)).
  { apply Forall_lookup. intros k row Hrow.
    apply project_rows_inv in Hrow as (r & nt & p & _ & _ & Hp & ->).
    destruct (proj1 (Forall_lookup _ _) Hpa' k p Hp) as [Hnn Hone].
    destruct Hshape as (_ & _ & _ & Hcols).
    pose proof (proj1 (Forall_lookup _ _) Hcols k p Hp) as Hlen.
    split; [now apply project_row_nonneg|].
    rewrite (Qsum_project_row ag r nt p Hg Hlen). exact Hone. }
  split; [exact Hm|]. split; [|reflexivity].
  apply loss_nonneg.
  - eapply Forall_impl; [exact Hm|]. now intros row [H _].
  - eapply gather_rows_Forall; [exact Hlp|].
    rewrite map_fmap. apply Forall_fmap, Forall_forall. intros s _. apply Hlog.
Qed.

(** An instance: one learning step of the one-weight agent. *)
Lemma learn_target_is_distribution_witness :
  exists out,
    learn toy_estimator toy_autograd toy_agent 5%N toy_batch = inr out
    /\ Forall (fun row => Forall (Qle 0) row /\ Qsum row == 1)
              (loc_m (out_locals out))
    /\ Forall (Qle 0) (loc_loss (out_locals out))
    /\ out_mem_calls out
       = [Sample 2; UpdatePriorities [7; 3]%Z (loc_loss (out_locals out))].
Proof.
  apply (learn_target_is_distribution toy_estimator toy_autograd toy_agent 5%N
           toy_batch).
  - exact toy_agent_ok.
  - cbn; lia.
  - exact toy_estimator_shape.
  - exact toy_batch_shape.
  - exact toy_target_distributions.
  - exact toy_online_log_probabilities.
Defined.

(** X6. For an estimator with at least one action, [act] returns an action
    [a] of the action space for which [sum_i support[i] * p[a,i]] under the
    online estimator is maximal, and strictly larger than for every earlier
    action. *)
Theorem act_is_greedy E ag state :
  (0 < action_space ag)%nat ->
  length (forward E (online_net ag) state) = action_space ag ->
  exists (a : nat) p_a,
    act E ag state = inr a
    /\ (a < action_space ag)%nat
    /\ forward E (online_net ag) state !! a = Some p_a
    /\ forall (a' : nat) p_a',
         forward E (online_net ag) state !! a' = Some p_a' ->
         Qsum (zip_with Qmult (support ag) p_a')
         <= Qsum (zip_with Qmult (support ag) p_a)
         /\ ((a' < a)%nat ->
             Qsum (zip_with Qmult (support ag) p_a')
             < Qsum (zip_with Qmult (support ag) p_a)).
Proof.
  intros Hact Hlen.
  destruct (act_returns E ag state Hact Hlen) as (a & Ha & Harg).
  destruct (is_argmax_sums _ _ _ Harg) as (p_a & Hpa & Hmax).
  exists a, p_a. split; [assumption|]. split.
  { apply lookup_lt_Some in Hpa. lia. }
  split; [assumption|exact Hmax].
Qed.

(** An instance: the one-weight estimator prefers action 0 on a positive
    state and action 1 on a negative one. *)
Lemma act_is_greedy_witness :
  act toy_estimator toy_agent [1] = inr 0%nat
  /\ act toy_estimator toy_agent [-1] = inr 1%nat.
Proof.
  split.
  - destruct (act_is_greedy toy_estimator toy_agent [1] ltac:(cbn; lia) eq_refl)
      as (a & p_a & Ha & _ & Hpa & Hmax).
    destruct a as [|[|a]]; [exact Ha| |discriminate Hpa].
    injection Hpa as <-. destruct (Hmax 0%nat _ eq_refl) as [Hle _].
    vm_compute in Hle. exfalso. apply Hle. reflexivity.
  - destruct (act_is_greedy toy_estimator toy_agent [-1] ltac:(cbn; lia) eq_refl)
      as (a & p_a & Ha & _ & Hpa & Hmax).
    destruct a as [|[|a]]; [|exact Ha|discriminate Hpa].
    injection Hpa as <-. destruct (Hmax 1%nat _ eq_refl) as [Hle _].
    vm_compute in Hle. exfalso. apply Hle. reflexivity.
Defined.

(** X7. For an estimator with at least one action, [evaluate_q] returns
    [sum_i support[i] * p[a,i]] for the action [a] that [act] selects, and
    this bounds the sum of every action. *)
Theorem evaluate_q_is_value_of_act E ag state :
  (0 < action_space ag)%nat ->
  length (forward E (online_net ag) state) = action_space ag ->
  exists (a : nat) p_a q,
    act E ag state = inr a
    /\ evaluate_q E ag state = inr q
    /\ forward E (online_net ag) state !! a = Some p_a
    /\ q == Qsum (zip_with Qmult (support ag) p_a)
    /\ forall (a' : nat) p_a',
         forward E (online_net ag) state !! a' = Some p_a' ->
         Qsum (zip_with Qmult (support ag) p_a') <= q.
Proof.
  intros Hact Hlen.
  destruct (act_returns E ag state Hact Hlen) as (a & Ha & Harg).
  destruct (is_argmax_sums _ _ _ Harg) as (p_a & Hpa & Hmax).
  unfold evaluate_q.
  destruct (max (expected_values (support ag) (forward E (online_net ag) state)))
    as [e|q] eqn:Hq.
  { unfold max in Hq.
    destruct (expected_values (support ag) (forward E (online_net ag) state))
      as [|x v] eqn:Hv; [|discriminate].
    apply (f_equal length) in Hv. rewrite length_expected_values in Hv.
    simpl in Hv. lia. }
  destruct (is_argmax_max _ _ _ Harg Hq) as (x & Hx & Hqx).
  apply expected_values_lookup in Hx as (p_a0 & Hpa0 & ->).
  assert (p_a0 = p_a) by congruence. subst p_a0.
  exists a, p_a, q. do 3 (split; [assumption || reflexivity|]).
  split; [exact Hqx|]. intros a' p_a' Hpa'.
  rewrite Hqx. now apply (Hmax a' p_a').
Qed.

(** An instance: the value of a positive state is [3/4]. *)
Lemma evaluate_q_is_value_of_act_witness :
  exists q,
    evaluate_q toy_estimator toy_agent [1] = inr q /\ q == 3 # 4.
Proof.
  destruct (evaluate_q_is_value_of_act toy_estimator toy_agent [1]
              ltac:(cbn; lia) eq_refl)
    as (a & p_a & q & _ & Hq & Hpa & Hval & Hmax).
  exists q. split; [exact Hq|].
  destruct a as [|[|a]]; [| |discriminate Hpa]; injection Hpa as <-.
  - rewrite Hval. vm_compute. reflexivity.
  - exfalso. pose proof (Hmax 0%nat _ eq_refl) as Hle. rewrite Hval in Hle.
    vm_compute in Hle. apply Hle. reflexivity.
Defined.

(** X16. [act_e_greedy] returns an action of the action space: the drawn
    [choice] when the draw [u] is below [epsilon], the action of [act]
    otherwise. *)
Theorem act_e_greedy_in_range E ag state epsilon u choice :
  (0 < action_space ag)%nat ->
  length (forward E (online_net ag) state) = action_space ag ->
  (choice < action_space ag)%nat ->
  exists a,
    act_e_greedy E ag state epsilon u choice = inr a
    /\ (a < action_space ag)%nat
    /\ (u < epsilon -> a = choice)
    /\ (epsilon <= u -> act E ag state = inr a).
Proof.
  intros Hact Hlen Hchoice. unfold act_e_greedy.
  destruct (Qlt_le_dec u epsilon) as [Hlt|Hle].
  - exists choice. repeat split; [assumption|]. intros Hle. lra.
  - unfold act.
    destruct (expected_values (support ag) (forward E (online_net ag) state))
      as [|x v] eqn:Hv.
    { apply (f_equal length) in Hv. rewrite length_expected_values in Hv.
      simpl in Hv. lia. }
    destruct (argmax (x :: v)) as [e|a] eqn:Ha; [discriminate|].
    exists a. split; [reflexivity|]. split.
    + apply argmax_spec, is_argmax_lt in Ha. rewrite <- Hv in Ha.
      rewrite length_expected_values in Ha. lia.
    + split; [intros Hlt; lra | reflexivity].
Qed.

(** An instance: the default [epsilon] and a draw of one half. *)
Lemma act_e_greedy_in_range_witness :
  exists a,
    act_e_greedy toy_estimator toy_agent [1] (1 # 1000) (1 # 2) 1 = inr a
    /\ (a < action_space toy_agent)%nat
    /\ (1 # 2 < 1 # 1000 -> a = 1%nat)
    /\ (1 # 1000 <= 1 # 2 -> act toy_estimator toy_agent [1] = inr a).
Proof.
  apply (act_e_greedy_in_range toy_estimator toy_agent [1] (1 # 1000) (1 # 2) 1).
  - cbn; lia.
  - reflexivity.
  - cbn; lia.
Defined.

(** X8. Without a pretrained model (no name, or the empty one) and with two
    estimators of the same architecture built, the constructor returns an
    agent on a well-formed grid whose target estimator holds the online
    parameters, is in training mode and has [requires_grad = False]; the
    optimiser is Adam for the canonical and data-efficient architectures and
    AdamW otherwise. *)
Theorem init_builds_synced_agent E fs args results_dir env_action_space rng
    n1 r1 n2 r2 :
  args_model args = None \/ args_model args = Some ""%string ->
  (2 <= args_atoms args)%Z -> args_V_min args < args_V_max args ->
  DQN E args env_action_space rng = inr (n1, r1) ->
  DQN E args env_action_space r1 = inr (n2, r2) ->
  same_architecture n1 n2 ->
  exists ag,
    init E fs args results_dir env_action_space rng = inr (ag, r2)
    /\ grid_ok ag
    /\ model_file ag = None
    /\ batch_size ag = args_batch_size args
    /\ action_space ag = env_action_space
    /\ online_net ag = set_training true n1
    /\ parameters (target_net ag) = parameters n1
    /\ training (target_net ag) = true
    /\ requires_grad (target_net ag) = false
    /\ opt_kind (optimiser ag)
       = (if bool_decide (args_architecture args = "canonical"%string
                          \/ args_architecture args = "data-efficient"%string)
          then Adam else AdamW).
Proof.
  intros Hmodel Hatoms HV H1 H2 Hsame. unfold init, bind, ret.
  destruct (Z.ltb_spec (args_atoms args) 0) as [|_]; [lia|].
  destruct (Z.eqb_spec (args_atoms args - 1) 0) as [|_]; [lia|].
  cbv beta iota. rewrite H1. cbv beta iota. cbn [fst snd].
  rewrite (load_pretrained_none _ _ _ _ Hmodel). cbv beta iota zeta. cbn [fst snd].
  rewrite H2. cbv beta iota. cbn [fst snd].
  rewrite (load_state_dict_same_architecture (set_training true n1) n2 Hsame).
  cbv beta iota.
  eexists. split; [reflexivity|].
  cbn [model_file batch_size action_space online_net target_net optimiser opt_kind
       set_requires_grad set_training parameters training requires_grad].
  split; [repeat split; assumption|].
  repeat split.
  change (state_dict (set_training true n1)) with (state_dict n1).
  unfold state_dict. apply loaded_parameters. symmetry. now destruct Hsame.
Qed.

(** An instance: the one-weight estimator without a model file. *)
Lemma init_builds_synced_agent_witness :
  exists ag,
    init toy_estimator toy_fs (toy_args None) "results" 2 0%N = inr (ag, 2%N)
    /\ grid_ok ag
    /\ model_file ag = None
    /\ batch_size ag = 2%nat
    /\ action_space ag = 2%nat
    /\ online_net ag = set_training true (toy_net 0 0)
    /\ parameters (target_net ag) = parameters (toy_net 0 0)
    /\ training (target_net ag) = true
    /\ requires_grad (target_net ag) = false
    /\ opt_kind (optimiser ag) = Adam.
Proof.
  apply (init_builds_synced_agent toy_estimator toy_fs (toy_args None) "results"
           2 0%N (toy_net 0 0) 1%N (toy_net 0 0) 2%N).
  - left. reflexivity.
  - cbn; lia.
  - reflexivity.
  - reflexivity.
  - reflexivity.
  - apply toy_same_architecture.
Defined.

(** X9. With a model file that exists and whose (remapped) mapping has the
    names and sizes of the estimator, the constructor returns an agent whose
    [model_file] is the resolved path, whose online estimator holds the
    file's tensor under every parameter and buffer name, and whose target
    estimator holds the same parameters. *)
Theorem init_loads_checkpoint E fs args results_dir env_action_space rng
    name sd sd' n1 r1 n2 r2 :
  args_model args = Some name -> name <> ""%string ->
  is_file fs (joinpath fs results_dir name) = true ->
  torch_load fs (joinpath fs results_dir name) = inr sd ->
  remap_legacy sd = inr sd' ->
  (2 <= args_atoms args)%Z -> args_V_min args < args_V_max args ->
  DQN E args env_action_space rng = inr (n1, r1) ->
  DQN E args env_action_space r1 = inr (n2, r2) ->
  same_architecture n1 n2 ->
  dom sd' = dom (state_dict n1) ->
  (forall k t t', sd' !! k = Some t -> state_dict n1 !! k = Some t' ->
     length t = length t') ->
  exists ag,
    init E fs args results_dir env_action_space rng = inr (ag, r2)
    /\ grid_ok ag
    /\ model_file ag = Some (joinpath fs results_dir name)
    /\ (forall k, k ∈ dom (parameters n1) ->
          parameters (online_net ag) !! k = sd' !! k)
    /\ (forall k, k ∈ dom (buffers n1) -> buffers (online_net ag) !! k = sd' !! k)
    /\ parameters (target_net ag) = parameters (online_net ag)
    /\ training (online_net ag) = true
    /\ requires_grad (target_net ag) = false.
Proof.
  intros Hmodel Hname Hfile Hload Hremap Hatoms HV H1 H2 Hsame Hdom Hlen.
  destruct (load_state_dict_fits n1 sd' Hdom Hlen)
    as (n1' & Hn1' & Hps & Hbs & Htr & Hrg & Hsame').
  assert (Hsame2 : same_architecture (set_training true n1') n2).
  { apply (same_architecture_trans _ n1); [exact Hsame' | exact Hsame]. }
  unfold init, bind, ret.
  destruct (Z.ltb_spec (args_atoms args) 0) as [|_]; [lia|].
  destruct (Z.eqb_spec (args_atoms args - 1) 0) as [|_]; [lia|].
  cbv beta iota. rewrite H1. cbv beta iota. cbn [fst snd].
  rewrite Hmodel, (load_pretrained_found fs name results_dir n1 sd Hname Hfile Hload).
  unfold bind, ret. rewrite Hremap. cbv beta iota. rewrite Hn1'.
  cbv beta iota zeta. cbn [fst snd].
  rewrite H2. cbv beta iota. cbn [fst snd].
  rewrite (load_state_dict_same_architecture (set_training true n1') n2 Hsame2).
  cbv beta iota.
  eexists. split; [reflexivity|].
  cbn [model_file online_net target_net set_requires_grad set_training parameters
       buffers training requires_grad].
  split; [repeat split; assumption|].
  split; [reflexivity|]. split; [exact Hps|]. split; [exact Hbs|].
  split; [|split; reflexivity].
  change (state_dict (set_training true n1')) with (state_dict n1').
  unfold state_dict. apply loaded_parameters. destruct Hsame2 as (Hd & _).
  symmetry. exact Hd.
Qed.

(** An instance: a checkpoint of the one-weight estimator. *)
Lemma init_loads_checkpoint_witness :
  exists ag,
    init toy_estimator trained_fs (toy_args (Some "model.pth"%string)) "results"
         2 0%N = inr (ag, 2%N)
    /\ grid_ok ag
    /\ model_file ag = Some "results/model.pth"%string
    /\ (forall k, k ∈ dom (parameters (toy_net 0 0)) ->
          parameters (online_net ag) !! k = trained_checkpoint !! k)
    /\ (forall k, k ∈ dom (buffers (toy_net 0 0)) ->
          buffers (online_net ag) !! k = trained_checkpoint !! k)
    /\ parameters (target_net ag) = parameters (online_net ag)
    /\ training (online_net ag) = true
    /\ requires_grad (target_net ag) = false.
Proof.
  apply (init_loads_checkpoint toy_estimator trained_fs
           (toy_args (Some "model.pth"%string)) "results" 2 0%N "model.pth"
           trained_checkpoint trained_checkpoint
           (toy_net 0 0) 1%N (toy_net 0 0) 2%N).
  - reflexivity.
  - discriminate.
  - reflexivity.
  - reflexivity.
  - reflexivity.
  - cbn; lia.
  - reflexivity.
  - reflexivity.
  - reflexivity.
  - apply toy_same_architecture.
  - reflexivity.
  - exact trained_checkpoint_fits.
Defined.

(** X10. With a single atom the constructor raises [ZeroDivisionError] at the
    computation of [delta_z], before any estimator is built or any file is
    looked up. *)
Theorem init_single_atom_divides_by_zero E fs args results_dir env_action_space rng :
  args_atoms args = 1%Z ->
  init E fs args results_dir env_action_space rng = inl ZeroDivisionError.
Proof.
  intros H. unfold init, bind. rewrite H. reflexivity.
Qed.

(** An instance: one atom, and a model file that does not exist. *)
Lemma init_single_atom_divides_by_zero_witness :
  init toy_estimator toy_fs
       (mkArgs 1 (-1) 1 2 3 (1 # 2) 10 (Some "new.pth"%string) "canonical"
               (1 # 10) (1 # 100))
       "results" 2 0%N
  = inl ZeroDivisionError.
Proof.
  apply (init_single_atom_divides_by_zero toy_estimator toy_fs). reflexivity.
Defined.

(** X11. The agent the constructor returns (for [atoms >= 2] and
    [V_min < V_max]) has a support of [atoms] strictly increasing points from
    [V_min] to [V_max], and [delta_z] is its spacing: the grid coordinate
    [(z - V_min) / delta_z] of support point [i] is [i]. *)
Theorem init_support_grid E fs args results_dir env_action_space rng ag rng' :
  init E fs args results_dir env_action_space rng = inr (ag, rng') ->
  (2 <= args_atoms args)%Z -> args_V_min args < args_V_max args ->
  length (support ag) = Z.to_nat (args_atoms args)
  /\ 0 < delta_z ag
  /\ (forall (i : nat) z, support ag !! i = Some z ->
        (z - V_min ag) / delta_z ag == inject_Z (Z.of_nat i)
        /\ args_V_min args <= z /\ z <= args_V_max args)
  /\ (exists z0 zN,
        support ag !! 0%nat = Some z0 /\ z0 == args_V_min args
        /\ support ag !! Z.to_nat (args_atoms args - 1) = Some zN
        /\ zN == args_V_max args)
  /\ forall (i j : nat) zi zj,
       support ag !! i = Some zi -> support ag !! j = Some zj ->
       (i < j)%nat -> zi < zj.
Proof.
  intros Hinit Hatoms HV.
  destruct (init_grid _ _ _ _ _ _ _ _ Hinit) as (Ha & Hmin & Hmax & Hsup & Hdz).
  assert (Hg : grid_ok ag).
  { repeat split; rewrite ?Ha, ?Hmin, ?Hmax; assumption. }
  pose proof (grid_delta_pos ag Hg) as Hd. pose proof (grid_span ag Hg) as Hs.
  assert (Hpt : forall (i : nat) z, support ag !! i = Some z ->
            (i < Z.to_nat (atoms ag))%nat
            /\ z == V_min ag + inject_Z (Z.of_nat i) * delta_z ag).
  { intros i z Hz.
    assert (Hi : (i < Z.to_nat (atoms ag))%nat).
    { apply lookup_lt_Some in Hz. now rewrite length_support in Hz. }
    split; [assumption|].
    destruct (support_lookup ag (Z.of_nat i) Hg ltac:(unfold in_row; lia))
      as (z' & Hz' & Hzi).
    rewrite Nat2Z.id, Hz in Hz'. now injection Hz' as <-. }
  rewrite <- Ha, <- Hmin, <- Hmax.
  split; [now apply length_support|]. split; [assumption|].
  split; [|split].
  - intros i z Hz. destruct (Hpt i z Hz) as [Hi Hzi].
    assert (H0 : 0 <= inject_Z (Z.of_nat i)).
    { change 0 with (inject_Z 0). rewrite <- Zle_Qle. lia. }
    assert (H1 : inject_Z (Z.of_nat i) <= inject_Z (atoms ag - 1)).
    { rewrite <- Zle_Qle. lia. }
    split; [rewrite Hzi; field; lra|]. rewrite Hzi. split; nra.
  - destruct (support_lookup ag 0 Hg ltac:(unfold in_row; lia)) as (z0 & Hz0 & E0).
    destruct (support_lookup ag (atoms ag - 1) Hg ltac:(unfold in_row; lia))
      as (zN & HzN & EN).
    exists z0, zN. split; [exact Hz0|]. split.
    { rewrite E0. change (inject_Z 0) with 0. ring. }
    split; [exact HzN|]. rewrite EN, Hs. ring.
  - intros i j zi zj Hzi Hzj Hij.
    destruct (Hpt i zi Hzi) as [_ Ei]. destruct (Hpt j zj Hzj) as [_ Ej].
    rewrite Ei, Ej.
    assert (inject_Z (Z.of_nat i) < inject_Z (Z.of_nat j)).
    { rewrite <- Zlt_Qlt. lia. }
    nra.
Qed.

(** An instance: the constructor on three atoms over [[-1, 1]]. *)
Lemma init_support_grid_witness :
  match init toy_estimator toy_fs (toy_args None) "results" 2 0%N with
  | inr (ag, _) =>
      length (support ag) = 3%nat
      /\ 0 < delta_z ag
      /\ (forall (i : nat) z, support ag !! i = Some z ->
            (z - V_min ag) / delta_z ag == inject_Z (Z.of_nat i)
            /\ -1 <= z /\ z <= 1)
      /\ (exists z0 zN,
            support ag !! 0%nat = Some z0 /\ z0 == -1
            /\ support ag !! 2%nat = Some zN /\ zN == 1)
      /\ forall (i j : nat) zi zj,
           support ag !! i = Some zi -> support ag !! j = Some zj ->
           (i < j)%nat -> zi < zj
  | inl _ => False
  end.
Proof.
  destruct (init toy_estimator toy_fs (toy_args None) "results" 2 0%N)
    as [e|[ag r]] eqn:Hinit.
  - assert (Hv : match init toy_estimator toy_fs (toy_args None) "results" 2 0%N
                 with inr _ => true | inl _ => false end = true)
      by (vm_compute; reflexivity).
    rewrite Hinit in Hv. discriminate Hv.
  - apply (init_support_grid toy_estimator toy_fs (toy_args None) "results" 2 0%N
             ag r Hinit).
    + cbn; lia.
    + reflexivity.
Defined.

(** X12. What [save] writes can be loaded back: for an estimator of the same
    architecture (parameter names apart from buffer names), loading the saved
    mapping succeeds and gives an estimator whose state dictionary is the
    saved one, with its own training and [requires_grad] flags kept. *)
Theorem save_load_round_trip ag dst :
  same_architecture (online_net ag) dst ->
  dom (parameters (online_net ag)) ## dom (buffers (online_net ag)) ->
  exists dst',
    load_state_dict dst (save ag) = inr dst'
    /\ state_dict dst' = save ag
    /\ parameters dst' = parameters (online_net ag)
    /\ buffers dst' = buffers (online_net ag)
    /\ training dst' = training dst
    /\ requires_grad dst' = requires_grad dst.
Proof.
  intros Hsame Hdisj. unfold save.
  rewrite (load_state_dict_copy _ _ Hsame Hdisj).
  eexists. split; [reflexivity|]. repeat split.
Qed.

(** An instance: the one-weight agent saved and loaded into a fresh estimator. *)
Lemma save_load_round_trip_witness :
  exists dst',
    load_state_dict (toy_net 0 0) (save toy_agent) = inr dst'
    /\ state_dict dst' = save toy_agent
    /\ parameters dst' = parameters (online_net toy_agent)
    /\ buffers dst' = buffers (online_net toy_agent)
    /\ training dst' = training (toy_net 0 0)
    /\ requires_grad dst' = requires_grad (toy_net 0 0).
Proof.
  apply (save_load_round_trip toy_agent (toy_net 0 0)).
  - exact (toy_same_architecture (1 # 4) 0 0 0).
  - exact (toy_names_disjoint (1 # 4) 0).
Defined.

(** X13. [update_target_net] copies the whole state dictionary (buffers, so
    the noise, included), keeps the target's training and [requires_grad]
    flags, and is idempotent: a second call changes nothing. *)
Theorem update_target_net_idempotent ag :
  same_architecture (online_net ag) (target_net ag) ->
  dom (parameters (online_net ag)) ## dom (buffers (online_net ag)) ->
  exists ag',
    update_target_net ag = inr ag'
    /\ state_dict (target_net ag') = state_dict (online_net ag')
    /\ training (target_net ag') = training (target_net ag)
    /\ requires_grad (target_net ag') = requires_grad (target_net ag)
    /\ update_target_net ag' = inr ag'.
Proof.
  intros Hsame Hdisj. unfold update_target_net, bind.
  rewrite (load_state_dict_copy _ _ Hsame Hdisj).
  eexists. split; [reflexivity|].
  cbn [online_net target_net set_nets optimiser]. repeat split.
  rewrite (load_state_dict_copy (online_net ag)
             (mkNet (parameters (online_net ag)) (buffers (online_net ag))
                    (training (target_net ag)) (requires_grad (target_net ag)))).
  - reflexivity.
  - repeat split. intros k t t' H1 H2. unfold state_dict in *. cbn in H2. congruence.
  - assumption.
Qed.

(** An instance: the one-weight agent. *)
Lemma update_target_net_idempotent_witness :
  exists ag',
    update_target_net toy_agent = inr ag'
    /\ state_dict (target_net ag') = state_dict (online_net ag')
    /\ training (target_net ag') = training (target_net toy_agent)
    /\ requires_grad (target_net ag') = requires_grad (target_net toy_agent)
    /\ update_target_net ag' = inr ag'.
Proof.
  apply (update_target_net_idempotent toy_agent).
  - exact (toy_same_architecture (1 # 4) 0 (1 # 2) 0).
  - exact (toy_names_disjoint (1 # 4) 0).
Defined.

(** X14. Remapping is idempotent: a mapping that came out of the remapping
    passes through it unchanged. *)
Theorem remap_legacy_idempotent sd :
  match remap_legacy sd with
  | inr sd' => remap_legacy sd' = inr sd'
  | inl _ => True
  end.
Proof.
  unfold remap_legacy at 1.
  destruct (bool_decide (is_Some (sd !! "conv1.weight"%string))) eqn:Hb.
  - pose proof (remap_keys_legacy sd) as H.
    destruct (remap_keys sd legacy_keys) as [e|sd']; [exact I|].
    destruct H as [Hall _]. inversion Hall as [|? ? [Hnone _] _]; subst.
    unfold remap_legacy. rewrite bool_decide_eq_false_2; [reflexivity|].
    cbn [fst] in Hnone. rewrite Hnone. intros [t Ht]. discriminate Ht.
  - unfold ret, remap_legacy. now rewrite Hb.
Qed.

(** X15. No method of the agent changes what the constructor fixed: the
    grid ([atoms], [V_min], [V_max], [support], [delta_z]), [batch_size],
    [n], [discount], [norm_clip], [action_space] and [model_file] are the
    same after any call that returns. *)
Theorem methods_keep_hyperparameters E G op w w' :
  run_op E G op w = inr w' ->
  atoms w'.1 = atoms w.1 /\ V_min w'.1 = V_min w.1 /\ V_max w'.1 = V_max w.1
  /\ support w'.1 = support w.1 /\ delta_z w'.1 = delta_z w.1
  /\ batch_size w'.1 = batch_size w.1 /\ n w'.1 = n w.1
  /\ discount w'.1 = discount w.1 /\ norm_clip w'.1 = norm_clip w.1
  /\ action_space w'.1 = action_space w.1 /\ model_file w'.1 = model_file w.1
  /\ (grid_ok w.1 -> grid_ok w'.1).
Proof.
  destruct w as [ag rng]. intros Hrun.
  assert (H : exists online target opt, w'.1 = set_nets ag online target opt).
  { destruct op; cbn in Hrun; unfold bind in Hrun.
    - injection Hrun as <-. cbn. eauto.
    - destruct (act E ag state); [discriminate|]. injection Hrun as <-.
      exists (online_net ag), (target_net ag), (optimiser ag). now destruct ag.
    - destruct (act_e_greedy _ _ _ _ _ _); [discriminate|]. injection Hrun as <-.
      exists (online_net ag), (target_net ag), (optimiser ag). now destruct ag.
    - destruct (Learn.learn E G ag rng batch) as [|out] eqn:Hout; [discriminate|].
      injection Hrun as <-. cbn [fst].
      unfold Learn.learn, bind in Hout.
      destruct (Learn.log_ps_a _ _ _ _); [discriminate|].
      destruct (Learn.argmax_indices_ns _ _ _); [discriminate|].
      cbv zeta in Hout.
      destruct (Learn.pns_a _ _ _ _ _); [discriminate|].
      destruct (Projection.distribute _ _ _ _); [discriminate|].
      injection Hout as <-. cbn [Learn.out_agent]. eauto.
    - unfold update_target_net, bind in Hrun.
      destruct (load_state_dict _ _); [discriminate|]. injection Hrun as <-.
      cbn. eauto.
    - injection Hrun as <-.
      exists (online_net ag), (target_net ag), (optimiser ag). now destruct ag.
    - destruct (evaluate_q E ag state); [discriminate|]. injection Hrun as <-.
      exists (online_net ag), (target_net ag), (optimiser ag). now destruct ag.
    - injection Hrun as <-. cbn. unfold train. eauto.
    - injection Hrun as <-. cbn. unfold eval. eauto. }
  destruct H as (online & target & opt & ->). cbn [fst].
  repeat (split; [reflexivity|]). intros Hg. exact Hg.
Qed.

(** An instance: a call of [eval]. *)
Lemma methods_keep_hyperparameters_witness :
  atoms (eval toy_agent) = atoms toy_agent
  /\ V_min (eval toy_agent) = V_min toy_agent
  /\ V_max (eval toy_agent) = V_max toy_agent
  /\ support (eval toy_agent) = support toy_agent
  /\ delta_z (eval toy_agent) = delta_z toy_agent
  /\ batch_size (eval toy_agent) = batch_size toy_agent
  /\ n (eval toy_agent) = n toy_agent
  /\ discount (eval toy_agent) = discount toy_agent
  /\ norm_clip (eval toy_agent) = norm_clip toy_agent
  /\ action_space (eval toy_agent) = action_space toy_agent
  /\ model_file (eval toy_agent) = model_file toy_agent
  /\ (grid_ok toy_agent -> grid_ok (eval toy_agent)).
Proof.
  apply (methods_keep_hyperparameters toy_estimator toy_autograd OpEval
           (toy_agent, 0%N) (eval toy_agent, 0%N)).
  reflexivity.
Defined.

End AgentProperties.
